(** * Optimistic and multi-version concurrency control: the transaction cores

    A shallow embedding of the three transaction managers of the repository

    - [occ_problem.py]   class [OCC]    (module [Occ]):   one current value per key,
    - [mvocc_problem.py] class [MVOCC]  (module [Mvocc]): version chains, read set a list,
    - [mvcc_problem.py]  class [MVOCC]  (module [Mvcc]):  version chains, read set a dict,

    and the properties of their [new_transaction] / [read] / [write] /
    [validate] / [commit] methods.

    Python dictionaries are finite maps ([gmap]); Python lists are lists.
    A method is a function from the object's state to a result and the next
    state.  The only exception the methods can raise is the [KeyError] of a
    dictionary subscript [self.transactions[tid]] with an unknown [tid].
    The version dictionaries of the multi-version classes are mutable objects
    shared between a key's chain and the read sets, so they live in an explicit
    heap and are referred to by location.  The records themselves are never
    mutated by the classes ([read] hands out copies, the multi-version
    [commit] stores a copy), and the callers in the repository do not touch a
    record after passing it to [write]: a record is modelled by its content.
    What the methods print is left out. *)

From stdpp Require Import gmap strings list fin_maps sorting pretty.

(** ** Values and results *)

(** A record is a Python dict with string keys ([row.to_dict()]); its fields
    are integers ([UserID], [Score]) or strings ([LastSubmission]).  [==] on
    dicts compares contents, which is equality of finite maps. *)
Inductive field :=
  | FInt (z : Z)
  | FStr (s : string).

#[global] Instance field_eq_dec : EqDecision field.
Proof. solve_decision. Defined.

Abbreviation row := (gmap string field).

Inductive exn := KeyError.

Inductive result (A : Type) :=
  | Ok (a : A)
  | Raise (e : exn).
Arguments Ok {A} a.
Arguments Raise {A} e.

(** The operations a caller can issue, shared by the three classes. *)
Inductive op :=
  | NewTransaction
  | Read (tid : nat) (key : string)
  | Write (tid : nat) (key : string) (value : row)
  | Commit (tid : nat).

(** What the caller gets back from an operation. *)
Inductive outcome :=
  | Began (tid : nat)
  | Got (r : result (option row))
  | Wrote (r : result unit)
  | Committed (r : result bool).

(** A caller issuing operations one after the other on a store with the
    four methods. *)
Section Driver.
Context {S : Type}.
Variable new_transaction : S → nat * S.
Variable read : nat → string → S → result (option row) * S.
Variable write : nat → string → row → S → result unit * S.
Variable commit : nat → S → result bool * S.

Definition perform_with (o : op) (s : S) : outcome * S :=
  match o with
  | NewTransaction => let r := new_transaction s in (Began r.1, r.2)
  | Read tid key => let r := read tid key s in (Got r.1, r.2)
  | Write tid key value => let r := write tid key value s in (Wrote r.1, r.2)
  | Commit tid => let r := commit tid s in (Committed r.1, r.2)
  end.

(** The outcome of each operation and the state it leaves. *)
Fixpoint trace_with (ops : list op) (s : S) : list (outcome * S) :=
  match ops with
  | [] => []
  | o :: rest =>
      let r := perform_with o s in r :: trace_with rest r.2
  end.
End Driver.

(** ** The flat store: [occ_problem.py] *)

Module Occ.

(** [self.transactions[tid]]: a dict with keys [read_set], [write_set],
    [begin_ts]. *)
Record txn := Txn {
  read_set : gmap string row;
  write_set : gmap string row;
  begin_ts : nat
}.

Record state := State {
  records : gmap string row;
  transactions : gmap nat txn;
  next_tid : nat;
  commit_log : list nat
}.

(** [__init__] *)
Definition init : state := State ∅ ∅ 1 [].

Definition new_transaction (s : state) : nat * state :=
  let tid := next_tid s in
  (tid,
   State (records s)
         (<[tid := Txn ∅ ∅ (length (commit_log s))]> (transactions s))
         (tid + 1)
         (commit_log s)).

(** [read]: the test [key in self.records] comes first, so an unknown
    [tid] raises only when the key is stored.  The read set receives the
    stored object itself; the caller receives a copy. *)
Definition read (tid : nat) (key : string) (s : state)
  : result (option row) * state :=
  match records s !! key with
  | Some v =>
      match transactions s !! tid with
      | Some t =>
          (Ok (Some v),
           State (records s)
                 (<[tid := Txn (<[key := v]> (read_set t)) (write_set t) (begin_ts t)]>
                    (transactions s))
                 (next_tid s) (commit_log s))
      | None => (Raise KeyError, s)
      end
  | None => (Ok None, s)
  end.

Definition write (tid : nat) (key : string) (value : row) (s : state)
  : result unit * state :=
  match transactions s !! tid with
  | Some t =>
      (Ok tt,
       State (records s)
             (<[tid := Txn (read_set t) (<[key := value]> (write_set t)) (begin_ts t)]>
                (transactions s))
             (next_tid s) (commit_log s))
  | None => (Raise KeyError, s)
  end.

(** The test of the validation loop:
    [key not in self.records or self.records[key] != version]. *)
Definition modified (recs : gmap string row) (key : string) (version : row) : bool :=
  match recs !! key with
  | None => true
  | Some cur => negb (bool_decide (cur = version))
  end.

(** [validate]: the loop returns [False] at the first modified key and
    [True] when there is none; the answer does not depend on the order in
    which the dict is traversed. *)
Definition validate (tid : nat) (s : state) : result bool :=
  match transactions s !! tid with
  | Some t =>
      Ok (forallb (λ kv, negb (modified (records s) kv.1 kv.2))
                  (map_to_list (read_set t)))
  | None => Raise KeyError
  end.

(** The loop [for key, value in write_set.items(): self.records[key] = value]. *)
Definition apply_writes (ws : gmap string row) (recs : gmap string row)
  : gmap string row :=
  map_fold (λ key value acc, <[key := value]> acc) recs ws.

Definition commit (tid : nat) (s : state) : result bool * state :=
  match validate tid s with
  | Raise e => (Raise e, s)
  | Ok false => (Ok false, s)
  | Ok true =>
      match transactions s !! tid with
      | Some t =>
          (Ok true,
           State (apply_writes (write_set t) (records s))
                 (transactions s) (next_tid s)
                 (commit_log s ++ [tid]))
      | None => (Raise KeyError, s)
      end
  end.

Definition perform := perform_with new_transaction read write commit.
Definition trace := trace_with new_transaction read write commit.

Definition step (o : op) (s : state) : state := (perform o s).2.

Definition run (ops : list op) (s : state) : state :=
  foldl (λ st o, step o st) s ops.

(** The states the class can be in: those built from [__init__] by its
    operations. *)
Definition reachable (s : state) : Prop := ∃ ops, s = run ops init.

(** The committed value of a key. *)
Definition committed (key : string) (s : state) : option row :=
  records s !! key.

End Occ.

(** ** The multi-version stores: what the two classes share *)

Module Mv.

(** A version is the dict [{"value", "begin_ts", "end_ts", "tid"}] built
    by [commit]. *)
Record version := Version {
  ver_value : row;
  ver_begin_ts : nat;
  ver_end_ts : option nat;
  ver_tid : nat
}.

#[global] Instance version_eq_dec : EqDecision version.
Proof. solve_decision. Defined.

(** Version objects are allocated by [commit] and never freed: the heap is
    the list of all of them, a location is an index into it.  A chain
    [self.records[key]] and a read set hold locations. *)
Abbreviation chains := (gmap string (list nat)).

(** [self.transactions[tid]].  The read set is a list of pairs in
    [mvocc_problem.py] and a dict in [mvcc_problem.py]; a dict is kept in
    insertion order, so it is a list of pairs with distinct keys. *)
Record txn := Txn {
  read_set : list (string * nat);
  write_set : list (string * row);
  begin_ts : nat;
  snapshot : gmap string nat
}.

Record state := State {
  records : chains;
  heap : list version;
  transactions : gmap nat txn;
  next_tid : nat;
  commit_log : list nat
}.

(** [__init__] *)
Definition init : state := State ∅ [] ∅ 1 [].

Definition new_transaction (s : state) : nat * state :=
  let tid := next_tid s in
  (tid,
   State (records s) (heap s)
         (<[tid := Txn [] [] (length (commit_log s)) ∅]> (transactions s))
         (tid + 1)
         (commit_log s)).

Definition write (tid : nat) (key : string) (value : row) (s : state)
  : result unit * state :=
  match transactions s !! tid with
  | Some t =>
      (Ok tt,
       State (records s) (heap s)
             (<[tid := Txn (read_set t) (write_set t ++ [(key, value)])
                          (begin_ts t) (snapshot t)]> (transactions s))
             (next_tid s) (commit_log s))
  | None => (Raise KeyError, s)
  end.

(** [self.records] is a [defaultdict(list)]: the subscript
    [self.records[key]] inserts an empty chain when the key is missing. *)
Definition touch (key : string) (recs : chains) : chains :=
  match recs !! key with
  | Some _ => recs
  | None => <[key := []]> recs
  end.

Definition chain_of (recs : chains) (key : string) : list nat :=
  default [] (recs !! key).

(** The test of the read loop, for a transaction that began at [ts]:
    [version['begin_ts'] <= ts and
     (version['end_ts'] is None or version['end_ts'] > ts)]. *)
Definition visible (ts : nat) (v : version) : bool :=
  bool_decide (ver_begin_ts v ≤ ts) &&
  match ver_end_ts v with
  | None => true
  | Some e => bool_decide (ts < e)
  end.

(** The read loop over [reversed(self.records[key])]: the first visible
    version, with its location.  (A location outside the heap is skipped;
    chains never hold one, see [inv_bound] below.) *)
Fixpoint scan (hp : list version) (ts : nat) (locs : list nat)
  : option (nat * version) :=
  match locs with
  | [] => None
  | l :: rest =>
      match hp !! l with
      | Some v => if visible ts v then Some (l, v) else scan hp ts rest
      | None => scan hp ts rest
      end
  end.

(** [read], up to the way the observed version enters the read set
    ([record]).  The chain is fetched first (and created when missing);
    [self.transactions[tid]] is evaluated inside the loop, so an unknown
    [tid] raises only when the chain has a version. *)
Definition read_with (record : string → nat → list (string * nat) → list (string * nat))
    (tid : nat) (key : string) (s : state) : result (option row) * state :=
  let s1 := State (touch key (records s)) (heap s) (transactions s)
                  (next_tid s) (commit_log s) in
  match chain_of (records s) key with
  | [] => (Ok None, s1)
  | _ :: _ =>
      match transactions s !! tid with
      | None => (Raise KeyError, s1)
      | Some t =>
          match scan (heap s) (begin_ts t) (reverse (chain_of (records s) key)) with
          | Some (l, v) =>
              (Ok (Some (ver_value v)),
               State (touch key (records s)) (heap s)
                     (<[tid := Txn (record key l (read_set t)) (write_set t)
                                  (begin_ts t) (<[key := l]> (snapshot t))]>
                        (transactions s))
                     (next_tid s) (commit_log s))
          | None => (Ok None, s1)
          end
      end
  end.

(** The validation loop over the read set, up to the test [conflict lh l]
    made on the location [lh] of the chain's last version and the
    location [l] recorded at read time.  Each round fetches
    [self.records[key]]; an empty chain is skipped. *)
Fixpoint check_with (conflict : nat → nat → bool)
    (rs : list (string * nat)) (recs : chains) : bool * chains :=
  match rs with
  | [] => (true, recs)
  | (key, l) :: rest =>
      match last (chain_of recs key) with
      | None => check_with conflict rest (touch key recs)
      | Some lh =>
          if conflict lh l then (false, touch key recs)
          else check_with conflict rest (touch key recs)
      end
  end.

Definition close (commit_ts : nat) (v : version) : version :=
  Version (ver_value v) (ver_begin_ts v) (Some commit_ts) (ver_tid v).

(** One round of the write loop of [commit]: close the last version of the
    chain if there is one, then append the new version. *)
Definition apply_write (tid commit_ts : nat)
    (st : chains * list version) (kv : string * row) : chains * list version :=
  let chain := chain_of st.1 kv.1 in
  let hp :=
    match last chain with
    | Some lh => alter (close commit_ts) lh st.2
    | None => st.2
    end in
  (<[kv.1 := chain ++ [length hp]]> st.1,
   hp ++ [Version kv.2 commit_ts None tid]).

Definition apply_writes (tid commit_ts : nat) (ws : list (string * row))
    (st : chains * list version) : chains * list version :=
  foldl (apply_write tid commit_ts) st ws.

(** [commit] up to the validation test. *)
Definition commit_with (conflict : state → nat → nat → bool)
    (tid : nat) (s : state) : result bool * state :=
  match transactions s !! tid with
  | None => (Raise KeyError, s)
  | Some t =>
      let (ok, recs) := check_with (conflict s) (read_set t) (records s) in
      if ok then
        let commit_ts := length (commit_log s) in
        let st := apply_writes tid commit_ts (write_set t) (recs, heap s) in
        (Ok true,
         State st.1 st.2 (transactions s) (next_tid s) (commit_log s ++ [tid]))
      else
        (Ok false,
         State recs (heap s) (transactions s) (next_tid s) (commit_log s))
  end.

(** The version objects of a key's chain, oldest first; those that are
    still open; the values the key has had; and its committed value, which
    is the value of the last version (as [print_leaderboard] reads it). *)
Definition versions_of (s : state) (key : string) : list version :=
  omap (λ l, heap s !! l) (chain_of (records s) key).

Definition open_versions (s : state) (key : string) : list version :=
  filter (λ v, ver_end_ts v = None) (versions_of s key).

Definition history (key : string) (s : state) : list row :=
  ver_value <$> versions_of s key.

Definition committed (key : string) (s : state) : option row :=
  l ← last (chain_of (records s) key);
  ver_value <$> heap s !! l.

(** What a transaction that began at [ts] sees of a key: the value of the
    version found by the read loop. *)
Definition seen (s : state) (ts : nat) (key : string) : option row :=
  (λ lv, ver_value lv.2) <$> scan (heap s) ts (reverse (chain_of (records s) key)).

Section Machine.
Variable record : string → nat → list (string * nat) → list (string * nat).
Variable conflict : state → nat → nat → bool.

Definition step_with (o : op) (s : state) : state :=
  (perform_with new_transaction (read_with record) write
                (commit_with conflict) o s).2.

Definition run_with (ops : list op) (s : state) : state :=
  foldl (λ st o, step_with o st) s ops.
End Machine.

End Mv.

(** ** [mvocc_problem.py] *)

Module Mvocc.
Import Mv.

(** [read_set.append((key, latest_version))] *)
Definition record (key : string) (l : nat) (rs : list (string * nat))
  : list (string * nat) := rs ++ [(key, l)].

Definition read := read_with record.

(** The two tests of [validate] on one read-set entry:
    [latest_version['begin_ts'] > read_version['begin_ts']], then
    [read_version['end_ts'] is not None and read_version['end_ts'] <= current_ts]. *)
Definition conflict (s : state) (lh l : nat) : bool :=
  match heap s !! lh, heap s !! l with
  | Some latest_version, Some read_version =>
      bool_decide (ver_begin_ts read_version < ver_begin_ts latest_version)
      || match ver_end_ts read_version with
         | Some e => bool_decide (e ≤ length (commit_log s))
         | None => false
         end
  | _, _ => false
  end.

Definition validate (tid : nat) (s : state) : result bool * state :=
  match transactions s !! tid with
  | None => (Raise KeyError, s)
  | Some t =>
      let (ok, recs) := check_with (conflict s) (read_set t) (records s) in
      (Ok ok, State recs (heap s) (transactions s) (next_tid s) (commit_log s))
  end.

Definition commit (tid : nat) (s : state) : result bool * state :=
  match validate tid s with
  | (Raise e, s1) => (Raise e, s1)
  | (Ok false, s1) => (Ok false, s1)
  | (Ok true, s1) =>
      match transactions s1 !! tid with
      | None => (Raise KeyError, s1)
      | Some t =>
          let commit_ts := length (commit_log s1) in
          let st := apply_writes tid commit_ts (write_set t) (records s1, heap s1) in
          (Ok true,
           State st.1 st.2 (transactions s1) (next_tid s1) (commit_log s1 ++ [tid]))
      end
  end.

Definition perform := perform_with new_transaction read write commit.
Definition trace := trace_with new_transaction read write commit.

Definition step (o : op) (s : state) : state := (perform o s).2.

Definition run (ops : list op) (s : state) : state :=
  foldl (λ st o, step o st) s ops.

(** The states the class can be in: those built from [__init__] by its
    operations. *)
Definition reachable (s : state) : Prop := ∃ ops, s = run ops init.

End Mvocc.

(** ** [mvcc_problem.py] *)

Module Mvcc.
Import Mv.

(** [read_set[key] = latest_version] on a dict: an existing key keeps its
    place and takes the new version, a new key goes last. *)
Fixpoint record (key : string) (l : nat) (rs : list (string * nat))
  : list (string * nat) :=
  match rs with
  | [] => [(key, l)]
  | (k, l0) :: rest =>
      if decide (k = key) then (k, l) :: rest else (k, l0) :: record key l rest
  end.

Definition read := read_with record.

(** [latest_version and latest_version != old_version]: a version dict is
    never empty, so it is true, and [!=] compares the contents of the two
    dicts. *)
Definition conflict (s : state) (lh l : nat) : bool :=
  match heap s !! lh, heap s !! l with
  | Some latest_version, Some old_version =>
      negb (bool_decide (latest_version = old_version))
  | _, _ => false
  end.

Definition commit (tid : nat) (s : state) : result bool * state :=
  let commit_ts := length (commit_log s) in
  match transactions s !! tid with
  | None => (Raise KeyError, s)
  | Some t =>
      let (ok, recs) := check_with (conflict s) (read_set t) (records s) in
      if ok then
        let st := apply_writes tid commit_ts (write_set t) (recs, heap s) in
        (Ok true,
         State st.1 st.2 (transactions s) (next_tid s) (commit_log s ++ [tid]))
      else
        (Ok false,
         State recs (heap s) (transactions s) (next_tid s) (commit_log s))
  end.

Definition perform := perform_with new_transaction read write commit.
Definition trace := trace_with new_transaction read write commit.

Definition step (o : op) (s : state) : state := (perform o s).2.

Definition run (ops : list op) (s : state) : state :=
  foldl (λ st o, step o st) s ops.

(** The states the class can be in: those built from [__init__] by its
    operations. *)
Definition reachable (s : state) : Prop := ∃ ops, s = run ops init.

End Mvcc.

(** ** Well-formed multi-version states *)

Module MvInv.
Import Mv.

(** What holds of the chains and the heap between two operations, [n]
    being the length of the commit log: chains hold allocated locations,
    no location sits in two places, every version but the last of its
    chain was closed by an earlier commit, the last one is open, and
    timestamps grow along a chain. *)
Record store_inv (recs : chains) (hp : list version) (n : nat) : Prop := StoreInv {
  inv_bound : ∀ k l, l ∈ chain_of recs k → l < length hp;
  inv_distinct : ∀ k k' i i' l,
    chain_of recs k !! i = Some l → chain_of recs k' !! i' = Some l →
    k = k' ∧ i = i';
  inv_closed : ∀ k i l v,
    chain_of recs k !! i = Some l → S i < length (chain_of recs k) →
    hp !! l = Some v → ∃ e, ver_end_ts v = Some e ∧ e < n;
  inv_open : ∀ k l v,
    last (chain_of recs k) = Some l → hp !! l = Some v → ver_end_ts v = None;
  inv_begin : ∀ l v, hp !! l = Some v → ver_begin_ts v < n;
  inv_sorted : ∀ k i j l l' v v',
    i ≤ j → chain_of recs k !! i = Some l → chain_of recs k !! j = Some l' →
    hp !! l = Some v → hp !! l' = Some v' → ver_begin_ts v ≤ ver_begin_ts v'
}.

(** A state is well formed when its store is, every read-set entry points
    into the chain of its key, and every known transaction id is below
    [next_tid]. *)
Record inv (s : state) : Prop := Inv {
  inv_store : store_inv (records s) (heap s) (length (commit_log s));
  inv_refs : ∀ tid t key l,
    transactions s !! tid = Some t → (key, l) ∈ read_set t →
    l ∈ chain_of (records s) key;
  inv_tids : ∀ tid t, transactions s !! tid = Some t → tid < next_tid s
}.

(** What a way of recording a read may do to the read set: add the entry,
    and nothing else. *)
Definition records_entry
    (record : string → nat → list (string * nat) → list (string * nat)) : Prop :=
  ∀ key l rs,
    (key, l) ∈ record key l rs ∧
    ∀ e, e ∈ record key l rs → e ∈ rs ∨ e = (key, l).

End MvInv.

(** ** The leaderboard scenario *)

Module Scenario.

Definition user_1 : string := "user_1".

(** The record [{Score: n}]. *)
Definition score (n : Z) : row := {[ "Score"%string := FInt n ]}.

(** [user_1] holds [{Score: 100}] and nothing was committed yet. *)
Definition occ0 : Occ.state :=
  Occ.State {[ user_1 := score 100 ]} ∅ 1 [].

Definition mv0 : Mv.state :=
  Mv.State {[ user_1 := [0] ]} [Mv.Version (score 100) 0 None 0] ∅ 1 [].

(** T1 (id 1) begins and reads; T2 (id 2) begins, reads, writes 120 and
    commits; T1 writes 150 and tries to commit; the retry (id 3) begins,
    reads, writes 170 and commits. *)
Definition interleaving : list op :=
  [ NewTransaction; Read 1 user_1;
    NewTransaction; Read 2 user_1; Write 2 user_1 (score 120); Commit 2;
    Write 1 user_1 (score 150); Commit 1;
    NewTransaction; Read 3 user_1; Write 3 user_1 (score 170); Commit 3 ].

Definition expected : list outcome :=
  [ Began 1; Got (Ok (Some (score 100)));
    Began 2; Got (Ok (Some (score 100))); Wrote (Ok tt); Committed (Ok true);
    Wrote (Ok tt); Committed (Ok false);
    Began 3; Got (Ok (Some (score 120))); Wrote (Ok tt); Committed (Ok true) ].

(** The same store, loaded through the interface as [load_initial_data]
    does, with a first transaction. *)
Definition load : list op :=
  [ NewTransaction; Write 1 user_1 (score 100); Commit 1 ].

(** The states used to exercise the statements below: the store loaded with
  [user_1], a reader (id 2) that has read it, and a writer (id 3) that has
  written 120; and the same after the writer's commit. *)
(** The interleaving of the scenario on the loaded store: the transactions
    get the ids 2, 3 and 4. *)
Definition interleaving_loaded : list op :=
  load ++
  [ NewTransaction; Read 2 user_1;
    NewTransaction; Read 3 user_1; Write 3 user_1 (score 120); Commit 3;
    Write 2 user_1 (score 150); Commit 2;
    NewTransaction; Read 4 user_1; Write 4 user_1 (score 170); Commit 4 ].

Definition expected_loaded : list outcome :=
  [ Began 1; Wrote (Ok tt); Committed (Ok true);
    Began 2; Got (Ok (Some (score 100)));
    Began 3; Got (Ok (Some (score 100))); Wrote (Ok tt); Committed (Ok true);
    Wrote (Ok tt); Committed (Ok false);
    Began 4; Got (Ok (Some (score 120))); Wrote (Ok tt); Committed (Ok true) ].

Definition contended : list op :=
load ++ [ NewTransaction; Read 2 user_1;
          NewTransaction; Read 3 user_1; Write 3 user_1 (score 120) ].

Definition overtaken : list op := contended ++ [ Commit 3 ].

End Scenario.

(** ** Statements shared by the classes *)

Module Props.
Import Mv.

(** What [read] records, flat store: a returned value is the stored one and
    is then in the read set under the key; absent means the key is not
    stored, and then the state is untouched. *)
Definition occ_read_recorded : Prop :=
  ∀ s tid t key,
    Occ.transactions s !! tid = Some t →
    (∀ v, (Occ.read tid key s).1 = Ok (Some v) →
          Occ.records s !! key = Some v ∧
          ∃ t', Occ.transactions (Occ.read tid key s).2 !! tid = Some t' ∧
                Occ.read_set t' !! key = Some v ∧
                Occ.write_set t' = Occ.write_set t) ∧
    ((Occ.read tid key s).1 = Ok None →
     Occ.records s !! key = None ∧ (Occ.read tid key s).2 = s).

(** What [read] records, multi-version store: a returned value is the value
    of a version of the key's chain visible at the transaction's begin
    timestamp, and that very version is then in the read set under the key;
    when absent is returned no transaction changes. *)
Definition mv_read_recorded
    (read : nat → string → state → result (option row) * state) : Prop :=
  ∀ s tid t key,
    transactions s !! tid = Some t →
    (∀ v, (read tid key s).1 = Ok (Some v) →
          ∃ l ver t',
            l ∈ chain_of (records s) key ∧ heap s !! l = Some ver ∧
            ver_value ver = v ∧ visible (begin_ts t) ver = true ∧
            transactions (read tid key s).2 !! tid = Some t' ∧
            (key, l) ∈ read_set t' ∧ write_set t' = write_set t) ∧
    ((read tid key s).1 = Ok None →
     transactions (read tid key s).2 = transactions s).

(** An id that [new_transaction] never returned. *)
Definition occ_unknown_tid : Prop :=
  ∀ s tid key value,
    Occ.transactions s !! tid = None →
    Occ.write tid key value s = (Raise KeyError, s) ∧
    Occ.commit tid s = (Raise KeyError, s) ∧
    Occ.read tid key s =
      match Occ.records s !! key with
      | Some _ => (Raise KeyError, s)
      | None => (Ok None, s)
      end.

Definition mv_unknown_tid
    (read : nat → string → state → result (option row) * state)
    (commit : nat → state → result bool * state) : Prop :=
  ∀ s tid key value,
    transactions s !! tid = None →
    write tid key value s = (Raise KeyError, s) ∧
    commit tid s = (Raise KeyError, s) ∧
    read tid key s =
      match chain_of (records s) key with
      | [] =>
          (Ok None,
           State (touch key (records s)) (heap s) (transactions s)
                 (next_tid s) (commit_log s))
      | _ :: _ => (Raise KeyError, s)
      end.

(** An id that [new_transaction] returned, whatever was done with it
    since. *)
Definition occ_known_tid : Prop :=
  ∀ s tid key value,
    is_Some (Occ.transactions s !! tid) →
    (∃ r, (Occ.read tid key s).1 = Ok r) ∧
    (Occ.write tid key value s).1 = Ok tt ∧
    (∃ b, (Occ.commit tid s).1 = Ok b) ∧
    ∀ o, is_Some (Occ.transactions (Occ.step o s) !! tid).

Definition mv_known_tid
    (read : nat → string → state → result (option row) * state)
    (commit : nat → state → result bool * state)
    (step : op → state → state) : Prop :=
  ∀ s tid key value,
    is_Some (transactions s !! tid) →
    (∃ r, (read tid key s).1 = Ok r) ∧
    (write tid key value s).1 = Ok tt ∧
    (∃ b, (commit tid s).1 = Ok b) ∧
    ∀ o, is_Some (transactions (step o s) !! tid).

(** Two writes of one key by one transaction, flat store: the write set is
    a dict, the second value replaces the first, and a successful commit
    stores it. *)
Definition occ_last_write_wins : Prop :=
  ∀ s tid t key v1 v2,
    Occ.transactions s !! tid = Some t →
    ∃ t2,
      Occ.transactions (Occ.write tid key v2 (Occ.write tid key v1 s).2).2 !! tid
        = Some t2 ∧
      Occ.write_set t2 = <[key := v2]> (Occ.write_set t) ∧
      Occ.write_set t2 !! key = Some v2 ∧
      ∀ s3,
        Occ.commit tid (Occ.write tid key v2 (Occ.write tid key v1 s).2).2
          = (Ok true, s3) →
        Occ.records s3 = Occ.write_set t2 ∪ Occ.records s ∧
        Occ.committed key s3 = Some v2.

(** The same in a multi-version store: the write set is a list, both writes
    stay buffered in order, and a successful commit appends one version per
    buffered write of the key, so at least two; the last one holds the
    second value. *)
Definition mv_every_write_applied
    (commit : nat → state → result bool * state) : Prop :=
  ∀ s tid t key v1 v2,
    transactions s !! tid = Some t →
    ∃ t2,
      transactions (write tid key v2 (write tid key v1 s).2).2 !! tid = Some t2 ∧
      write_set t2 = write_set t ++ [(key, v1); (key, v2)] ∧
      ∀ s3,
        commit tid (write tid key v2 (write tid key v1 s).2).2 = (Ok true, s3) →
        ∃ new,
          chain_of (records s3) key = chain_of (records s) key ++ new ∧
          length new = length (filter (λ kv, kv.1 = key) (write_set t2)) ∧
          2 ≤ length new ∧
          committed key s3 = Some v2.

(** The chain invariant of a multi-version class, in every state it can
    reach and for every key: each location of the chain holds a version; at
    most one version is open; begin timestamps ascend along the chain; and
    an operation only appends to the chain, leaving the value, begin
    timestamp and owner of every existing version as they are. *)
Definition chain_invariant
    (run : list op → state → state) (step : op → state → state) : Prop :=
  ∀ ops key,
    length (versions_of (run ops init) key)
      = length (chain_of (records (run ops init)) key) ∧
    length (open_versions (run ops init) key) ≤ 1 ∧
    StronglySorted le (ver_begin_ts <$> versions_of (run ops init) key) ∧
    ∀ o,
      (∃ new, chain_of (records (step o (run ops init))) key
              = chain_of (records (run ops init)) key ++ new) ∧
      (∀ l v, heap (run ops init) !! l = Some v →
              ∃ v', heap (step o (run ops init)) !! l = Some v' ∧
                    ver_value v' = ver_value v ∧
                    ver_begin_ts v' = ver_begin_ts v ∧
                    ver_tid v' = ver_tid v).

(** A read-set entry is stale when (a) the last version of the key's chain
    is not the recorded one, or (b) the recorded version has an [end_ts]
    that is at most the length of the commit log. *)
Definition stale (s : state) (key : string) (l : nat) : Prop :=
  last (chain_of (records s) key) ≠ Some l ∨
  ∃ v e, heap s !! l = Some v ∧ ver_end_ts v = Some e ∧
         e ≤ length (commit_log s).

(** The rule of snapshot validation, for a way [outcome] of running it
    ([validate], or [commit], which returns false exactly when validation
    fails): in a reachable state and for a known transaction it returns a
    boolean, which is false exactly when some entry of the read set is
    stale. *)
Definition snapshot_validation
    (reachable : state → Prop) (outcome : nat → state → result bool) : Prop :=
  ∀ s tid t,
    reachable s → transactions s !! tid = Some t →
    ∃ b, outcome tid s = Ok b ∧
         (b = false ↔ ∃ key l, (key, l) ∈ read_set t ∧ stale s key l).

(** Reads of the flat store return the value stored at the time: two
    reads of a key by a known transaction return the same exactly when the
    committed value of the key is the same at both. *)
Definition occ_read_current : Prop :=
  ∀ s s' tid key,
    is_Some (Occ.transactions s !! tid) →
    is_Some (Occ.transactions s' !! tid) →
    (Occ.read tid key s').1 = (Occ.read tid key s).1 ↔
    Occ.committed key s' = Occ.committed key s.

(** Reads of a multi-version store repeat: once the commit log is longer
    than the begin timestamp of a transaction, whatever operations follow,
    a read of a key by the transaction returns what it returns now. *)
Definition mv_read_repeats
    (reachable : state → Prop)
    (read : nat → string → state → result (option row) * state)
    (run : list op → state → state) : Prop :=
  ∀ s tid t key ops,
    reachable s → transactions s !! tid = Some t →
    begin_ts t < length (commit_log s) →
    (read tid key (run ops s)).1 = (read tid key s).1.

End Props.

(** ** The callers: loading, submitting, listing *)

(** The functions [load_initial_data], [submit_problem_transaction] and
    [print_leaderboard] are the same text in the three files, up to the name
    of the store.  Beside the store's [KeyError] they can raise the
    [KeyError] of a row subscript, the [TypeError] of [+=] on a string score
    and the [IndexError] of [[-1]] on an empty chain. *)
Inductive pyexn := PyKeyError | PyTypeError | PyIndexError.

Inductive answer (A : Type) :=
  | Returned (a : A)
  | Failed (e : pyexn).
Arguments Returned {A} a.
Arguments Failed {A} e.

Definition of_exn (e : exn) : pyexn :=
  match e with KeyError => PyKeyError end.

(** How a field is formatted inside an f-string. *)
Definition field_str (f : field) : string :=
  match f with
  | FInt z => pretty z
  | FStr s => s
  end.

(** [f"user_{user_id}"] *)
Definition user_key (user_id : Z) : string := "user_" +:+ pretty user_id.

(** [load_sample_data]: the five rows of the data frame. *)
Definition sample_row (user_id score : Z) : row :=
  {[ "UserID"%string := FInt user_id; "Score"%string := FInt score;
     "LastSubmission"%string := FStr "2024-01-01" ]}.

Definition load_sample_data : list row :=
  [ sample_row 1 100; sample_row 2 200; sample_row 3 150;
    sample_row 4 180; sample_row 5 120 ].

Section Callers.
Context {St : Type}.
Variable new_transaction : St → nat * St.
Variable read : nat → string → St → result (option row) * St.
Variable write : nat → string → row → St → result unit * St.
Variable commit : nat → St → result bool * St.

(** One round of the loop of [load_initial_data].  The answer is the user
    id that is printed as loaded, if the commit succeeded. *)
Definition load_row (data : row) (s : St) : answer (option field) * St :=
  let r := new_transaction s in
  match data !! "UserID"%string with
  | None => (Failed PyKeyError, r.2)
  | Some user_id =>
      let w := write r.1 ("user_" +:+ field_str user_id) data r.2 in
      match w.1 with
      | Raise e => (Failed (of_exn e), w.2)
      | Ok _ =>
          let c := commit r.1 w.2 in
          match c.1 with
          | Raise e => (Failed (of_exn e), c.2)
          | Ok true => (Returned (Some user_id), c.2)
          | Ok false => (Returned None, c.2)
          end
      end
  end.

(** [load_initial_data]: the answer lists the user ids printed as loaded. *)
Fixpoint load_initial_data (df : list row) (s : St) : answer (list field) * St :=
  match df with
  | [] => (Returned [], s)
  | data :: rest =>
      let r := load_row data s in
      match r.1 with
      | Failed e => (Failed e, r.2)
      | Returned printed =>
          let r' := load_initial_data rest r.2 in
          match r'.1 with
          | Failed e => (Failed e, r'.2)
          | Returned l => (Returned (option_list printed ++ l), r'.2)
          end
      end
  end.

(** What the other threads do to the store while this one sleeps: [during i]
    inside attempt [i] ([time.sleep(sleep_time)], between the read and the
    write), [between i] after its failed commit ([time.sleep(0.1)]).  Both
    are the identity when nothing else runs.  [now i] is what
    [datetime.now().strftime(...)] gives in attempt [i]. *)
Variable during : nat → St → St.
Variable between : nat → St → St.
Variable now : nat → string.

(** The [while] loop of [submit_problem_transaction], [n] attempts being
    left.  The answer is [None] for the bare [return] (user not found),
    [True] or [False]. *)
Fixpoint submit_loop (n retry_count : nat) (user_id score_increase : Z) (s : St)
  : answer (option bool) * St :=
  match n with
  | 0 => (Returned (Some false), s)
  | S n' =>
      let b := new_transaction s in
      let key := user_key user_id in
      let r := read b.1 key b.2 in
      match r.1 with
      | Raise e => (Failed (of_exn e), r.2)
      | Ok None => (Returned None, r.2)
      | Ok (Some current_data) =>
          match current_data !! "Score"%string with
          | None => (Failed PyKeyError, r.2)
          | Some current_score =>
              let s3 := during retry_count r.2 in
              match current_score with
              | FStr _ => (Failed PyTypeError, s3)
              | FInt z =>
                  let new_data :=
                    <["LastSubmission"%string := FStr (now retry_count)]>
                      (<["Score"%string := FInt (z + score_increase)]> current_data) in
                  let w := write b.1 key new_data s3 in
                  match w.1 with
                  | Raise e => (Failed (of_exn e), w.2)
                  | Ok _ =>
                      let c := commit b.1 w.2 in
                      match c.1 with
                      | Raise e => (Failed (of_exn e), c.2)
                      | Ok true => (Returned (Some true), c.2)
                      | Ok false =>
                          submit_loop n' (retry_count + 1) user_id score_increase
                                      (between retry_count c.2)
                      end
                  end
              end
          end
      end
  end.

(** [max_retries = 3] *)
Definition submit_problem_transaction_with := submit_loop 3 0.
End Callers.

(** The record a successful submission stores. *)
Definition submitted (stamp : string) (score_increase : Z) (z : Z) (data : row) : row :=
  <["LastSubmission"%string := FStr stamp]>
    (<["Score"%string := FInt (z + score_increase)]> data).

(** The callers on each store, nothing else running. *)
Module OccBoard.
Definition load_initial_data :=
  load_initial_data Occ.new_transaction Occ.write Occ.commit.
Definition submit_problem_transaction (now : nat → string) :=
  submit_problem_transaction_with Occ.new_transaction Occ.read Occ.write Occ.commit
    (λ _ s, s) (λ _ s, s) now.
End OccBoard.

Module MvoccBoard.
Definition load_initial_data :=
  load_initial_data Mv.new_transaction Mv.write Mvocc.commit.
Definition submit_problem_transaction (now : nat → string) :=
  submit_problem_transaction_with Mv.new_transaction Mvocc.read Mv.write Mvocc.commit
    (λ _ s, s) (λ _ s, s) now.
End MvoccBoard.

Module MvccBoard.
Definition load_initial_data :=
  load_initial_data Mv.new_transaction Mv.write Mvcc.commit.
Definition submit_problem_transaction (now : nat → string) :=
  submit_problem_transaction_with Mv.new_transaction Mvcc.read Mv.write Mvcc.commit
    (λ _ s, s) (λ _ s, s) now.
End MvccBoard.

(** The first loop of [print_leaderboard] of the multi-version files: the
    value of the last version of every key that starts with [user_].  (The
    keys are taken in the order of the finite map, not in insertion order;
    whether the loop fails does not depend on it.) *)
Definition latest_value (s : Mv.state) (chain : list nat) : answer row :=
  match last chain with
  | None => Failed PyIndexError
  | Some l =>
      match Mv.heap s !! l with
      | Some v => Returned (Mv.ver_value v)
      | None => Failed PyIndexError
      end
  end.

Fixpoint collect (s : Mv.state) (chains : list (list nat)) : answer (list row) :=
  match chains with
  | [] => Returned []
  | chain :: rest =>
      match latest_value s chain with
      | Failed e => Failed e
      | Returned value =>
          match collect s rest with
          | Failed e => Failed e
          | Returned l => Returned (value :: l)
          end
      end
  end.

Definition leaderboard_values (s : Mv.state) : answer (list row) :=
  collect s
    (filter (λ kc, String.prefix "user_" kc.1 = true)
            (map_to_list (Mv.records s))).*2.

(** ** More of what reachable states satisfy *)

Module OccInv.
Import Occ.

(** Known transaction ids are below [next_tid], and no transaction began
    later than now. *)
Definition inv (s : state) : Prop :=
  ∀ tid t, transactions s !! tid = Some t →
           tid < next_tid s ∧ begin_ts t ≤ length (commit_log s).

End OccInv.

Module MvHistory.
Import Mv.

(** The version at location [l] was committed by the transaction entered at
    index [begin_ts] of a commit log. *)
Definition owned (log : list nat) (hp : list version) : Prop :=
  ∀ l v, hp !! l = Some v → log !! ver_begin_ts v = Some (ver_tid v).

(** Validity intervals are contiguous: a version ends when the next one of
    its chain begins. *)
Definition contiguous (recs : chains) (hp : list version) : Prop :=
  ∀ k i l l' v v',
    chain_of recs k !! i = Some l → chain_of recs k !! S i = Some l' →
    hp !! l = Some v → hp !! l' = Some v' →
    ver_end_ts v = Some (ver_begin_ts v').

Record inv (s : state) : Prop := Inv {
  inv_owned : owned (commit_log s) (heap s);
  inv_contiguous : contiguous (records s) (heap s);
  inv_begun : ∀ tid t, transactions s !! tid = Some t →
                       begin_ts t ≤ length (commit_log s)
}.

End MvHistory.

(** The row that [load_initial_data] leaves under a key: the last row of the
    data frame whose user id formats to that key. *)
Definition row_key (data : row) : option string :=
  (λ user_id, "user_" +:+ field_str user_id) <$> data !! "UserID"%string.

Definition loaded_value (df : list row) (key : string) : option row :=
  last (filter (λ data, row_key data = Some key) df).

(** ** Statements about the callers and the stores, per store *)

(** A store as its callers see it: the four methods, the states it can
    reach, and what can be observed of a state. *)
Record store (St : Type) := Store {
  st_new_transaction : St → nat * St;
  st_read : nat → string → St → result (option row) * St;
  st_write : nat → string → row → St → result unit * St;
  st_commit : nat → St → result bool * St;
  st_run : list op → St → St;
  st_init : St;
  st_committed : string → St → option row;
  st_commit_log : St → list nat;
  st_next_tid : St → nat;
  st_known : nat → St → Prop;
  st_begin_ts : nat → St → option nat
}.
Arguments st_new_transaction {St} _.
Arguments st_read {St} _.
Arguments st_write {St} _.
Arguments st_commit {St} _.
Arguments st_run {St} _.
Arguments st_init {St} _.
Arguments st_committed {St} _.
Arguments st_commit_log {St} _.
Arguments st_next_tid {St} _.
Arguments st_known {St} _.
Arguments st_begin_ts {St} _.

Definition occ_store : store Occ.state :=
  Store Occ.state Occ.new_transaction Occ.read Occ.write Occ.commit Occ.run
        Occ.init Occ.committed Occ.commit_log Occ.next_tid
        (λ tid s, is_Some (Occ.transactions s !! tid))
        (λ tid s, Occ.begin_ts <$> Occ.transactions s !! tid).

Definition mvocc_store : store Mv.state :=
  Store Mv.state Mv.new_transaction Mvocc.read Mv.write Mvocc.commit Mvocc.run
        Mv.init Mv.committed Mv.commit_log Mv.next_tid
        (λ tid s, is_Some (Mv.transactions s !! tid))
        (λ tid s, Mv.begin_ts <$> Mv.transactions s !! tid).

Definition mvcc_store : store Mv.state :=
  Store Mv.state Mv.new_transaction Mvcc.read Mv.write Mvcc.commit Mvcc.run
        Mv.init Mv.committed Mv.commit_log Mv.next_tid
        (λ tid s, is_Some (Mv.transactions s !! tid))
        (λ tid s, Mv.begin_ts <$> Mv.transactions s !! tid).

(** An operation of transaction [tid]. *)
Definition uses (tid : nat) (o : op) : Prop :=
  match o with
  | NewTransaction => False
  | Read t _ | Write t _ _ | Commit t => t = tid
  end.

(** An operation that commits. *)
Definition commits (o : op) : Prop :=
  match o with
  | Commit _ => True
  | _ => False
  end.

Module Story.
Section Store.
Context {St : Type} (M : store St).

Definition reachable (s : St) : Prop := ∃ ops, s = st_run M ops (st_init M).

(** [new_transaction] hands out an id that no transaction has, and the
    known transactions stay known. *)
Definition fresh_ids : Prop :=
  ∀ s, reachable s →
       ¬ st_known M (st_new_transaction M s).1 s ∧
       st_known M (st_new_transaction M s).1 (st_new_transaction M s).2 ∧
       ∀ tid, st_known M tid s → st_known M tid (st_new_transaction M s).2.

(** A buffered write is seen by nobody: the committed values and the commit
    log stay, and every read of every transaction, the writer included,
    returns what it returned before. *)
Definition write_invisible : Prop :=
  ∀ s tid key value,
    (∀ k, st_committed M k (st_write M tid key value s).2 = st_committed M k s) ∧
    st_commit_log M (st_write M tid key value s).2 = st_commit_log M s ∧
    ∀ tid' key',
      (st_read M tid' key' (st_write M tid key value s).2).1
        = (st_read M tid' key' s).1.

(** The commit log is only appended to, from any state. *)
Definition log_append_only : Prop :=
  ∀ s ops, st_commit_log M s `prefix_of` st_commit_log M (st_run M ops s).

(** The begin timestamp of a transaction is at most the length of the
    commit log, and no operation changes it. *)
Definition begin_ts_fixed : Prop :=
  ∀ s tid b,
    reachable s → st_begin_ts M tid s = Some b →
    b ≤ length (st_commit_log M s) ∧
    ∀ ops, st_begin_ts M tid (st_run M ops s) = Some b.

(** [load_initial_data] on a data frame whose rows all have a user id: every
    row is committed by a transaction of its own, in order; afterwards each
    key holds the last row loaded under it and the other keys are as
    before. *)
Definition loading : Prop :=
  ∀ s df,
    reachable s →
    Forall (λ data, is_Some (data !! "UserID"%string)) df →
    ∃ s',
      load_initial_data (st_new_transaction M) (st_write M) (st_commit M) df s
        = (Returned (omap (λ data, data !! "UserID"%string) df), s') ∧
      (∀ key, st_committed M key s' =
              match loaded_value df key with
              | Some data => Some data
              | None => st_committed M key s
              end) ∧
      st_commit_log M s' = st_commit_log M s ++ seq (st_next_tid M s) (length df).

(** [submit_problem_transaction] with nothing else running. *)
Definition submit (now : nat → string) :=
  submit_problem_transaction_with (st_new_transaction M) (st_read M)
    (st_write M) (st_commit M) (λ _ s, s) (λ _ s, s) now.

(** A user without a committed record: the bare [return], nothing is
    committed. *)
Definition submission_not_found : Prop :=
  ∀ s now user_id score_increase,
    reachable s → st_committed M (user_key user_id) s = None →
    (submit now user_id score_increase s).1 = Returned None ∧
    (∀ k, st_committed M k (submit now user_id score_increase s).2
          = st_committed M k s) ∧
    st_commit_log M (submit now user_id score_increase s).2 = st_commit_log M s.

(** A user with a committed record and an integer score: the first attempt
    commits, the record gets the increased score and the new date, the
    other keys keep their value, and the log gets one entry. *)
Definition submission_alone : Prop :=
  ∀ s now user_id score_increase data z,
    reachable s →
    st_committed M (user_key user_id) s = Some data →
    data !! "Score"%string = Some (FInt z) →
    (submit now user_id score_increase s).1 = Returned (Some true) ∧
    st_committed M (user_key user_id) (submit now user_id score_increase s).2
      = Some (submitted (now 0) score_increase z data) ∧
    (∀ k, k ≠ user_key user_id →
          st_committed M k (submit now user_id score_increase s).2
          = st_committed M k s) ∧
    st_commit_log M (submit now user_id score_increase s).2
      = st_commit_log M s ++ [st_next_tid M s].

(** A record without a score, or with a string for a score: the submission
    raises, [KeyError] or [TypeError]. *)
Definition submission_bad_score : Prop :=
  ∀ s now user_id score_increase data,
    reachable s →
    st_committed M (user_key user_id) s = Some data →
    (data !! "Score"%string = None →
     (submit now user_id score_increase s).1 = Failed PyKeyError) ∧
    (∀ str, data !! "Score"%string = Some (FStr str) →
            (submit now user_id score_increase s).1 = Failed PyTypeError).

(** The other threads while a submission sleeps: [sleeping i s] is what they
    run from the state [s] reached when attempt [i] goes to sleep after its
    read, [waiting i s] what they run after its failed commit.  They use
    transactions of their own: no operation of theirs names the transaction
    the sleeper has just begun, which is the last one created. *)
Definition foreign (others : nat → St → list op) : Prop :=
  ∀ i s tid o, st_next_tid M s = S tid → o ∈ others i s → ¬ uses tid o.

Definition submit_among (sleeping waiting : nat → St → list op)
    (now : nat → string) :=
  submit_problem_transaction_with (st_new_transaction M) (st_read M)
    (st_write M) (st_commit M)
    (λ i s, st_run M (sleeping i s) s) (λ i s, st_run M (waiting i s) s) now.

(** What attempt [i] of a submission has done when its commit succeeds:
    [s1] is the state in which it went to sleep after its read, [s'] the
    state its commit leaves.  The record it read was the committed one, it
    was still the committed one after the sleep, and the commit replaced it
    by the increased one, touched no other key and added the id of the
    attempt's transaction to the log. *)
Definition attempt_won (sleeping : nat → St → list op) (now : nat → string)
    (user_id score_increase : Z) (i : nat) (s1 s' : St) : Prop :=
  ∃ tid data z,
    reachable s1 ∧ st_next_tid M s1 = S tid ∧
    st_committed M (user_key user_id) s1 = Some data ∧
    data !! "Score"%string = Some (FInt z) ∧
    st_committed M (user_key user_id) (st_run M (sleeping i s1) s1)
      = Some data ∧
    st_committed M (user_key user_id) s'
      = Some (submitted (now i) score_increase z data) ∧
    (∀ k, k ≠ user_key user_id →
          st_committed M k s'
          = st_committed M k (st_run M (sleeping i s1) s1)) ∧
    st_commit_log M s'
      = st_commit_log M (st_run M (sleeping i s1) s1) ++ [tid].

(** No lost update: a submission that returns [True] while other threads
    run during its sleeps has added its increase to the record that was
    committed when its own commit ran. *)
Definition no_lost_update : Prop :=
  ∀ s s' sleeping waiting now user_id score_increase,
    reachable s → foreign sleeping →
    submit_among sleeping waiting now user_id score_increase s
      = (Returned (Some true), s') →
    ∃ i s1,
      i < 3 ∧ attempt_won sleeping now user_id score_increase i s1 s'.

(** What others have not committed does not disturb a submission: when the
    other threads only begin transactions, read and write during the sleep
    of the first attempt, that attempt commits, as if nothing else ran. *)
Definition undisturbed : Prop :=
  ∀ s sleeping waiting now user_id score_increase data z,
    reachable s → foreign sleeping →
    (∀ s1 o, o ∈ sleeping 0 s1 → ¬ commits o) →
    st_committed M (user_key user_id) s = Some data →
    data !! "Score"%string = Some (FInt z) →
    (submit_among sleeping waiting now user_id score_increase s).1
      = Returned (Some true) ∧
    st_committed M (user_key user_id)
      (submit_among sleeping waiting now user_id score_increase s).2
      = Some (submitted (now 0) score_increase z data) ∧
    (∀ k, k ≠ user_key user_id →
          st_committed M k
            (submit_among sleeping waiting now user_id score_increase s).2
          = st_committed M k s) ∧
    st_commit_log M
      (submit_among sleeping waiting now user_id score_increase s).2
      = st_commit_log M s ++ [st_next_tid M s].

(** Submissions for one user made one after the other add up. *)
Definition submissions_add_up : Prop :=
  ∀ s now user_id increases data z,
    reachable s →
    st_committed M (user_key user_id) s = Some data →
    data !! "Score"%string = Some (FInt z) →
    ∃ data',
      st_committed M (user_key user_id)
        (foldl (λ st inc, (submit now user_id inc st).2) s increases)
        = Some data' ∧
      data' !! "Score"%string = Some (FInt (z + foldr Z.add 0%Z increases)).

End Store.
End Story.

(** ** Statements about the multi-version stores *)

Module MvStory.
Import Mv.

(** A successful commit leaves alone every key it does not write: the chain
    and its version objects, [end_ts] included. *)
Definition commit_frame
    (reachable : state → Prop)
    (commit : nat → state → result bool * state) : Prop :=
  ∀ s s' tid t key,
    reachable s → transactions s !! tid = Some t →
    commit tid s = (Ok true, s') →
    (∀ kv, kv ∈ write_set t → kv.1 ≠ key) →
    chain_of (records s') key = chain_of (records s) key ∧
    versions_of s' key = versions_of s key ∧
    committed key s' = committed key s.

(** First committer wins: after a successful commit that writes a key,
    every transaction that had read the key fails validation, the committer
    itself included. *)
Definition first_committer_wins
    (reachable : state → Prop)
    (commit : nat → state → result bool * state)
    (validation : nat → state → result bool) : Prop :=
  ∀ s s' tid t key value tid2 t2 l,
    reachable s → transactions s !! tid = Some t →
    commit tid s = (Ok true, s') →
    (key, value) ∈ write_set t →
    transactions s !! tid2 = Some t2 → (key, l) ∈ read_set t2 →
    validation tid2 s' = Ok false.

(** A transaction reads the last committed value of a key as long as the
    commit log has at most one entry more than when it began: right after
    [new_transaction], and still after the first commit that follows. *)
Definition reads_latest
    (reachable : state → Prop)
    (read : nat → string → state → result (option row) * state) : Prop :=
  ∀ s tid t key,
    reachable s → transactions s !! tid = Some t →
    length (commit_log s) ≤ S (begin_ts t) →
    (read tid key s).1 = Ok (committed key s).

(** Where a version comes from: its [begin_ts] is an index of the commit
    log, and the entry there is its [tid]. *)
Definition provenance (reachable : state → Prop) : Prop :=
  ∀ s l v,
    reachable s → heap s !! l = Some v →
    commit_log s !! ver_begin_ts v = Some (ver_tid v).

(** The validity intervals of a chain are contiguous: the [end_ts] of a
    version is the [begin_ts] of the next. *)
Definition contiguous_intervals (reachable : state → Prop) : Prop :=
  ∀ s key i v v',
    reachable s →
    versions_of s key !! i = Some v → versions_of s key !! S i = Some v' →
    ver_end_ts v = Some (ver_begin_ts v').

(** The first loop of [print_leaderboard] raises [IndexError] exactly when
    some key that starts with [user_] has an empty chain. *)
Definition leaderboard_fails (reachable : state → Prop) : Prop :=
  ∀ s,
    reachable s →
    (leaderboard_values s = Failed PyIndexError ↔
     ∃ key, String.prefix "user_" key = true ∧ records s !! key = Some []) ∧
    (∀ e, leaderboard_values s = Failed e → e = PyIndexError).

(** A submission for a user that has no record leaves an empty chain under
    the user's key, and listing the leaderboard then raises. *)
Definition unknown_user_breaks_leaderboard
    (reachable : state → Prop)
    (submit : Z → Z → state → answer (option bool) * state) : Prop :=
  ∀ s user_id score_increase,
    reachable s → committed (user_key user_id) s = None →
    (submit user_id score_increase s).1 = Returned None ∧
    records (submit user_id score_increase s).2 !! user_key user_id = Some [] ∧
    leaderboard_values (submit user_id score_increase s).2 = Failed PyIndexError.

End MvStory.

(** ** States for the callers *)

Module BoardScenario.
Import Scenario.

(** What [datetime.now().strftime('%Y-%m-%d')] gives all day. *)
Definition stamp (_ : nat) : string := "2024-01-02".

(** [user_1] with a record that has no score, and with one whose score is
    a string. *)
Definition load_no_score : list op :=
  [ NewTransaction; Write 1 user_1 (∅ : row); Commit 1 ].

Definition load_text_score : list op :=
  [ NewTransaction; Write 1 user_1 {[ "Score"%string := FStr "high" ]}; Commit 1 ].

(** A transaction that only read [user_1], on an empty store. *)
Definition lookup_only : list op := [ NewTransaction; Read 1 user_1 ].

(** Another thread that, during the sleep of the first attempt, begins a
    transaction, sets the score of [user_1] to 500 and commits; and threads
    that do nothing. *)
Definition rival {St : Type} (M : store St) (i : nat) (s : St) : list op :=
  match i with
  | 0 => [ NewTransaction; Write (st_next_tid M s) user_1 (score 500);
           Commit (st_next_tid M s) ]
  | _ => []
  end.

Definition nobody {St : Type} (i : nat) (s : St) : list op := [].

(** A thread that, during every sleep, begins a transaction, reads
    [user_1] and buffers a new score for it, without committing. *)
Definition onlooker {St : Type} (M : store St) (i : nat) (s : St) : list op :=
  [ NewTransaction; Read (st_next_tid M s) user_1;
    Write (st_next_tid M s) user_1 (score 500) ].

End BoardScenario.

(** An equation between closed terms, settled by evaluating both sides. *)
Ltac by_evaluation :=
  lazymatch goal with
  | |- @eq ?A ?a ?b => vm_cast_no_check (@eq_refl A b)
  end.

Module MvFacts.
Import Mv MvInv.

Lemma chain_of_insert (recs : chains) k c k' :
  chain_of (<[k := c]> recs) k' = if decide (k = k') then c else chain_of recs k'.
Proof.
  unfold chain_of. rewrite lookup_insert. by case_decide.
Qed.

Lemma chain_of_touch (recs : chains) key k :
  chain_of (touch key recs) k = chain_of recs k.
Proof.
  unfold touch. destruct (recs !! key) eqn:E; [done|].
  rewrite chain_of_insert. case_decide; [|done].
  subst. unfold chain_of. by rewrite E.
Qed.

Lemma chain_of_elem_lookup (recs : chains) k l :
  l ∈ chain_of recs k → ∃ c, recs !! k = Some c ∧ l ∈ c.
Proof.
  unfold chain_of. destruct (recs !! k); simpl; [eauto|].
  intros H. by apply elem_of_nil in H.
Qed.

Lemma touch_present (recs : chains) k l :
  l ∈ chain_of recs k → touch k recs = recs.
Proof.
  intros (c & Hc & _)%chain_of_elem_lookup. unfold touch. by rewrite Hc.
Qed.

Lemma store_inv_touch recs hp n key :
  store_inv recs hp n → store_inv (touch key recs) hp n.
Proof.
  intros [H1 H2 H3 H4 H5 H6].
  split; intros *; rewrite ?chain_of_touch; eauto.
Qed.

Lemma store_inv_mono recs hp n m :
  n ≤ m → store_inv recs hp n → store_inv recs hp m.
Proof.
  intros Hle [H1 H2 H3 H4 H5 H6]. split; eauto.
  - intros * Hi Hlt Hv. destruct (H3 _ _ _ _ Hi Hlt Hv) as (e & ? & ?).
    exists e. split; [done|lia].
  - intros * Hv. specialize (H5 _ _ Hv). lia.
Qed.

(** *** One round of the write loop *)

Lemma apply_write_chain tid ts recs hp kv k :
  chain_of (apply_write tid ts (recs, hp) kv).1 k =
  if decide (kv.1 = k) then chain_of recs k ++ [length hp] else chain_of recs k.
Proof.
  unfold apply_write; simpl. rewrite chain_of_insert.
  case_decide; [|done]. subst.
  destruct (last _); by rewrite ?length_alter.
Qed.

Lemma apply_write_length tid ts recs hp kv :
  length (apply_write tid ts (recs, hp) kv).2 = S (length hp).
Proof.
  unfold apply_write; simpl. rewrite length_app; simpl.
  destruct (last _); rewrite ?length_alter; lia.
Qed.

Lemma apply_write_new tid ts recs hp kv :
  (apply_write tid ts (recs, hp) kv).2 !! length hp =
  Some (Version kv.2 ts None tid).
Proof.
  unfold apply_write; simpl.
  destruct (last _).
  - rewrite lookup_app_r; rewrite length_alter; [|lia].
    by rewrite Nat.sub_diag.
  - rewrite lookup_app_r; [|lia]. by rewrite Nat.sub_diag.
Qed.

Lemma apply_write_old tid ts recs hp kv l v :
  hp !! l = Some v →
  (apply_write tid ts (recs, hp) kv).2 !! l =
  Some (if decide (last (chain_of recs kv.1) = Some l) then close ts v else v).
Proof.
  intros Hv. unfold apply_write; simpl.
  pose proof (lookup_lt_Some _ _ _ Hv) as Hlt.
  destruct (last (chain_of recs kv.1)) as [lh|] eqn:E.
  - rewrite lookup_app_l; [|by rewrite length_alter].
    rewrite list_lookup_alter. case_decide.
    + subst. rewrite Hv. simpl. by rewrite decide_True.
    + rewrite Hv. rewrite decide_False; [done|congruence].
  - rewrite lookup_app_l; [|done]. by rewrite Hv.
Qed.

Lemma apply_write_heap tid ts recs hp kv l v' :
  (apply_write tid ts (recs, hp) kv).2 !! l = Some v' →
  (l = length hp ∧ v' = Version kv.2 ts None tid) ∨
  (∃ v, hp !! l = Some v ∧
        v' = if decide (last (chain_of recs kv.1) = Some l) then close ts v else v).
Proof.
  intros H. pose proof (lookup_lt_Some _ _ _ H) as Hlt.
  rewrite apply_write_length in Hlt.
  destruct (decide (l = length hp)) as [->|Hne].
  - left. rewrite apply_write_new in H. by inversion H.
  - right. destruct (lookup_lt_is_Some_2 hp l) as [v Hv]; [lia|].
    exists v. split; [done|].
    rewrite (apply_write_old _ _ _ _ _ _ _ Hv) in H. by inversion H.
Qed.

Lemma apply_write_fields tid ts recs hp kv l v' :
  (apply_write tid ts (recs, hp) kv).2 !! l = Some v' →
  (l = length hp ∧ v' = Version kv.2 ts None tid) ∨
  (∃ v, hp !! l = Some v ∧ ver_begin_ts v' = ver_begin_ts v ∧
        ver_value v' = ver_value v ∧ ver_tid v' = ver_tid v).
Proof.
  intros [?|(v & Hv & ->)]%apply_write_heap; [by left|right].
  exists v. by case_decide.
Qed.

Lemma snoc_lookup_inv (c : list nat) x i l :
  (c ++ [x]) !! i = Some l →
  (i < length c ∧ c !! i = Some l ∧ l ∈ c) ∨ (i = length c ∧ l = x).
Proof.
  intros [[? ?]|[? ?]]%lookup_snoc_Some; [left|right; by subst].
  repeat split; try done. by eapply list_elem_of_lookup_2.
Qed.

Lemma store_inv_apply_write tid ts recs hp kv :
  store_inv recs hp (S ts) →
  store_inv (apply_write tid ts (recs, hp) kv).1
            (apply_write tid ts (recs, hp) kv).2 (S ts).
Proof.
  intros [H1 H2 H3 H4 H5 H6]. split.
  - intros k l. rewrite apply_write_chain, apply_write_length.
    case_decide.
    + intros [?%H1| ->%list_elem_of_singleton]%elem_of_app; lia.
    + intros ?%H1. lia.
  - intros k k' i i' l. rewrite !apply_write_chain.
    repeat case_decide; subst.
    + intros [(? & ? & Hb)|[-> ->]]%snoc_lookup_inv
             [(? & ? & Hb')|[-> Hl]]%snoc_lookup_inv.
      * eauto.
      * apply H1 in Hb. lia.
      * apply H1 in Hb'. lia.
      * done.
    + intros [(? & ? & Hb)|[-> ->]]%snoc_lookup_inv Hl'; [eauto|].
      apply list_elem_of_lookup_2, H1 in Hl'. lia.
    + intros Hl [(? & ? & Hb)|[-> ->]]%snoc_lookup_inv; [eauto|].
      apply list_elem_of_lookup_2, H1 in Hl. lia.
    + eauto.
  - intros k i l v'. rewrite apply_write_chain.
    intros Hi Hlt Hv'.
    assert (l ∈ chain_of recs k ∧ chain_of recs k !! i = Some l ∧
            (S i < length (chain_of recs k) ∨
             last (chain_of recs kv.1) = Some l)) as (Hin & Hi' & Hpos).
    { destruct (decide (kv.1 = k)) as [<-|Hk].
      - rewrite length_app in Hlt; simpl in Hlt.
        apply snoc_lookup_inv in Hi as [(? & Hi & ?)|[? ?]]; [|lia].
        repeat split; try done.
        destruct (decide (S i = length (chain_of recs kv.1))) as [Heq|];
          [right|left; lia].
        by rewrite last_lookup, <- Heq.
      - repeat split; [by eapply list_elem_of_lookup_2|done|by left]. }
    apply apply_write_heap in Hv' as [[-> _]|(v & Hv & ->)].
    { apply H1 in Hin. lia. }
    destruct (decide (last (chain_of recs kv.1) = Some l)) as [Hlast|Hlast].
    { exists ts. split; [done|lia]. }
    destruct Hpos as [Hpos|Hpos]; [|done].
    by apply (H3 k i l v).
  - intros k l v'. rewrite apply_write_chain.
    destruct (decide (kv.1 = k)) as [<-|Hk].
    + rewrite last_snoc. intros [= <-]. rewrite apply_write_new.
      by intros [= <-].
    + intros Hlast Hv'.
      pose proof (last_Some_elem_of _ _ Hlast) as Hin.
      apply apply_write_heap in Hv' as [[-> _]|(v & Hv & ->)].
      { apply H1 in Hin. lia. }
      destruct (decide (last (chain_of recs kv.1) = Some l)) as [Hl|Hl];
        [|eauto].
      exfalso. apply Hk.
      rewrite last_lookup in Hl, Hlast.
      by destruct (H2 _ _ _ _ _ Hl Hlast).
  - intros l v' [[_ ->]|(v & Hv & Hb & _)]%apply_write_fields; simpl; [lia|].
    rewrite Hb. eauto.
  - intros k i j l l' v v' Hij. rewrite apply_write_chain.
    intros Hi Hj Hv Hv'.
    apply apply_write_fields in Hv' as [[-> ->]|(w' & Hw' & Hb' & _)].
    + simpl. apply apply_write_fields in Hv as [[_ ->]|(w & Hw & Hb & _)];
        simpl; [lia|].
      rewrite Hb. specialize (H5 _ _ Hw). lia.
    + pose proof (lookup_lt_Some _ _ _ Hw') as Hlt'.
      assert (chain_of recs k !! j = Some l') as Hj'.
      { destruct (decide (kv.1 = k)); [|done].
        apply snoc_lookup_inv in Hj as [(? & ? & ?)|[? ?]]; [done|lia]. }
      assert (chain_of recs k !! i = Some l) as Hi'.
      { destruct (decide (kv.1 = k)); [|done].
        pose proof (lookup_lt_Some _ _ _ Hj').
        apply snoc_lookup_inv in Hi as [(? & ? & ?)|[? ?]]; [done|lia]. }
      apply apply_write_fields in Hv as [[-> _]|(w & Hw & Hb & _)].
      { apply list_elem_of_lookup_2, H1 in Hi'. lia. }
      rewrite Hb, Hb'. eauto.
Qed.

Lemma store_inv_apply_writes tid ts ws recs hp :
  store_inv recs hp (S ts) →
  store_inv (apply_writes tid ts ws (recs, hp)).1
            (apply_writes tid ts ws (recs, hp)).2 (S ts).
Proof.
  unfold apply_writes. revert recs hp.
  induction ws as [|kv ws IH]; intros recs hp Hinv; [done|].
  simpl. destruct (apply_write tid ts (recs, hp) kv) as [recs1 hp1] eqn:E.
  apply IH. replace recs1 with (apply_write tid ts (recs, hp) kv).1 by by rewrite E.
  replace hp1 with (apply_write tid ts (recs, hp) kv).2 by by rewrite E.
  by apply store_inv_apply_write.
Qed.

Lemma apply_writes_cons tid ts kv ws st :
  apply_writes tid ts (kv :: ws) st =
  apply_writes tid ts ws (apply_write tid ts st kv).
Proof. done. Qed.

Lemma apply_writes_chain_prefix tid ts ws recs hp k :
  ∃ new, chain_of (apply_writes tid ts ws (recs, hp)).1 k = chain_of recs k ++ new.
Proof.
  revert recs hp. induction ws as [|kv ws IH]; intros recs hp.
  { exists []. by rewrite app_nil_r. }
  rewrite apply_writes_cons.
  destruct (apply_write tid ts (recs, hp) kv) as [recs1 hp1] eqn:E.
  destruct (IH recs1 hp1) as [new ->].
  replace recs1 with (apply_write tid ts (recs, hp) kv).1 by by rewrite E.
  rewrite apply_write_chain. case_decide.
  - eexists. by rewrite <- app_assoc.
  - by eexists.
Qed.

(** *** The validation loop *)

Lemma check_with_false conflict rs (recs : chains) :
  (check_with conflict rs recs).1 = false ↔
  ∃ key l lh, (key, l) ∈ rs ∧ last (chain_of recs key) = Some lh ∧
              conflict lh l = true.
Proof.
  revert recs. induction rs as [|[key l] rs IH]; intros recs; simpl.
  { split; [done|]. intros (? & ? & ? & []%elem_of_nil & _). }
  assert ((check_with conflict rs (touch key recs)).1 = false ↔
          ∃ key0 l0 lh, (key0, l0) ∈ rs ∧
            last (chain_of recs key0) = Some lh ∧ conflict lh l0 = true) as IH'.
  { rewrite IH. by setoid_rewrite chain_of_touch. }
  destruct (last (chain_of recs key)) as [lh|] eqn:E.
  - destruct (conflict lh l) eqn:C; simpl.
    + split; [|done]. intros _. exists key, l, lh.
      split; [left|done].
    + rewrite IH'. split.
      * intros (k0 & l0 & lh0 & ? & ? & ?). exists k0, l0, lh0.
        split; [by right|done].
      * intros (k0 & l0 & lh0 & [[= -> ->]|?]%elem_of_cons & ? & ?).
        -- congruence.
        -- by exists k0, l0, lh0.
  - rewrite IH'. split.
    + intros (k0 & l0 & lh0 & ? & ? & ?). exists k0, l0, lh0.
      split; [by right|done].
    + intros (k0 & l0 & lh0 & [[= -> ->]|?]%elem_of_cons & ? & ?).
      * congruence.
      * by exists k0, l0, lh0.
Qed.

Lemma check_with_frame conflict rs (recs : chains) :
  (∀ key l, (key, l) ∈ rs → l ∈ chain_of recs key) →
  (check_with conflict rs recs).2 = recs.
Proof.
  induction rs as [|[key l] rs IH]; intros Hrs; simpl; [done|].
  assert (touch key recs = recs) as ->.
  { eapply touch_present, Hrs. left. }
  assert ((check_with conflict rs recs).2 = recs) as IH'.
  { apply IH. intros ???. apply Hrs. by right. }
  destruct (last _); [|done]. by destruct (conflict _ _).
Qed.

(** *** The read loop *)

Lemma scan_Some hp ts locs l v :
  scan hp ts locs = Some (l, v) →
  l ∈ locs ∧ hp !! l = Some v ∧ visible ts v = true.
Proof.
  induction locs as [|l0 locs IH]; simpl; [done|].
  destruct (hp !! l0) as [v0|] eqn:E.
  - destruct (visible ts v0) eqn:V.
    + intros [= -> ->]. split; [left|done].
    + intros (? & ? & ?)%IH. split; [by right|done].
  - intros (? & ? & ?)%IH. split; [by right|done].
Qed.

(** *** Every operation keeps the state well formed *)

Lemma inv_init : inv init.
Proof.
  split; [split|..]; simpl; intros *;
    rewrite ?lookup_empty; try done; unfold chain_of;
    rewrite ?lookup_empty; simpl; try done.
  all: by intros ?%elem_of_nil.
Qed.

Lemma inv_new_transaction s : inv s → inv (new_transaction s).2.
Proof.
  intros [Hs Hr Ht]. split; simpl; [done|..].
  - intros tid t key l [[_ <-]|[_ ?]]%lookup_insert_Some; simpl; [|eauto].
    by intros ?%elem_of_nil.
  - intros tid t [[<- _]|[_ ?%Ht]]%lookup_insert_Some; lia.
Qed.

Lemma inv_write tid key value s : inv s → inv (write tid key value s).2.
Proof.
  intros [Hs Hr Ht]. unfold write.
  destruct (transactions s !! tid) as [t|] eqn:E; simpl; [|done].
  split; simpl; [done|..].
  - intros tid' t' key' l [[_ <-]|[_ ?]]%lookup_insert_Some; simpl; eauto.
  - intros tid' t' [[<- _]|[_ ?%Ht]]%lookup_insert_Some; eauto.
Qed.

Lemma inv_read_with record tid key s :
  records_entry record → inv s → inv (read_with record tid key s).2.
Proof.
  intros Hrec [Hs Hr Ht].
  assert (inv (State (touch key (records s)) (heap s) (transactions s)
                     (next_tid s) (commit_log s))) as Hs1.
  { split; simpl; [by apply store_inv_touch| |done].
    intros *. rewrite chain_of_touch. eauto. }
  unfold read_with.
  destruct (chain_of (records s) key) as [|l0 c] eqn:Ec; [done|].
  destruct (transactions s !! tid) as [t|] eqn:E; [|done].
  destruct (scan _ _ _) as [[l v]|] eqn:Es; [|done].
  apply scan_Some in Es as (Hl & _ & _). rewrite elem_of_reverse in Hl.
  destruct (Hrec key l (read_set t)) as [_ Hsub].
  split; simpl; [by apply store_inv_touch|..].
  - intros tid' t' key' l'. rewrite chain_of_touch.
    intros [[_ <-]|[_ ?]]%lookup_insert_Some; simpl; [|eauto].
    intros [?|[= -> ->]]%Hsub; [eauto|]. by rewrite Ec.
  - intros tid' t' [[<- _]|[_ ?%Ht]]%lookup_insert_Some; eauto.
Qed.

Lemma inv_check_frame conflict s tid t :
  inv s → transactions s !! tid = Some t →
  (check_with conflict (read_set t) (records s)).2 = records s.
Proof.
  intros [_ Hr _] E. apply check_with_frame. eauto.
Qed.

Lemma inv_commit_with conflict tid s :
  inv s → inv (commit_with conflict tid s).2.
Proof.
  intros Hinv. pose proof Hinv as [Hs Hr Ht]. unfold commit_with.
  destruct (transactions s !! tid) as [t|] eqn:E; [|done].
  pose proof (inv_check_frame (conflict s) s tid t Hinv E) as Hfr.
  destruct (check_with _ _ _) as [ok recs]. simpl in Hfr. subst recs.
  destruct ok; simpl; [|by destruct s].
  split; simpl.
  - rewrite length_app; simpl. rewrite Nat.add_1_r.
    apply store_inv_apply_writes. eapply store_inv_mono; [|done]. lia.
  - intros tid' t' key l Ht' Hl.
    destruct (apply_writes_chain_prefix tid (length (commit_log s))
                (write_set t) (records s) (heap s) key) as [new ->].
    apply elem_of_app. left. eauto.
  - done.
Qed.

Section Machine.
Variable record : string → nat → list (string * nat) → list (string * nat).
Variable conflict : state → nat → nat → bool.
Hypothesis record_ok : records_entry record.

Lemma inv_step o s : inv s → inv (step_with record conflict o s).
Proof.
  destruct o; simpl.
  - apply inv_new_transaction.
  - by apply inv_read_with.
  - apply inv_write.
  - apply inv_commit_with.
Qed.

Lemma inv_run_from ops s : inv s → inv (run_with record conflict ops s).
Proof.
  revert s. induction ops as [|o ops IH]; intros s Hs; [done|].
  simpl. by apply IH, inv_step.
Qed.

Lemma inv_run ops : inv (run_with record conflict ops init).
Proof. apply inv_run_from, inv_init. Qed.
End Machine.

(** *** The outcome of [commit] *)

Lemma commit_with_false conflict tid s s' :
  inv s → commit_with conflict tid s = (Ok false, s') → s' = s.
Proof.
  intros Hinv. unfold commit_with.
  destruct (transactions s !! tid) as [t|] eqn:E; [|done].
  pose proof (inv_check_frame (conflict s) s tid t Hinv E) as Hfr.
  destruct (check_with _ _ _) as [[] recs]; [done|].
  simpl in Hfr. subst recs. intros [= <-]. by destruct s.
Qed.

Lemma commit_with_true conflict tid s s' :
  commit_with conflict tid s = (Ok true, s') →
  commit_log s' = commit_log s ++ [tid].
Proof.
  unfold commit_with.
  destruct (transactions s !! tid) as [t|] eqn:E; [|done].
  destruct (check_with _ _ _) as [[] recs]; [|done].
  by intros [= <-].
Qed.

(** *** Reading a key that has no chain *)

Lemma read_with_missing record tid key s :
  records s !! key = None →
  read_with record tid key s =
  (Ok None,
   State (<[key := []]> (records s)) (heap s) (transactions s)
         (next_tid s) (commit_log s)).
Proof.
  intros E. unfold read_with, chain_of, touch. by rewrite E.
Qed.

(** *** The outcome of [read], [write] and [commit] by transaction id *)

Lemma read_with_known record tid key s t :
  transactions s !! tid = Some t →
  read_with record tid key s =
  match scan (heap s) (begin_ts t) (reverse (chain_of (records s) key)) with
  | Some (l, v) =>
      (Ok (Some (ver_value v)),
       State (touch key (records s)) (heap s)
             (<[tid := Txn (record key l (read_set t)) (write_set t)
                          (begin_ts t) (<[key := l]> (snapshot t))]>
                (transactions s))
             (next_tid s) (commit_log s))
  | None =>
      (Ok None,
       State (touch key (records s)) (heap s) (transactions s)
             (next_tid s) (commit_log s))
  end.
Proof.
  intros E. unfold read_with. rewrite E.
  by destruct (chain_of (records s) key).
Qed.

Lemma read_with_unknown record tid key s :
  transactions s !! tid = None →
  read_with record tid key s =
  match chain_of (records s) key with
  | [] =>
      (Ok None,
       State (touch key (records s)) (heap s) (transactions s)
             (next_tid s) (commit_log s))
  | _ :: _ => (Raise KeyError, s)
  end.
Proof.
  intros E. unfold read_with. rewrite E.
  destruct (chain_of (records s) key) as [|l c] eqn:Ec; [done|].
  assert (touch key (records s) = records s) as ->.
  { apply (touch_present _ _ l). rewrite Ec. left. }
  by destruct s.
Qed.

Lemma commit_with_known conflict tid s t :
  transactions s !! tid = Some t →
  ∃ b, (commit_with conflict tid s).1 = Ok b ∧
       transactions (commit_with conflict tid s).2 = transactions s.
Proof.
  intros E. unfold commit_with. rewrite E.
  destruct (check_with _ _ _) as [[] recs]; eauto.
Qed.

Lemma commit_with_unknown conflict tid s :
  transactions s !! tid = None →
  commit_with conflict tid s = (Raise KeyError, s).
Proof. intros E. unfold commit_with. by rewrite E. Qed.

Lemma known_step record conflict o s tid :
  is_Some (transactions s !! tid) →
  is_Some (transactions (step_with record conflict o s) !! tid).
Proof.
  intros [t E]. unfold step_with.
  destruct o as [|tid' key|tid' key v|tid']; simpl.
  - rewrite lookup_insert. case_decide; eauto.
  - unfold read_with.
    destruct (chain_of _ _); [by eauto|].
    destruct (transactions s !! tid') as [t'|] eqn:E'; [|by eauto].
    destruct (scan _ _ _) as [[l1 v1]|]; simpl; [|by eauto].
    rewrite lookup_insert. case_decide; eauto.
  - unfold write.
    destruct (transactions s !! tid') as [t'|] eqn:E'; simpl; [|by eauto].
    rewrite lookup_insert. case_decide; eauto.
  - unfold commit_with.
    destruct (transactions s !! tid') as [t'|] eqn:E'; simpl; [|by eauto].
    destruct (check_with _ _ _) as [[] recs]; simpl; eauto.
Qed.

(** *** How many versions the write loop appends *)

Lemma apply_writes_snoc tid ts ws kv st :
  apply_writes tid ts (ws ++ [kv]) st =
  apply_write tid ts (apply_writes tid ts ws st) kv.
Proof. unfold apply_writes. by rewrite foldl_snoc. Qed.

Lemma apply_writes_chain_count tid ts ws recs hp k :
  ∃ new,
    chain_of (apply_writes tid ts ws (recs, hp)).1 k = chain_of recs k ++ new ∧
    length new = length (filter (λ kv, kv.1 = k) ws).
Proof.
  revert recs hp. induction ws as [|kv ws IH]; intros recs hp.
  { exists []. by rewrite app_nil_r. }
  rewrite apply_writes_cons.
  destruct (apply_write tid ts (recs, hp) kv) as [recs1 hp1] eqn:E.
  destruct (IH recs1 hp1) as (new & -> & Hlen).
  replace recs1 with (apply_write tid ts (recs, hp) kv).1 by by rewrite E.
  rewrite apply_write_chain, filter_cons. case_decide.
  - exists (length hp :: new). rewrite <- app_assoc. split; [done|].
    simpl. by rewrite Hlen.
  - by exists new.
Qed.

Lemma apply_writes_last tid ts ws key v recs hp :
  ∃ l,
    last (chain_of (apply_writes tid ts (ws ++ [(key, v)]) (recs, hp)).1 key)
      = Some l ∧
    (apply_writes tid ts (ws ++ [(key, v)]) (recs, hp)).2 !! l
      = Some (Version v ts None tid).
Proof.
  rewrite apply_writes_snoc.
  destruct (apply_writes tid ts ws (recs, hp)) as [recs1 hp1].
  exists (length hp1). rewrite apply_write_chain, apply_write_new. simpl.
  rewrite decide_True by done. by rewrite last_snoc.
Qed.

Lemma check_with_chain conflict rs (recs : chains) k :
  chain_of (check_with conflict rs recs).2 k = chain_of recs k.
Proof.
  revert recs. induction rs as [|[key l] rs IH]; intros recs; simpl; [done|].
  destruct (last _); [destruct (conflict _ _)|]; simpl;
    rewrite ?IH; apply chain_of_touch.
Qed.

Lemma two_writes tid key v1 v2 s t :
  transactions s !! tid = Some t →
  (write tid key v2 (write tid key v1 s).2).2 =
  State (records s) (heap s)
        (<[tid := Txn (read_set t) (write_set t ++ [(key, v1); (key, v2)])
                     (begin_ts t) (snapshot t)]> (transactions s))
        (next_tid s) (commit_log s).
Proof.
  intros E. unfold write. rewrite E. simpl. rewrite lookup_insert_eq. simpl.
  by rewrite insert_insert_eq, <- app_assoc.
Qed.

Lemma commit_with_applied conflict tid s s' t key :
  transactions s !! tid = Some t →
  commit_with conflict tid s = (Ok true, s') →
  (∃ new,
      chain_of (records s') key = chain_of (records s) key ++ new ∧
      length new = length (filter (λ kv, kv.1 = key) (write_set t))) ∧
  (∀ ws v, write_set t = ws ++ [(key, v)] → committed key s' = Some v).
Proof.
  intros E. unfold commit_with. rewrite E.
  pose proof (check_with_chain (conflict s) (read_set t) (records s)) as Hch.
  destruct (check_with _ _ _) as [[] recs]; [|done]. simpl in Hch.
  intros [= <-]. simpl. split.
  - destruct (apply_writes_chain_count tid (length (commit_log s))
                (write_set t) recs (heap s) key) as (new & -> & Hlen).
    exists new. by rewrite Hch.
  - intros ws v ->. unfold committed. simpl.
    destruct (apply_writes_last tid (length (commit_log s)) ws key v
                recs (heap s)) as (l & -> & Hl).
    simpl. by rewrite Hl.
Qed.

(** *** The chain invariant in list form *)

Lemma omap_lookup_Forall2 (hp : list version) (c : list nat) :
  (∀ l, l ∈ c → l < length hp) →
  Forall2 (λ l v, hp !! l = Some v) c (omap (λ l, hp !! l) c).
Proof.
  induction c as [|l c IH]; intros Hb; simpl; [constructor|].
  destruct (lookup_lt_is_Some_2 hp l) as [v Hv]; [apply Hb; left|].
  rewrite Hv. constructor; [done|]. apply IH. intros ??. apply Hb. by right.
Qed.

Lemma versions_of_chain s key :
  inv s →
  Forall2 (λ l v, heap s !! l = Some v)
          (chain_of (records s) key) (versions_of s key).
Proof.
  intros [Hs _ _]. apply omap_lookup_Forall2. intros l. apply (inv_bound _ _ _ Hs).
Qed.

Lemma at_most_one_filtered {A} (P : A → Prop) `{∀ x, Decision (P x)} (l : list A) :
  (∀ i x, l !! i = Some x → S i < length l → ¬ P x) →
  length (filter P l) ≤ 1.
Proof.
  induction l as [|x l IH]; intros Hl; simpl; [lia|].
  destruct l as [|y l].
  { rewrite filter_cons. case_decide; simpl; lia. }
  rewrite filter_cons_False.
  - apply IH. intros i z Hi Hlt. apply (Hl (S i)); [done|simpl in *; lia].
  - apply (Hl 0); [done|simpl; lia].
Qed.

Lemma sorted_by_index {A} (R : relation A) (l : list A) :
  (∀ i j x y, i ≤ j → l !! i = Some x → l !! j = Some y → R x y) →
  StronglySorted R l.
Proof.
  induction l as [|x l IH]; intros Hl; constructor.
  - apply IH. intros i j y z Hij Hi Hj. apply (Hl (S i) (S j)); [lia|done..].
  - apply Forall_lookup. intros j y Hj. apply (Hl 0 (S j)); [lia|done..].
Qed.

Lemma inv_versions s key :
  inv s →
  length (versions_of s key) = length (chain_of (records s) key) ∧
  length (open_versions s key) ≤ 1 ∧
  StronglySorted le (ver_begin_ts <$> versions_of s key).
Proof.
  intros Hinv. pose proof (versions_of_chain s key Hinv) as F.
  pose proof (Forall2_length _ _ _ F) as Hlen.
  destruct Hinv as [Hs _ _]. split; [done|]. split.
  - apply at_most_one_filtered. intros i v Hi Hlt Hopen.
    destruct (Forall2_lookup_r _ _ _ _ _ F Hi) as (l & Hl & Hv).
    rewrite <- Hlen in Hlt.
    destruct (inv_closed _ _ _ Hs key i l v Hl Hlt Hv) as (e & He & _).
    congruence.
  - apply sorted_by_index. intros i j b b' Hij.
    rewrite !list_lookup_fmap.
    destruct (versions_of s key !! i) as [v|] eqn:Hi; [|done].
    destruct (versions_of s key !! j) as [v'|] eqn:Hj; [|done].
    simpl. intros [= <-] [= <-].
    destruct (Forall2_lookup_r _ _ _ _ _ F Hi) as (l & Hl & Hv).
    destruct (Forall2_lookup_r _ _ _ _ _ F Hj) as (l' & Hl' & Hv').
    by eapply (inv_sorted _ _ _ Hs key i j).
Qed.

(** *** An operation only appends to a chain *)

Lemma apply_writes_fields tid ts ws recs hp l v :
  hp !! l = Some v →
  ∃ v', (apply_writes tid ts ws (recs, hp)).2 !! l = Some v' ∧
        ver_value v' = ver_value v ∧ ver_begin_ts v' = ver_begin_ts v ∧
        ver_tid v' = ver_tid v.
Proof.
  revert recs hp v. induction ws as [|kv ws IH]; intros recs hp v Hv.
  { by exists v. }
  rewrite apply_writes_cons.
  pose proof (apply_write_old tid ts recs hp kv l v Hv) as Hold.
  destruct (apply_write tid ts (recs, hp) kv) as [recs1 hp1]. simpl in Hold.
  destruct (IH recs1 hp1 _ Hold) as (v' & Hv' & H1 & H2 & H3).
  exists v'. split; [done|]. rewrite H1, H2, H3. by case_decide.
Qed.

Lemma step_appends record conflict o s key :
  (∃ new, chain_of (records (step_with record conflict o s)) key
          = chain_of (records s) key ++ new) ∧
  (∀ l v, heap s !! l = Some v →
          ∃ v', heap (step_with record conflict o s) !! l = Some v' ∧
                ver_value v' = ver_value v ∧
                ver_begin_ts v' = ver_begin_ts v ∧
                ver_tid v' = ver_tid v).
Proof.
  assert (∀ s' : state,
            chain_of (records s') key = chain_of (records s) key →
            heap s' = heap s →
            (∃ new, chain_of (records s') key = chain_of (records s) key ++ new) ∧
            (∀ l v, heap s !! l = Some v →
                    ∃ v', heap s' !! l = Some v' ∧
                          ver_value v' = ver_value v ∧
                          ver_begin_ts v' = ver_begin_ts v ∧
                          ver_tid v' = ver_tid v)) as Hsame.
  { intros s' -> ->. split; [exists []; by rewrite app_nil_r|]. eauto. }
  unfold step_with. destruct o as [|tid k|tid k v0|tid]; simpl.
  - by apply Hsame.
  - unfold read_with.
    destruct (chain_of (records s) k);
      [apply Hsame; simpl; [apply chain_of_touch|done]|].
    destruct (transactions s !! tid);
      [|apply Hsame; simpl; [apply chain_of_touch|done]].
    destruct (scan _ _ _) as [[l1 v1]|];
      apply Hsame; simpl; try done; apply chain_of_touch.
  - unfold write. destruct (transactions s !! tid); by apply Hsame.
  - unfold commit_with. destruct (transactions s !! tid) as [t|]; [|by apply Hsame].
    pose proof (check_with_chain (conflict s) (read_set t) (records s) key) as Hch.
    destruct (check_with _ _ _) as [[] recs]; [|apply Hsame; [exact Hch|done]].
    simpl in *. split.
    + destruct (apply_writes_chain_prefix tid (length (commit_log s))
                  (write_set t) recs (heap s) key) as [new ->].
      exists new. by rewrite Hch.
    + intros l v Hv. by apply apply_writes_fields.
Qed.

Lemma chain_invariant_with record conflict :
  records_entry record →
  Props.chain_invariant (run_with record conflict) (step_with record conflict).
Proof.
  intros Hrec ops key.
  pose proof (inv_run record conflict Hrec ops) as Hinv.
  destruct (inv_versions _ key Hinv) as (Hlen & Hopen & Hsorted).
  split; [exact Hlen|]. split; [exact Hopen|]. split; [exact Hsorted|].
  intros o. apply step_appends.
Qed.

(** *** When the validation test fires *)

Lemma last_position (c : list nat) i l :
  c !! i = Some l → last c ≠ Some l → S i < length c.
Proof.
  intros Hi Hlast. pose proof (lookup_lt_Some _ _ _ Hi).
  destruct (decide (S i = length c)) as [Heq|]; [|lia].
  exfalso. apply Hlast. by rewrite last_lookup, <- Heq.
Qed.

Lemma inv_entry_versions s tid t key l :
  inv s → transactions s !! tid = Some t → (key, l) ∈ read_set t →
  ∃ lh vh v i,
    last (chain_of (records s) key) = Some lh ∧ heap s !! lh = Some vh ∧
    ver_end_ts vh = None ∧
    chain_of (records s) key !! i = Some l ∧ heap s !! l = Some v ∧
    (last (chain_of (records s) key) ≠ Some l →
     ∃ e, ver_end_ts v = Some e ∧ e < length (commit_log s)).
Proof.
  intros [Hs Hr _] E Hin. pose proof (Hr _ _ _ _ E Hin) as Hl.
  destruct (proj1 (list_elem_of_lookup _ _) Hl) as [i Hi].
  destruct (last (chain_of (records s) key)) as [lh|] eqn:Hlast.
  2: { apply last_None in Hlast. rewrite Hlast in Hi. done. }
  destruct (lookup_lt_is_Some_2 (heap s) lh) as [vh Hvh].
  { apply (inv_bound _ _ _ Hs key). by apply last_Some_elem_of. }
  destruct (lookup_lt_is_Some_2 (heap s) l) as [v Hv].
  { by apply (inv_bound _ _ _ Hs key). }
  exists lh, vh, v, i. repeat split; try done.
  - by eapply (inv_open _ _ _ Hs).
  - intros Hne. eapply (inv_closed _ _ _ Hs key i l v); try done.
    apply (last_position _ i l); [done|]. by rewrite Hlast.
Qed.

Lemma check_with_stale conflict s tid t :
  inv s → transactions s !! tid = Some t →
  (∀ key l lh, (key, l) ∈ read_set t →
               last (chain_of (records s) key) = Some lh →
               conflict lh l = true ↔ Props.stale s key l) →
  (check_with conflict (read_set t) (records s)).1 = false ↔
  ∃ key l, (key, l) ∈ read_set t ∧ Props.stale s key l.
Proof.
  intros Hinv E Hc. rewrite check_with_false. split.
  - intros (key & l & lh & Hin & Hlast & Hcf). exists key, l.
    split; [done|]. by apply (Hc key l lh).
  - intros (key & l & Hin & Hst).
    destruct (inv_entry_versions s tid t key l Hinv E Hin)
      as (lh & _ & _ & _ & Hlast & _).
    exists key, l, lh. split; [done|]. split; [done|]. by apply (Hc key l lh).
Qed.

(** *** What a transaction sees does not change once the log has moved on *)

Lemma scan_agree hp hp' b locs :
  (∀ l, l ∈ locs →
        ∃ v v', hp !! l = Some v ∧ hp' !! l = Some v' ∧
                ver_value v' = ver_value v ∧ visible b v' = visible b v) →
  (λ lv, ver_value lv.2) <$> scan hp' b locs =
  (λ lv : nat * version, ver_value lv.2) <$> scan hp b locs.
Proof.
  induction locs as [|l locs IH]; intros Hl; simpl; [done|].
  destruct (Hl l) as (v & v' & -> & -> & Hval & ->); [left|].
  destruct (visible b v); simpl; [by rewrite Hval|].
  apply IH. intros ??. apply Hl. by right.
Qed.

Lemma visible_close b ts v :
  b < ts → ver_end_ts v = None → visible b (close ts v) = visible b v.
Proof.
  intros Hlt Hopen. unfold visible, close. simpl. rewrite Hopen.
  by rewrite (bool_decide_eq_true_2 (b < ts)).
Qed.

Lemma seen_apply_write tid ts recs hp kv b key :
  store_inv recs hp (S ts) → b < ts →
  (λ lv, ver_value lv.2) <$>
    scan (apply_write tid ts (recs, hp) kv).2 b
         (reverse (chain_of (apply_write tid ts (recs, hp) kv).1 key)) =
  (λ lv : nat * version, ver_value lv.2) <$>
    scan hp b (reverse (chain_of recs key)).
Proof.
  intros Hs Hlt.
  assert ((λ lv, ver_value lv.2) <$>
            scan (apply_write tid ts (recs, hp) kv).2 b (reverse (chain_of recs key)) =
          (λ lv : nat * version, ver_value lv.2) <$>
            scan hp b (reverse (chain_of recs key))) as Hold.
  { apply scan_agree. intros l Hl. rewrite elem_of_reverse in Hl.
    destruct (lookup_lt_is_Some_2 hp l) as [v Hv];
      [by apply (inv_bound _ _ _ Hs key)|].
    exists v. eexists. split; [done|].
    split; [by apply apply_write_old|].
    case_decide as Hlast; [|done]. split; [done|].
    apply visible_close; [done|]. by eapply (inv_open _ _ _ Hs). }
  rewrite apply_write_chain. case_decide; [|done].
  rewrite reverse_snoc. cbn [scan]. rewrite apply_write_new.
  unfold visible at 1. cbn [ver_begin_ts ver_end_ts].
  rewrite (bool_decide_eq_false_2 (ts ≤ b)) by lia. done.
Qed.

Lemma seen_apply_writes tid ts ws recs hp b key :
  store_inv recs hp (S ts) → b < ts →
  (λ lv, ver_value lv.2) <$>
    scan (apply_writes tid ts ws (recs, hp)).2 b
         (reverse (chain_of (apply_writes tid ts ws (recs, hp)).1 key)) =
  (λ lv : nat * version, ver_value lv.2) <$>
    scan hp b (reverse (chain_of recs key)).
Proof.
  revert recs hp. induction ws as [|kv ws IH]; intros recs hp Hs Hlt; [done|].
  rewrite apply_writes_cons.
  pose proof (store_inv_apply_write tid ts recs hp kv Hs) as Hs1.
  pose proof (seen_apply_write tid ts recs hp kv b key Hs Hlt) as H1.
  destruct (apply_write tid ts (recs, hp) kv) as [recs1 hp1]. simpl in *.
  by rewrite IH.
Qed.

Lemma seen_step record conflict o s b key :
  inv s → b < length (commit_log s) →
  seen (step_with record conflict o s) b key = seen s b key.
Proof.
  intros Hinv Hlt.
  assert (∀ s' : state,
            chain_of (records s') key = chain_of (records s) key →
            heap s' = heap s → seen s' b key = seen s b key) as Hsame.
  { intros s' Hc Hh. unfold seen. by rewrite Hc, Hh. }
  unfold step_with. destruct o as [|tid k|tid k v0|tid]; simpl.
  - by apply Hsame.
  - unfold read_with.
    destruct (chain_of (records s) k);
      [apply Hsame; simpl; [apply chain_of_touch|done]|].
    destruct (transactions s !! tid);
      [|apply Hsame; simpl; [apply chain_of_touch|done]].
    destruct (scan _ _ _) as [[l1 v1]|];
      apply Hsame; simpl; try done; apply chain_of_touch.
  - unfold write. destruct (transactions s !! tid); by apply Hsame.
  - unfold commit_with.
    destruct (transactions s !! tid) as [t|] eqn:E; [|by apply Hsame].
    pose proof (inv_check_frame (conflict s) s tid t Hinv E) as Hfr.
    destruct (check_with _ _ _) as [[] recs]; simpl in Hfr; subst recs;
      [|by apply Hsame].
    unfold seen. simpl. apply seen_apply_writes; [|done].
    eapply store_inv_mono; [|apply Hinv]. lia.
Qed.

Lemma log_step record conflict o s :
  length (commit_log s) ≤ length (commit_log (step_with record conflict o s)).
Proof.
  unfold step_with. destruct o as [|tid k|tid k v0|tid]; simpl; [done|..].
  - unfold read_with. destruct (chain_of _ _); [done|].
    destruct (transactions s !! tid); [|done]. by destruct (scan _ _ _) as [[]|].
  - unfold write. by destruct (transactions s !! tid).
  - unfold commit_with. destruct (transactions s !! tid); [|done].
    destruct (check_with _ _ _) as [[] recs]; simpl; [|done].
    rewrite length_app. lia.
Qed.

Lemma begin_step record conflict o s tid t :
  inv s → transactions s !! tid = Some t →
  ∃ t', transactions (step_with record conflict o s) !! tid = Some t' ∧
        begin_ts t' = begin_ts t.
Proof.
  intros Hinv E. unfold step_with.
  destruct o as [|tid' k|tid' k v0|tid']; simpl.
  - rewrite lookup_insert_ne; [by eauto|].
    pose proof (inv_tids _ Hinv _ _ E). lia.
  - unfold read_with. destruct (chain_of _ _); [by eauto|].
    destruct (transactions s !! tid') as [t'|] eqn:E'; [|by eauto].
    destruct (scan _ _ _) as [[l1 v1]|]; simpl; [|by eauto].
    destruct (decide (tid' = tid)) as [->|].
    + rewrite lookup_insert_eq. eexists. split; [done|]. simpl. congruence.
    + rewrite lookup_insert_ne; eauto.
  - unfold write. destruct (transactions s !! tid') as [t'|] eqn:E'; simpl;
      [|by eauto].
    destruct (decide (tid' = tid)) as [->|].
    + rewrite lookup_insert_eq. eexists. split; [done|]. simpl. congruence.
    + rewrite lookup_insert_ne; eauto.
  - unfold commit_with. destruct (transactions s !! tid'); [|by eauto].
    destruct (check_with _ _ _) as [[] recs]; simpl; eauto.
Qed.

Lemma read_with_result record tid key s t :
  transactions s !! tid = Some t →
  (read_with record tid key s).1 = Ok (seen s (begin_ts t) key).
Proof.
  intros E. rewrite (read_with_known _ _ _ _ _ E). unfold seen.
  by destruct (scan _ _ _) as [[l v]|].
Qed.

Lemma read_repeats record conflict ops s tid t key :
  records_entry record →
  inv s → transactions s !! tid = Some t →
  begin_ts t < length (commit_log s) →
  (read_with record tid key (run_with record conflict ops s)).1 =
  (read_with record tid key s).1.
Proof.
  intros Hrec. revert s t.
  induction ops as [|o ops IH]; intros s t Hinv E Hlt; [done|].
  simpl.
  destruct (begin_step record conflict o s tid t Hinv E) as (t' & E' & Hb).
  pose proof (log_step record conflict o s) as Hlog.
  rewrite (IH _ t'); [|by apply inv_step|done|lia].
  rewrite (read_with_result _ _ _ _ _ E'), (read_with_result _ _ _ _ _ E), Hb.
  f_equal. by apply seen_step.
Qed.

End MvFacts.

(** ** The flat store *)

Module OccFacts.
Import Occ.

Lemma apply_writes_union (ws recs : gmap string row) :
  apply_writes ws recs = ws ∪ recs.
Proof.
  unfold apply_writes.
  apply (map_fold_weak_ind (λ r m, r = m ∪ recs)).
  - by rewrite (left_id_L ∅ (∪)).
  - intros k v m r _ ->. by rewrite insert_union_l.
Qed.

Lemma modified_false recs key version :
  modified recs key version = false ↔ recs !! key = Some version.
Proof.
  unfold modified. destruct (recs !! key) as [cur|]; [|done].
  rewrite negb_false_iff, bool_decide_eq_true. naive_solver.
Qed.

Lemma validate_true s tid t :
  transactions s !! tid = Some t →
  validate tid s = Ok true ↔
  ∀ key v, read_set t !! key = Some v → records s !! key = Some v.
Proof.
  intros E. unfold validate. rewrite E. split.
  - intros [= H] key v Hkv.
    rewrite forallb_forall in H.
    apply elem_of_map_to_list, list_elem_of_In, H in Hkv. simpl in Hkv.
    by apply negb_true_iff, modified_false in Hkv.
  - intros H. f_equal. apply forallb_forall.
    intros [key v] Hkv%list_elem_of_In%elem_of_map_to_list. simpl.
    by apply negb_true_iff, modified_false, H.
Qed.

Lemma validate_known s tid t :
  transactions s !! tid = Some t → ∃ b, validate tid s = Ok b.
Proof. intros E. unfold validate. rewrite E. eauto. Qed.

Lemma validate_false s tid t :
  transactions s !! tid = Some t →
  validate tid s = Ok false ↔
  ∃ key v, read_set t !! key = Some v ∧ records s !! key ≠ Some v.
Proof.
  intros E. destruct (validate_known s tid t E) as [b Hb].
  pose proof (validate_true s tid t E) as Ht. rewrite Hb in *.
  destruct b.
  - split; [done|]. intros (key & v & Hk & Hne).
    destruct Ht as [Ht _]. by specialize (Ht eq_refl key v Hk).
  - split; [intros _|done].
    apply dec_stable. intros Hno.
    assert (Ok false = Ok true) as Habs; [|discriminate Habs].
    apply Ht. intros key v Hk.
    destruct (decide (records s !! key = Some v)); [done|].
    exfalso. apply Hno. by exists key, v.
Qed.

Lemma commit_true tid s s' :
  commit tid s = (Ok true, s') →
  ∃ t, transactions s !! tid = Some t ∧ validate tid s = Ok true ∧
       s' = State (write_set t ∪ records s) (transactions s) (next_tid s)
                  (commit_log s ++ [tid]).
Proof.
  unfold commit. destruct (validate tid s) as [[]|] eqn:V; try done.
  destruct (transactions s !! tid) as [t|] eqn:E; [|done].
  intros [= <-]. exists t. by rewrite apply_writes_union.
Qed.

Lemma commit_false tid s s' :
  commit tid s = (Ok false, s') → s' = s ∧ validate tid s = Ok false.
Proof.
  unfold commit. destruct (validate tid s) as [[]|] eqn:V; try done.
  - by destruct (transactions s !! tid).
  - by intros [= <-].
Qed.

Lemma occ_known_step o s tid :
  is_Some (transactions s !! tid) → is_Some (transactions (step o s) !! tid).
Proof.
  intros [t E]. unfold step, perform.
  destruct o as [|tid' key|tid' key v|tid']; simpl.
  - rewrite lookup_insert. case_decide; eauto.
  - unfold read. destruct (records s !! key); [|by eauto].
    destruct (transactions s !! tid') as [t'|] eqn:E'; simpl; [|by eauto].
    rewrite lookup_insert. case_decide; eauto.
  - unfold write.
    destruct (transactions s !! tid') as [t'|] eqn:E'; simpl; [|by eauto].
    rewrite lookup_insert. case_decide; eauto.
  - unfold commit. destruct (validate tid' s) as [[]|]; simpl; eauto.
    destruct (transactions s !! tid'); simpl; eauto.
Qed.

Lemma occ_two_writes tid key v1 v2 s t :
  transactions s !! tid = Some t →
  (write tid key v2 (write tid key v1 s).2).2 =
  State (records s)
        (<[tid := Txn (read_set t) (<[key := v2]> (write_set t)) (begin_ts t)]>
           (transactions s))
        (next_tid s) (commit_log s).
Proof.
  intros E. unfold write. rewrite E. simpl. rewrite lookup_insert_eq. simpl.
  by rewrite !insert_insert_eq.
Qed.

End OccFacts.

(** ** The two multi-version classes are instances of the shared machine *)

Module MvoccFacts.
Import Mv MvInv MvFacts Mvocc.

Lemma mvocc_record_ok : records_entry record.
Proof.
  intros key l rs. unfold record. split.
  - apply elem_of_app. right. left.
  - intros e [?|?%list_elem_of_singleton]%elem_of_app; auto.
Qed.

Lemma mvocc_commit_eq tid s : commit tid s = commit_with conflict tid s.
Proof.
  unfold commit, validate, commit_with.
  destruct (transactions s !! tid) as [t|] eqn:E; [|done].
  destruct (check_with _ _ _) as [[] recs]; simpl; [|done].
  by rewrite E.
Qed.

Lemma mvocc_step_eq o s : step o s = step_with record conflict o s.
Proof.
  destruct o; try done. unfold step, step_with; simpl.
  by rewrite mvocc_commit_eq.
Qed.

Lemma mvocc_run_eq ops s : run ops s = run_with record conflict ops s.
Proof.
  revert s. induction ops as [|o ops IH]; intros s; [done|].
  simpl. by rewrite mvocc_step_eq, IH.
Qed.

Lemma mvocc_reachable_inv s : reachable s → inv s.
Proof.
  intros [ops ->]. rewrite mvocc_run_eq. apply inv_run, mvocc_record_ok.
Qed.

Lemma mvocc_conflict_stale s tid t key l lh :
  inv s → transactions s !! tid = Some t → (key, l) ∈ read_set t →
  last (chain_of (records s) key) = Some lh →
  conflict s lh l = true ↔ Props.stale s key l.
Proof.
  intros Hinv E Hin Hlast.
  destruct (inv_entry_versions s tid t key l Hinv E Hin)
    as (lh' & vh & v & i & Hlast' & Hvh & Hopen & Hi & Hv & Hclosed).
  assert (lh' = lh) as -> by congruence.
  unfold conflict, Props.stale. rewrite Hvh, Hv, orb_true_iff. split.
  - intros [Hlt%bool_decide_eq_true|Hend].
    + left. rewrite Hlast. intros [= ->]. assert (vh = v) by congruence.
      subst. lia.
    + right. destruct (ver_end_ts v) as [e|] eqn:He; [|done].
      apply bool_decide_eq_true in Hend. by exists v, e.
  - intros [Hne|(v' & e & Hv' & He & Hle)]; right.
    + destruct (Hclosed Hne) as (e & -> & Hlt).
      apply bool_decide_eq_true. lia.
    + assert (v' = v) as -> by congruence. rewrite He.
      by apply bool_decide_eq_true.
Qed.

Lemma mvocc_validate_rule s tid t :
  inv s → transactions s !! tid = Some t →
  ∃ b, (validate tid s).1 = Ok b ∧
       (b = false ↔ ∃ key l, (key, l) ∈ read_set t ∧ Props.stale s key l).
Proof.
  intros Hinv E. unfold validate. rewrite E.
  pose proof (check_with_stale (conflict s) s tid t Hinv E) as Hc.
  destruct (check_with _ _ _) as [ok recs]. simpl in *.
  exists ok. split; [done|]. apply Hc.
  intros key l lh Hin Hlast. by eapply mvocc_conflict_stale.
Qed.

Lemma mvocc_commit_rule s tid t :
  inv s → transactions s !! tid = Some t →
  ∃ b, (commit tid s).1 = Ok b ∧
       (b = false ↔ ∃ key l, (key, l) ∈ read_set t ∧ Props.stale s key l).
Proof.
  intros Hinv E. rewrite mvocc_commit_eq. unfold commit_with. rewrite E.
  pose proof (check_with_stale (conflict s) s tid t Hinv E) as Hc.
  destruct (check_with _ _ _) as [ok recs]. simpl in *.
  exists ok. split; [by destruct ok|]. apply Hc.
  intros key l lh Hin Hlast. by eapply mvocc_conflict_stale.
Qed.

End MvoccFacts.

Module MvccFacts.
Import Mv MvInv MvFacts Mvcc.

Lemma mvcc_record_ok : records_entry record.
Proof.
  intros key l rs. induction rs as [|[k l0] rs [IH1 IH2]]; simpl.
  - split; [left|]. intros e ?%list_elem_of_singleton. by right.
  - case_decide; subst.
    + split; [left|]. intros e [->|?]%elem_of_cons; [by right|].
      left. by right.
    + split; [by right|]. intros e [->|[?|?]%IH2]%elem_of_cons.
      * left. left.
      * left. by right.
      * by right.
Qed.

Lemma mvcc_commit_eq tid s : commit tid s = commit_with conflict tid s.
Proof. done. Qed.

Lemma mvcc_step_eq o s : step o s = step_with record conflict o s.
Proof. by destruct o. Qed.

Lemma mvcc_run_eq ops s : run ops s = run_with record conflict ops s.
Proof.
  revert s. induction ops as [|o ops IH]; intros s; [done|].
  simpl. by rewrite mvcc_step_eq, IH.
Qed.

Lemma mvcc_reachable_inv s : reachable s → inv s.
Proof.
  intros [ops ->]. rewrite mvcc_run_eq. apply inv_run, mvcc_record_ok.
Qed.

Lemma mvcc_conflict_stale s tid t key l lh :
  inv s → transactions s !! tid = Some t → (key, l) ∈ read_set t →
  last (chain_of (records s) key) = Some lh →
  conflict s lh l = true ↔ Props.stale s key l.
Proof.
  intros Hinv E Hin Hlast.
  destruct (inv_entry_versions s tid t key l Hinv E Hin)
    as (lh' & vh & v & i & Hlast' & Hvh & Hopen & Hi & Hv & Hclosed).
  assert (lh' = lh) as -> by congruence.
  unfold conflict, Props.stale.
  rewrite Hvh, Hv, negb_true_iff, bool_decide_eq_false. split.
  - intros Hne. left. rewrite Hlast. intros [= ->]. congruence.
  - intros [Hne|(v' & e & Hv' & He & Hle)].
    + destruct (Hclosed Hne) as (e & He & _). congruence.
    + assert (v' = v) as -> by congruence. congruence.
Qed.

Lemma mvcc_commit_rule s tid t :
  inv s → transactions s !! tid = Some t →
  ∃ b, (commit tid s).1 = Ok b ∧
       (b = false ↔ ∃ key l, (key, l) ∈ read_set t ∧ Props.stale s key l).
Proof.
  intros Hinv E. rewrite mvcc_commit_eq. unfold commit_with. rewrite E.
  pose proof (check_with_stale (conflict s) s tid t Hinv E) as Hc.
  destruct (check_with _ _ _) as [ok recs]. simpl in *.
  exists ok. split; [by destruct ok|]. apply Hc.
  intros key l lh Hin Hlast. by eapply mvcc_conflict_stale.
Qed.

End MvccFacts.

(** ** Properties of the three classes *)

Import Scenario.

(** C1 (commit is all or nothing).  In each of the three classes a [commit]
    that returns false leaves the whole state as it was, so neither the
    stored values or version chains nor the commit log change; a [commit]
    that returns true appends the transaction id to the commit log, whose
    length grows by exactly one.  For the multi-version classes the state is
    any state the class can reach from [__init__]. *)
Theorem commit_all_or_nothing :
  (∀ tid s s',
      Occ.commit tid s = (Ok false, s') → s' = s) ∧
  (∀ tid s s',
      Occ.commit tid s = (Ok true, s') →
      Occ.commit_log s' = Occ.commit_log s ++ [tid] ∧
      length (Occ.commit_log s') = S (length (Occ.commit_log s))) ∧
  (∀ tid s s',
      Mvocc.reachable s → Mvocc.commit tid s = (Ok false, s') → s' = s) ∧
  (∀ tid s s',
      Mvocc.reachable s → Mvocc.commit tid s = (Ok true, s') →
      Mv.commit_log s' = Mv.commit_log s ++ [tid] ∧
      length (Mv.commit_log s') = S (length (Mv.commit_log s))) ∧
  (∀ tid s s',
      Mvcc.reachable s → Mvcc.commit tid s = (Ok false, s') → s' = s) ∧
  (∀ tid s s',
      Mvcc.reachable s → Mvcc.commit tid s = (Ok true, s') →
      Mv.commit_log s' = Mv.commit_log s ++ [tid] ∧
      length (Mv.commit_log s') = S (length (Mv.commit_log s))).
Proof.
  assert (∀ conflict tid s s',
            Mv.commit_with conflict tid s = (Ok true, s') →
            Mv.commit_log s' = Mv.commit_log s ++ [tid] ∧
            length (Mv.commit_log s') = S (length (Mv.commit_log s))) as Happend.
  { intros conflict tid s s' ->%MvFacts.commit_with_true.
    split; [done|]. rewrite length_app. simpl. lia. }
  split; [|split; [|split; [|split; [|split]]]].
  - by intros tid s s' [-> _]%OccFacts.commit_false.
  - intros tid s s' (t & _ & _ & ->)%OccFacts.commit_true. simpl.
    split; [done|]. rewrite length_app. simpl. lia.
  - intros tid s s' Hr%MvoccFacts.mvocc_reachable_inv.
    rewrite MvoccFacts.mvocc_commit_eq. by apply MvFacts.commit_with_false.
  - intros tid s s' _. rewrite MvoccFacts.mvocc_commit_eq. apply Happend.
  - intros tid s s' Hr%MvccFacts.mvcc_reachable_inv.
    rewrite MvccFacts.mvcc_commit_eq. by apply MvFacts.commit_with_false.
  - intros tid s s' _. rewrite MvccFacts.mvcc_commit_eq. apply Happend.
Qed.

Lemma commit_all_or_nothing_witness :
  (Occ.commit 2 (Occ.run overtaken Occ.init)).2 = Occ.run overtaken Occ.init ∧
  length (Occ.commit_log (Occ.commit 3 (Occ.run contended Occ.init)).2) = 2 ∧
  (Mvocc.commit 2 (Mvocc.run overtaken Mv.init)).2 = Mvocc.run overtaken Mv.init ∧
  length (Mv.commit_log (Mvocc.commit 3 (Mvocc.run contended Mv.init)).2) = 2 ∧
  (Mvcc.commit 2 (Mvcc.run overtaken Mv.init)).2 = Mvcc.run overtaken Mv.init ∧
  length (Mv.commit_log (Mvcc.commit 3 (Mvcc.run contended Mv.init)).2) = 2.
Proof.
  destruct commit_all_or_nothing as (F1 & T1 & F2 & T2 & F3 & T3).
  split; [|split; [|split; [|split; [|split]]]].
  - apply (F1 2). by_evaluation.
  - refine (proj2 (T1 3 (Occ.run contended Occ.init) _ _)).
    by_evaluation.
  - apply (F2 2); [by exists overtaken|]. by_evaluation.
  - refine (proj2 (T2 3 (Mvocc.run contended Mv.init) _ _ _));
      [by exists contended|]. by_evaluation.
  - apply (F3 2); [by exists overtaken|]. by_evaluation.
  - refine (proj2 (T3 3 (Mvcc.run contended Mv.init) _ _ _));
      [by exists contended|]. by_evaluation.
Defined.

Lemma score_inj a b : score a = score b → a = b.
Proof.
  intros H. assert (score a !! "Score"%string = score b !! "Score"%string) as E
    by by rewrite H.
  unfold score in E. rewrite !lookup_singleton_eq in E. congruence.
Qed.

(** C9 (the leaderboard scenario).  With [user_1] at [{Score: 100}] and an
    empty commit log, the interleaving goes as described in each of the
    three classes: both transactions read 100, the second commits and the
    log gets its first entry, the commit of the first returns false, the
    retry reads 120 and commits 170.  The committed value ends at 170, and
    150 is never stored: not as the stored value of the flat store after any
    step, not as a version of the chain of a multi-version store. *)
Theorem leaderboard_scenario :
  ((Occ.trace interleaving occ0).*1 = expected ∧
   (length ∘ Occ.commit_log) <$> (Occ.trace interleaving occ0).*2 =
     [0; 0; 0; 0; 0; 1; 1; 1; 1; 1; 1; 2] ∧
   Occ.committed user_1 (Occ.run interleaving occ0) = Some (score 170) ∧
   Forall (λ s, Occ.committed user_1 s ≠ Some (score 150))
          (occ0 :: (Occ.trace interleaving occ0).*2)) ∧
  ((Mvocc.trace interleaving mv0).*1 = expected ∧
   (length ∘ Mv.commit_log) <$> (Mvocc.trace interleaving mv0).*2 =
     [0; 0; 0; 0; 0; 1; 1; 1; 1; 1; 1; 2] ∧
   Mv.committed user_1 (Mvocc.run interleaving mv0) = Some (score 170) ∧
   Forall (λ s, score 150 ∉ Mv.history user_1 s)
          (mv0 :: (Mvocc.trace interleaving mv0).*2)) ∧
  ((Mvcc.trace interleaving mv0).*1 = expected ∧
   (length ∘ Mv.commit_log) <$> (Mvcc.trace interleaving mv0).*2 =
     [0; 0; 0; 0; 0; 1; 1; 1; 1; 1; 1; 2] ∧
   Mv.committed user_1 (Mvcc.run interleaving mv0) = Some (score 170) ∧
   Forall (λ s, score 150 ∉ Mv.history user_1 s)
          (mv0 :: (Mvcc.trace interleaving mv0).*2)).
Proof.
  assert (score 150 ≠ score 100 ∧ score 150 ≠ score 120 ∧
          score 150 ≠ score 170) as (N1 & N2 & N3).
  { repeat split; intros [=]%score_inj. }
  assert (∀ h, Forall (λ r, score 150 ≠ r) h → score 150 ∉ h) as Hnotin.
  { intros h. rewrite Forall_forall. naive_solver. }
  split; [|split]; (split; [|split; [|split]]);
    try by_evaluation.
  - apply (Forall_fmap (Occ.committed user_1) (λ o, o ≠ Some (score 150))).
    replace (Occ.committed user_1 <$> occ0 :: (Occ.trace interleaving occ0).*2)
      with ([Some (score 100); Some (score 100); Some (score 100);
             Some (score 100); Some (score 100); Some (score 100);
             Some (score 120); Some (score 120); Some (score 120);
             Some (score 120); Some (score 120); Some (score 120);
             Some (score 170)])
      by by_evaluation.
    repeat (constructor; [congruence|]). constructor.
  - apply (Forall_fmap (Mv.history user_1) (λ h, score 150 ∉ h)).
    replace (Mv.history user_1 <$> mv0 :: (Mvocc.trace interleaving mv0).*2)
      with ([[score 100]; [score 100]; [score 100]; [score 100]; [score 100];
             [score 100]; [score 100; score 120]; [score 100; score 120];
             [score 100; score 120]; [score 100; score 120];
             [score 100; score 120]; [score 100; score 120];
             [score 100; score 120; score 170]])
      by by_evaluation.
    repeat (constructor;
            [apply Hnotin; repeat (constructor; [done|]); constructor|]).
    constructor.
  - apply (Forall_fmap (Mv.history user_1) (λ h, score 150 ∉ h)).
    replace (Mv.history user_1 <$> mv0 :: (Mvcc.trace interleaving mv0).*2)
      with ([[score 100]; [score 100]; [score 100]; [score 100]; [score 100];
             [score 100]; [score 100; score 120]; [score 100; score 120];
             [score 100; score 120]; [score 100; score 120];
             [score 100; score 120]; [score 100; score 120];
             [score 100; score 120; score 170]])
      by by_evaluation.
    repeat (constructor;
            [apply Hnotin; repeat (constructor; [done|]); constructor|]).
    constructor.
Qed.

(** The scenario goes the same way when [user_1] is loaded through the
    interface; the commit log then has one entry more at each point. *)
Lemma leaderboard_scenario_loaded :
  ((Occ.trace interleaving_loaded Occ.init).*1 = expected_loaded ∧
   Occ.committed user_1 (Occ.run interleaving_loaded Occ.init) = Some (score 170) ∧
   length (Occ.commit_log (Occ.run interleaving_loaded Occ.init)) = 3) ∧
  ((Mvocc.trace interleaving_loaded Mv.init).*1 = expected_loaded ∧
   Mv.history user_1 (Mvocc.run interleaving_loaded Mv.init)
     = [score 100; score 120; score 170] ∧
   length (Mv.commit_log (Mvocc.run interleaving_loaded Mv.init)) = 3) ∧
  ((Mvcc.trace interleaving_loaded Mv.init).*1 = expected_loaded ∧
   Mv.history user_1 (Mvcc.run interleaving_loaded Mv.init)
     = [score 100; score 120; score 170] ∧
   length (Mv.commit_log (Mvcc.run interleaving_loaded Mv.init)) = 3).
Proof.
  split; [|split]; (split; [|split]); by_evaluation.
Qed.

(** C10 (reading an unwritten key creates its chain).  In both multi-version
    classes, [read] of a key that [self.records] does not hold returns
    absent, whatever the transaction id, and leaves the state as it was but
    for an empty chain inserted under the key: the key set of the store
    grows by that key. *)
Theorem read_of_unwritten_key_creates_chain :
  (∀ tid key s,
      Mv.records s !! key = None →
      Mvocc.read tid key s =
        (Ok None,
         Mv.State (<[key := []]> (Mv.records s)) (Mv.heap s)
                  (Mv.transactions s) (Mv.next_tid s) (Mv.commit_log s)) ∧
      (key ∉ dom (Mv.records s)) ∧
      dom (Mv.records (Mvocc.read tid key s).2) = {[key]} ∪ dom (Mv.records s)) ∧
  (∀ tid key s,
      Mv.records s !! key = None →
      Mvcc.read tid key s =
        (Ok None,
         Mv.State (<[key := []]> (Mv.records s)) (Mv.heap s)
                  (Mv.transactions s) (Mv.next_tid s) (Mv.commit_log s)) ∧
      (key ∉ dom (Mv.records s)) ∧
      dom (Mv.records (Mvcc.read tid key s).2) = {[key]} ∪ dom (Mv.records s)).
Proof.
  split; intros tid key s E.
  - unfold Mvocc.read. rewrite (MvFacts.read_with_missing _ _ _ _ E). simpl.
    split; [done|]. split; [by apply not_elem_of_dom|apply dom_insert_L].
  - unfold Mvcc.read. rewrite (MvFacts.read_with_missing _ _ _ _ E). simpl.
    split; [done|]. split; [by apply not_elem_of_dom|apply dom_insert_L].
Qed.

Lemma read_of_unwritten_key_creates_chain_witness :
  Mv.records (Mvocc.read 1 user_1 (Mvocc.run [NewTransaction] Mv.init)).2
    !! user_1 = Some [] ∧
  Mv.records (Mvcc.read 7 user_1 Mv.init).2 !! user_1 = Some [].
Proof.
  destruct read_of_unwritten_key_creates_chain as [H1 H2]. split.
  - destruct (H1 1 user_1 (Mvocc.run [NewTransaction] Mv.init)) as (-> & _ & _);
      [reflexivity|]. simpl. apply lookup_insert_eq.
  - destruct (H2 7 user_1 Mv.init) as (-> & _ & _); [reflexivity|].
    simpl. apply lookup_insert_eq.
Defined.

(** C7 (what [read] records), amended.  For a known transaction id, when
    [read] returns a value the key is in the read set of the transaction
    with exactly the version (the value, in the flat store) that was
    observed, and the write set plays no part in it.  When [read] returns
    absent, nothing is recorded: the flat store leaves the state as it is,
    the multi-version stores leave every transaction as it is. *)
Theorem read_records_what_it_returns :
  Props.occ_read_recorded ∧
  Props.mv_read_recorded Mvocc.read ∧
  Props.mv_read_recorded Mvcc.read.
Proof.
  assert (∀ record, MvInv.records_entry record →
                    Props.mv_read_recorded (Mv.read_with record)) as Hmv.
  { intros record Hrec s tid t key E.
    rewrite (MvFacts.read_with_known _ _ _ _ _ E).
    destruct (Mv.scan _ _ _) as [[l ver]|] eqn:Es; simpl.
    - split; [|done]. intros v [= <-].
      apply MvFacts.scan_Some in Es as (Hl & Hver & Hvis).
      rewrite elem_of_reverse in Hl.
      exists l, ver. eexists. rewrite lookup_insert_eq.
      repeat split; try done. simpl. apply Hrec.
    - split; [done|]. done. }
  split; [|split].
  - intros s tid t key E. unfold Occ.read. rewrite E.
    destruct (Occ.records s !! key) as [v0|] eqn:Ek; simpl.
    + split; [|done]. intros v [= <-]. split; [done|].
      eexists. rewrite lookup_insert_eq. split; [done|]. simpl.
      by rewrite lookup_insert_eq.
    + by split.
  - apply Hmv, MvoccFacts.mvocc_record_ok.
  - apply Hmv, MvccFacts.mvcc_record_ok.
Qed.

Lemma read_records_what_it_returns_witness :
  (∃ t', Occ.transactions
           (Occ.read 2 user_1 (Occ.run (load ++ [NewTransaction]) Occ.init)).2
           !! 2 = Some t' ∧
         Occ.read_set t' !! user_1 = Some (score 100)) ∧
  (∃ l t', Mv.transactions
           (Mvocc.read 2 user_1 (Mvocc.run (load ++ [NewTransaction]) Mv.init)).2
           !! 2 = Some t' ∧
         (user_1, l) ∈ Mv.read_set t') ∧
  (∃ l t', Mv.transactions
           (Mvcc.read 2 user_1 (Mvcc.run (load ++ [NewTransaction]) Mv.init)).2
           !! 2 = Some t' ∧
         (user_1, l) ∈ Mv.read_set t').
Proof.
  destruct read_records_what_it_returns as (H1 & H2 & H3).
  split; [|split].
  - destruct (H1 (Occ.run (load ++ [NewTransaction]) Occ.init) 2
                 (Occ.Txn ∅ ∅ 1) user_1) as [Hv _];
      [by_evaluation|].
    destruct (Hv (score 100)) as (_ & t' & Ht' & Hk & _);
      [by_evaluation|].
    exists t'. exact (conj Ht' Hk).
  - destruct (H2 (Mvocc.run (load ++ [NewTransaction]) Mv.init) 2
                 (Mv.Txn [] [] 1 ∅) user_1) as [Hv _];
      [by_evaluation|].
    destruct (Hv (score 100)) as (l & ver & t' & _ & _ & _ & _ & Ht' & Hk & _);
      [by_evaluation|].
    exists l, t'. exact (conj Ht' Hk).
  - destruct (H3 (Mvcc.run (load ++ [NewTransaction]) Mv.init) 2
                 (Mv.Txn [] [] 1 ∅) user_1) as [Hv _];
      [by_evaluation|].
    destruct (Hv (score 100)) as (l & ver & t' & _ & _ & _ & _ & Ht' & Hk & _);
      [by_evaluation|].
    exists l, t'. exact (conj Ht' Hk).
Defined.

(** C7 as stated fails: a transaction reads a key that is not stored, gets
    absent, and its read set stays empty in each of the three classes. *)
Lemma read_of_absent_key_not_recorded :
  (Occ.read 1 user_1 (Occ.run [NewTransaction] Occ.init)).1 = Ok None ∧
  Occ.read_set <$>
    Occ.transactions (Occ.read 1 user_1 (Occ.run [NewTransaction] Occ.init)).2 !! 1
    = Some ∅ ∧
  (Mvocc.read 1 user_1 (Mvocc.run [NewTransaction] Mv.init)).1 = Ok None ∧
  Mv.read_set <$>
    Mv.transactions (Mvocc.read 1 user_1 (Mvocc.run [NewTransaction] Mv.init)).2 !! 1
    = Some [] ∧
  (Mvcc.read 1 user_1 (Mvcc.run [NewTransaction] Mv.init)).1 = Ok None ∧
  Mv.read_set <$>
    Mv.transactions (Mvcc.read 1 user_1 (Mvcc.run [NewTransaction] Mv.init)).2 !! 1
    = Some [].
Proof. repeat (split; [by_evaluation|]). by_evaluation. Qed.

(** C8 (operations on an id that is not active), amended.  The classes keep
    no Active / Committed / Aborted state; what matters is whether
    [new_transaction] ever returned the id.  For an id it never returned,
    [write] and [commit] raise [KeyError] and change nothing, and [read]
    raises [KeyError] only when the key has a stored value (a non-empty
    chain in the multi-version classes): otherwise it returns absent.  For
    an id it did return, [read], [write] and [commit] never raise, and the
    id stays known after every operation, its own [commit] included. *)
Theorem only_unknown_ids_raise :
  (Props.occ_unknown_tid ∧ Props.occ_known_tid) ∧
  (Props.mv_unknown_tid Mvocc.read Mvocc.commit ∧
   Props.mv_known_tid Mvocc.read Mvocc.commit Mvocc.step) ∧
  (Props.mv_unknown_tid Mvcc.read Mvcc.commit ∧
   Props.mv_known_tid Mvcc.read Mvcc.commit Mvcc.step).
Proof.
  assert (∀ record conflict,
            Props.mv_unknown_tid (Mv.read_with record) (Mv.commit_with conflict))
    as Hunknown.
  { intros record conflict s tid key value E. split; [|split].
    - unfold Mv.write. by rewrite E.
    - by apply MvFacts.commit_with_unknown.
    - by apply MvFacts.read_with_unknown. }
  assert (∀ record conflict,
            Props.mv_known_tid (Mv.read_with record) (Mv.commit_with conflict)
                               (Mv.step_with record conflict))
    as Hknown.
  { intros record conflict s tid key value [t E]. split; [|split; [|split]].
    - rewrite (MvFacts.read_with_known _ _ _ _ _ E).
      destruct (Mv.scan _ _ _) as [[l v]|]; simpl; eauto.
    - unfold Mv.write. by rewrite E.
    - destruct (MvFacts.commit_with_known conflict tid s t E) as (b & ? & _).
      eauto.
    - intros o. apply MvFacts.known_step. eauto. }
  split; [split|split; split].
  - intros s tid key value E. split; [|split].
    + unfold Occ.write. by rewrite E.
    + unfold Occ.commit, Occ.validate. by rewrite E.
    + unfold Occ.read. by rewrite E.
  - intros s tid key value [t E]. split; [|split; [|split]].
    + unfold Occ.read. rewrite E. destruct (Occ.records s !! key); simpl; eauto.
    + unfold Occ.write. by rewrite E.
    + unfold Occ.commit, Occ.validate. rewrite E.
      destruct (forallb _ _); simpl; eauto.
    + intros o. apply OccFacts.occ_known_step. eauto.
  - intros s tid key value E.
    destruct (Hunknown Mvocc.record Mvocc.conflict s tid key value E)
      as (? & ? & ?).
    by rewrite MvoccFacts.mvocc_commit_eq.
  - intros s tid key value E.
    destruct (Hknown Mvocc.record Mvocc.conflict s tid key value E)
      as (? & ? & ? & Hstep).
    rewrite MvoccFacts.mvocc_commit_eq. repeat split; try done.
    intros o. rewrite MvoccFacts.mvocc_step_eq. apply Hstep.
  - apply Hunknown.
  - intros s tid key value E.
    destruct (Hknown Mvcc.record Mvcc.conflict s tid key value E)
      as (? & ? & ? & Hstep).
    repeat split; try done;
      intros o; rewrite MvccFacts.mvcc_step_eq; apply Hstep.
Qed.

Lemma only_unknown_ids_raise_witness :
  (Occ.commit 9 (Occ.run load Occ.init) = (Raise KeyError, Occ.run load Occ.init) ∧
   ∃ b, (Occ.commit 1 (Occ.run load Occ.init)).1 = Ok b) ∧
  (Mvocc.commit 9 (Mvocc.run load Mv.init) = (Raise KeyError, Mvocc.run load Mv.init) ∧
   ∃ b, (Mvocc.commit 1 (Mvocc.run load Mv.init)).1 = Ok b) ∧
  (Mvcc.commit 9 (Mvcc.run load Mv.init) = (Raise KeyError, Mvcc.run load Mv.init) ∧
   ∃ b, (Mvcc.commit 1 (Mvcc.run load Mv.init)).1 = Ok b).
Proof.
  destruct only_unknown_ids_raise as ((U1 & K1) & (U2 & K2) & (U3 & K3)).
  split; [|split]; split.
  - refine (proj1 (proj2 (U1 (Occ.run load Occ.init) 9 user_1 (score 0) _))).
    by_evaluation.
  - refine (proj1 (proj2 (proj2 (K1 (Occ.run load Occ.init) 1 user_1 (score 0) _)))).
    exists (Occ.Txn ∅ {[ user_1 := score 100 ]} 0). by_evaluation.
  - refine (proj1 (proj2 (U2 (Mvocc.run load Mv.init) 9 user_1 (score 0) _))).
    by_evaluation.
  - refine (proj1 (proj2 (proj2 (K2 (Mvocc.run load Mv.init) 1 user_1 (score 0) _)))).
    exists (Mv.Txn [] [(user_1, score 100)] 0 ∅). by_evaluation.
  - refine (proj1 (proj2 (U3 (Mvcc.run load Mv.init) 9 user_1 (score 0) _))).
    by_evaluation.
  - refine (proj1 (proj2 (proj2 (K3 (Mvcc.run load Mv.init) 1 user_1 (score 0) _)))).
    exists (Mv.Txn [] [(user_1, score 100)] 0 ∅). by_evaluation.
Defined.

(** C8 as stated fails.  Transaction 1 has committed; [read], [write] and a
    second [commit] on it go through, in each class.  And [read] with an id
    that was never handed out returns absent for a key that is not stored. *)
Lemma finished_transaction_still_usable :
  ((Occ.trace load Occ.init).*1 = [Began 1; Wrote (Ok tt); Committed (Ok true)] ∧
   (Occ.trace [Read 1 user_1; Write 1 user_1 (score 5); Commit 1]
              (Occ.run load Occ.init)).*1 =
     [Got (Ok (Some (score 100))); Wrote (Ok tt); Committed (Ok true)] ∧
   (Occ.read 9 "user_2" (Occ.run load Occ.init)).1 = Ok None) ∧
  ((Mvocc.trace load Mv.init).*1 = [Began 1; Wrote (Ok tt); Committed (Ok true)] ∧
   (Mvocc.trace [Read 1 user_1; Write 1 user_1 (score 5); Commit 1]
                (Mvocc.run load Mv.init)).*1 =
     [Got (Ok (Some (score 100))); Wrote (Ok tt); Committed (Ok true)] ∧
   (Mvocc.read 9 "user_2" (Mvocc.run load Mv.init)).1 = Ok None) ∧
  ((Mvcc.trace load Mv.init).*1 = [Began 1; Wrote (Ok tt); Committed (Ok true)] ∧
   (Mvcc.trace [Read 1 user_1; Write 1 user_1 (score 5); Commit 1]
               (Mvcc.run load Mv.init)).*1 =
     [Got (Ok (Some (score 100))); Wrote (Ok tt); Committed (Ok true)] ∧
   (Mvcc.read 9 "user_2" (Mvcc.run load Mv.init)).1 = Ok None).
Proof.
  split; [|split]; (split; [|split]); by_evaluation.
Qed.

(** C3 (flat validation), amended.  For a known transaction, [validate]
    fails exactly when some key of its read set is no longer stored or is
    stored with a content different from the recorded one, and succeeds
    otherwise.  In particular, when the read set of a transaction is still
    current, a successful commit by a transaction [tid2] makes its
    validation fail exactly when that commit writes, to a key of the read
    set, a content different from the recorded one: rewriting the same
    content is not detected. *)
Theorem flat_validation :
  ∀ s tid t,
    Occ.transactions s !! tid = Some t →
    (Occ.validate tid s = Ok false ↔
     ∃ key v, Occ.read_set t !! key = Some v ∧ Occ.records s !! key ≠ Some v) ∧
    (Occ.validate tid s = Ok true ↔
     ∀ key v, Occ.read_set t !! key = Some v → Occ.records s !! key = Some v) ∧
    (∀ tid2 t2 s',
        Occ.transactions s !! tid2 = Some t2 →
        Occ.validate tid s = Ok true →
        Occ.commit tid2 s = (Ok true, s') →
        (Occ.validate tid s' = Ok false ↔
         ∃ key v w, Occ.read_set t !! key = Some v ∧
                    Occ.write_set t2 !! key = Some w ∧ w ≠ v)).
Proof.
  intros s tid t E. split; [|split].
  - by apply OccFacts.validate_false.
  - by apply OccFacts.validate_true.
  - intros tid2 t2 s' E2 Hcur (t2' & E2' & _ & ->)%OccFacts.commit_true.
    assert (t2' = t2) as -> by congruence.
    rewrite (OccFacts.validate_true s tid t E) in Hcur.
    rewrite (OccFacts.validate_false _ tid t); [|done]. simpl. split.
    + intros (key & v & Hk & Hne). exists key, v.
      destruct (Occ.write_set t2 !! key) as [w|] eqn:Ew.
      * exists w. repeat split; try done. intros ->. apply Hne.
        by apply lookup_union_Some_l.
      * exfalso. apply Hne. rewrite lookup_union_r; [|done]. by apply Hcur.
    + intros (key & v & w & Hk & Hw & Hne). exists key, v. split; [done|].
      rewrite (lookup_union_Some_l _ _ _ _ Hw). congruence.
Qed.

Lemma flat_validation_witness :
  Occ.validate 2 (Occ.commit 3 (Occ.run contended Occ.init)).2 = Ok false.
Proof.
  refine (proj2 (proj2 (proj2
            (flat_validation (Occ.run contended Occ.init) 2
               (Occ.Txn {[ user_1 := score 100 ]} ∅ 1) _))
            3 (Occ.Txn {[ user_1 := score 100 ]} {[ user_1 := score 120 ]} 1)
            (Occ.commit 3 (Occ.run contended Occ.init)).2 _ _ _) _).
  - by_evaluation.
  - by_evaluation.
  - by_evaluation.
  - by_evaluation.
  - exists user_1, (score 100), (score 120).
    split; [by_evaluation|]. split; [by_evaluation|].
    intros H%score_inj. discriminate H.
Defined.

(** C3 as stated fails.  Transaction 2 reads [user_1]; transaction 3 then
    writes the content that is already stored and commits successfully;
    the validation of transaction 2 still succeeds, and so does its
    commit. *)
Lemma same_content_commit_undetected :
  (Occ.trace (load ++ [ NewTransaction; Read 2 user_1;
                        NewTransaction; Write 3 user_1 (score 100); Commit 3 ])
             Occ.init).*1 =
    [ Began 1; Wrote (Ok tt); Committed (Ok true);
      Began 2; Got (Ok (Some (score 100)));
      Began 3; Wrote (Ok tt); Committed (Ok true) ] ∧
  Occ.validate 2
    (Occ.run (load ++ [ NewTransaction; Read 2 user_1;
                        NewTransaction; Write 3 user_1 (score 100); Commit 3 ])
             Occ.init) = Ok true.
Proof. split; by_evaluation. Qed.

(** C6 (two writes of one key), amended.  In the flat store the write set is
    keyed by key and the last write wins: after [write k v1; write k v2] only
    [v2] is buffered for [k], and a successful commit installs it.  In the
    multi-version stores the write set is a list: both writes stay buffered,
    and a successful commit appends one version per buffered write of [k],
    in order, so at least two versions; the committed value of [k] is
    [v2]. *)
Theorem write_set_semantics :
  Props.occ_last_write_wins ∧
  Props.mv_every_write_applied Mvocc.commit ∧
  Props.mv_every_write_applied Mvcc.commit.
Proof.
  assert (∀ conflict, Props.mv_every_write_applied (Mv.commit_with conflict))
    as Hmv.
  { intros conflict s tid t key v1 v2 E.
    rewrite (MvFacts.two_writes _ _ _ _ _ _ E). simpl.
    eexists. rewrite lookup_insert_eq. split; [done|]. simpl. split; [done|].
    intros s3 Hc.
    eapply (MvFacts.commit_with_applied _ _ _ _ _ key) in Hc as [(new & Hn & Hlen) Hlast];
      [|by simpl; rewrite lookup_insert_eq].
    simpl in *. exists new. split; [done|]. split; [done|]. split.
    - rewrite Hlen, filter_app, length_app. simpl.
      rewrite !filter_cons, !decide_True by done. simpl. lia.
    - apply (Hlast (Mv.write_set t ++ [(key, v1)])). by rewrite <- app_assoc. }
  split; [|split].
  - intros s tid t key v1 v2 E.
    rewrite (OccFacts.occ_two_writes _ _ _ _ _ _ E). simpl.
    eexists. rewrite lookup_insert_eq. split; [done|]. simpl. split; [done|].
    split; [by rewrite lookup_insert_eq|].
    intros s3 (t3 & E3 & _ & ->)%OccFacts.commit_true. simpl in *.
    rewrite lookup_insert_eq in E3. injection E3 as <-. simpl.
    split; [done|]. unfold Occ.committed. simpl.
    apply lookup_union_Some_l, lookup_insert_eq.
  - intros s tid t key v1 v2 E.
    destruct (Hmv Mvocc.conflict s tid t key v1 v2 E) as (t2 & ? & ? & Hc).
    exists t2. split; [done|]. split; [done|].
    intros s3. rewrite MvoccFacts.mvocc_commit_eq. apply Hc.
  - apply Hmv.
Qed.

Lemma write_set_semantics_witness :
  Occ.committed user_1
    (Occ.commit 3 (Occ.write 3 user_1 (score 170)
                     (Occ.write 3 user_1 (score 150)
                        (Occ.run contended Occ.init)).2).2).2 = Some (score 170) ∧
  Mv.committed user_1
    (Mvocc.commit 3 (Mv.write 3 user_1 (score 170)
                     (Mv.write 3 user_1 (score 150)
                        (Mvocc.run contended Mv.init)).2).2).2 = Some (score 170) ∧
  Mv.committed user_1
    (Mvcc.commit 3 (Mv.write 3 user_1 (score 170)
                     (Mv.write 3 user_1 (score 150)
                        (Mvcc.run contended Mv.init)).2).2).2 = Some (score 170).
Proof.
  destruct write_set_semantics as (H1 & H2 & H3).
  split; [|split].
  - destruct (H1 (Occ.run contended Occ.init) 3
                 (Occ.Txn {[ user_1 := score 100 ]} {[ user_1 := score 120 ]} 1)
                 user_1 (score 150) (score 170)) as (t2 & _ & _ & _ & Hc);
      [by_evaluation|].
    refine (proj2 (Hc _ _)). by_evaluation.
  - destruct (H2 (Mvocc.run contended Mv.init) 3
                 (Mv.Txn [(user_1, 0)] [(user_1, score 120)] 1 {[ user_1 := 0 ]})
                 user_1 (score 150) (score 170)) as (t2 & _ & _ & Hc);
      [by_evaluation|].
    destruct (Hc (Mvocc.commit 3 (Mv.write 3 user_1 (score 170)
                     (Mv.write 3 user_1 (score 150)
                        (Mvocc.run contended Mv.init)).2).2).2)
      as (new & _ & _ & _ & Hv); [by_evaluation|exact Hv].
  - destruct (H3 (Mvcc.run contended Mv.init) 3
                 (Mv.Txn [(user_1, 0)] [(user_1, score 120)] 1 {[ user_1 := 0 ]})
                 user_1 (score 150) (score 170)) as (t2 & _ & _ & Hc);
      [by_evaluation|].
    destruct (Hc (Mvcc.commit 3 (Mv.write 3 user_1 (score 170)
                     (Mv.write 3 user_1 (score 150)
                        (Mvcc.run contended Mv.init)).2).2).2)
      as (new & _ & _ & _ & Hv); [by_evaluation|exact Hv].
Defined.

(** C6 as stated fails in the multi-version stores.  A transaction writes
    [user_1] twice and commits: both writes were buffered, and the chain,
    empty before, has two versions after. *)
Lemma both_writes_become_versions :
  (Mv.write_set <$>
     Mv.transactions
       (Mvocc.run [ NewTransaction; Write 1 user_1 (score 150);
                    Write 1 user_1 (score 170) ] Mv.init) !! 1
     = Some [(user_1, score 150); (user_1, score 170)] ∧
   (Mvocc.trace [ NewTransaction; Write 1 user_1 (score 150);
                  Write 1 user_1 (score 170); Commit 1 ] Mv.init).*1
     = [ Began 1; Wrote (Ok tt); Wrote (Ok tt); Committed (Ok true) ] ∧
   Mv.history user_1
     (Mvocc.run [ NewTransaction; Write 1 user_1 (score 150);
                  Write 1 user_1 (score 170); Commit 1 ] Mv.init)
     = [score 150; score 170]) ∧
  (Mv.write_set <$>
     Mv.transactions
       (Mvcc.run [ NewTransaction; Write 1 user_1 (score 150);
                   Write 1 user_1 (score 170) ] Mv.init) !! 1
     = Some [(user_1, score 150); (user_1, score 170)] ∧
   (Mvcc.trace [ NewTransaction; Write 1 user_1 (score 150);
                 Write 1 user_1 (score 170); Commit 1 ] Mv.init).*1
     = [ Began 1; Wrote (Ok tt); Wrote (Ok tt); Committed (Ok true) ] ∧
   Mv.history user_1
     (Mvcc.run [ NewTransaction; Write 1 user_1 (score 150);
                 Write 1 user_1 (score 170); Commit 1 ] Mv.init)
     = [score 150; score 170]).
Proof.
  split; (split; [|split]); by_evaluation.
Qed.

(** C5 (the chain invariant).  In every state either multi-version class
    reaches from [__init__] by begin / read / write / commit, every chain has
    at most one version whose [end_ts] is absent and is ordered by [begin_ts]
    ascending (versions appended by one commit share their timestamp);
    and every operation leaves each chain as it was or with new versions
    appended, the value, begin timestamp and owner of the existing versions
    unchanged. *)
Theorem version_chain_invariant :
  Props.chain_invariant Mvocc.run Mvocc.step ∧
  Props.chain_invariant Mvcc.run Mvcc.step.
Proof.
  split; intros ops key.
  - rewrite MvoccFacts.mvocc_run_eq.
    destruct (MvFacts.chain_invariant_with Mvocc.record Mvocc.conflict
                MvoccFacts.mvocc_record_ok ops key) as (? & ? & ? & Hstep).
    repeat (split; [done|]). intros o. rewrite MvoccFacts.mvocc_step_eq.
    apply Hstep.
  - rewrite MvccFacts.mvcc_run_eq.
    destruct (MvFacts.chain_invariant_with Mvcc.record Mvcc.conflict
                MvccFacts.mvcc_record_ok ops key) as (? & ? & ? & Hstep).
    repeat (split; [done|]). intros o. rewrite MvccFacts.mvcc_step_eq.
    apply Hstep.
Qed.

Lemma version_chain_invariant_witness :
  (length (Mv.open_versions (Mvocc.run overtaken Mv.init) user_1) ≤ 1 ∧
   ∃ v', Mv.heap (Mvocc.step (Commit 3) (Mvocc.run contended Mv.init)) !! 0
           = Some v' ∧
         Mv.ver_value v' = score 100) ∧
  (length (Mv.open_versions (Mvcc.run overtaken Mv.init) user_1) ≤ 1 ∧
   ∃ v', Mv.heap (Mvcc.step (Commit 3) (Mvcc.run contended Mv.init)) !! 0
           = Some v' ∧
         Mv.ver_value v' = score 100).
Proof.
  destruct version_chain_invariant as [H1 H2]. split; split.
  - exact (proj1 (proj2 (H1 overtaken user_1))).
  - destruct (proj2 (proj2 (proj2 (proj2 (H1 contended user_1))) (Commit 3)) 0
                (Mv.Version (score 100) 0 None 1)) as (v' & Hv' & Hval & _);
      [by_evaluation|].
    exists v'. exact (conj Hv' Hval).
  - exact (proj1 (proj2 (H2 overtaken user_1))).
  - destruct (proj2 (proj2 (proj2 (proj2 (H2 contended user_1))) (Commit 3)) 0
                (Mv.Version (score 100) 0 None 1)) as (v' & Hv' & Hval & _);
      [by_evaluation|].
    exists v'. exact (conj Hv' Hval).
Defined.

(** C2 (snapshot validation).  In a reachable state of either multi-version
    class and for a known transaction, commit-time validation fails if and
    only if some key of the read set has (a) a chain whose last version is
    not the version recorded at read time, or (b) a recorded version whose
    [end_ts] is set and at most the length of the commit log; otherwise it
    succeeds.  This is [validate] and [commit] in [mvocc_problem.py] and
    [commit] in [mvcc_problem.py]. *)
Theorem snapshot_validation_rule :
  Props.snapshot_validation Mvocc.reachable (λ tid s, (Mvocc.validate tid s).1) ∧
  Props.snapshot_validation Mvocc.reachable (λ tid s, (Mvocc.commit tid s).1) ∧
  Props.snapshot_validation Mvcc.reachable (λ tid s, (Mvcc.commit tid s).1).
Proof.
  split; [|split]; intros s tid t Hr E.
  - by apply MvoccFacts.mvocc_validate_rule; [apply MvoccFacts.mvocc_reachable_inv|].
  - by apply MvoccFacts.mvocc_commit_rule; [apply MvoccFacts.mvocc_reachable_inv|].
  - by apply MvccFacts.mvcc_commit_rule; [apply MvccFacts.mvcc_reachable_inv|].
Qed.

Lemma snapshot_validation_rule_witness :
  (Mvocc.validate 2 (Mvocc.run overtaken Mv.init)).1 = Ok false ∧
  (Mvocc.commit 2 (Mvocc.run overtaken Mv.init)).1 = Ok false ∧
  (Mvcc.commit 2 (Mvcc.run overtaken Mv.init)).1 = Ok false.
Proof.
  assert (∀ run : list op → Mv.state → Mv.state,
            Mv.chain_of (Mv.records (run overtaken Mv.init)) user_1 = [0; 1] →
            ∃ key l, (key, l) ∈ [(user_1, 0)] ∧
                     Props.stale (run overtaken Mv.init) key l) as Hstale.
  { intros run Hc. exists user_1, 0. split; [left|]. left. rewrite Hc.
    simpl. discriminate. }
  destruct snapshot_validation_rule as (H1 & H2 & H3).
  split; [|split].
  - destruct (H1 (Mvocc.run overtaken Mv.init) 2
                 (Mv.Txn [(user_1, 0)] [] 1 {[ user_1 := 0 ]}))
      as (b & Hb & Hiff); [by exists overtaken|by_evaluation|].
    rewrite Hb. f_equal. apply Hiff, (Hstale Mvocc.run). by_evaluation.
  - destruct (H2 (Mvocc.run overtaken Mv.init) 2
                 (Mv.Txn [(user_1, 0)] [] 1 {[ user_1 := 0 ]}))
      as (b & Hb & Hiff); [by exists overtaken|by_evaluation|].
    rewrite Hb. f_equal. apply Hiff, (Hstale Mvocc.run). by_evaluation.
  - destruct (H3 (Mvcc.run overtaken Mv.init) 2
                 (Mv.Txn [(user_1, 0)] [] 1 {[ user_1 := 0 ]}))
      as (b & Hb & Hiff); [by exists overtaken|by_evaluation|].
    rewrite Hb. f_equal. apply Hiff, (Hstale Mvcc.run). by_evaluation.
Defined.

(** C4 (two reads of one key by one transaction), amended.  In the flat
    store [read] returns the value stored at the time of the call: two reads
    of a key return the same exactly when the committed value of the key is
    the same at both, so a commit that changes the key in between is seen.
    In the multi-version stores, once the commit log is longer than the
    begin timestamp of the transaction, its reads of a key return the same
    value whatever operations of whatever transactions follow, commits that
    change the key included. *)
Theorem reads_within_a_transaction :
  Props.occ_read_current ∧
  Props.mv_read_repeats Mvocc.reachable Mvocc.read Mvocc.run ∧
  Props.mv_read_repeats Mvcc.reachable Mvcc.read Mvcc.run.
Proof.
  split; [|split].
  - intros s s' tid key [t E] [t' E']. unfold Occ.read, Occ.committed.
    rewrite E, E'.
    destruct (Occ.records s !! key), (Occ.records s' !! key); simpl;
      split; congruence.
  - intros s tid t key ops Hr%MvoccFacts.mvocc_reachable_inv E Hlt.
    rewrite MvoccFacts.mvocc_run_eq.
    by apply (MvFacts.read_repeats _ _ _ _ _ t); [apply MvoccFacts.mvocc_record_ok|..].
  - intros s tid t key ops Hr%MvccFacts.mvcc_reachable_inv E Hlt.
    rewrite MvccFacts.mvcc_run_eq.
    by apply (MvFacts.read_repeats _ _ _ _ _ t); [apply MvccFacts.mvcc_record_ok|..].
Qed.

Lemma reads_within_a_transaction_witness :
  ((Occ.read 2 user_1 (Occ.run overtaken Occ.init)).1 =
   (Occ.read 2 user_1 (Occ.run (overtaken ++ [NewTransaction]) Occ.init)).1) ∧
  (Mvocc.read 2 user_1
     (Mvocc.run [ NewTransaction; Write 4 user_1 (score 170); Commit 4 ]
                (Mvocc.run overtaken Mv.init))).1 =
   (Mvocc.read 2 user_1 (Mvocc.run overtaken Mv.init)).1 ∧
  (Mvcc.read 2 user_1
     (Mvcc.run [ NewTransaction; Write 4 user_1 (score 170); Commit 4 ]
               (Mvcc.run overtaken Mv.init))).1 =
   (Mvcc.read 2 user_1 (Mvcc.run overtaken Mv.init)).1.
Proof.
  destruct reads_within_a_transaction as (H1 & H2 & H3).
  split; [|split].
  - apply (H1 (Occ.run (overtaken ++ [NewTransaction]) Occ.init)
              (Occ.run overtaken Occ.init) 2 user_1).
    + exists (Occ.Txn {[ user_1 := score 100 ]} ∅ 1). by_evaluation.
    + exists (Occ.Txn {[ user_1 := score 100 ]} ∅ 1). by_evaluation.
    + by_evaluation.
  - apply (H2 (Mvocc.run overtaken Mv.init) 2
              (Mv.Txn [(user_1, 0)] [] 1 {[ user_1 := 0 ]})).
    + by exists overtaken.
    + by_evaluation.
    + apply Nat.lt_succ_diag_r.
  - apply (H3 (Mvcc.run overtaken Mv.init) 2
              (Mv.Txn [(user_1, 0)] [] 1 {[ user_1 := 0 ]})).
    + by exists overtaken.
    + by_evaluation.
    + apply Nat.lt_succ_diag_r.
Defined.

(** C4 as stated fails in each class.  Transaction 2 begins after the load
    and reads 100; transaction 3 writes 120 and commits; transaction 2 reads
    again and gets 120. *)
Lemma second_read_sees_the_commit :
  (Occ.trace (contended ++ [ Commit 3; Read 2 user_1 ]) Occ.init).*1 =
    [ Began 1; Wrote (Ok tt); Committed (Ok true);
      Began 2; Got (Ok (Some (score 100)));
      Began 3; Got (Ok (Some (score 100))); Wrote (Ok tt);
      Committed (Ok true); Got (Ok (Some (score 120))) ] ∧
  (Mvocc.trace (contended ++ [ Commit 3; Read 2 user_1 ]) Mv.init).*1 =
    [ Began 1; Wrote (Ok tt); Committed (Ok true);
      Began 2; Got (Ok (Some (score 100)));
      Began 3; Got (Ok (Some (score 100))); Wrote (Ok tt);
      Committed (Ok true); Got (Ok (Some (score 120))) ] ∧
  (Mvcc.trace (contended ++ [ Commit 3; Read 2 user_1 ]) Mv.init).*1 =
    [ Began 1; Wrote (Ok tt); Committed (Ok true);
      Began 2; Got (Ok (Some (score 100)));
      Began 3; Got (Ok (Some (score 100))); Wrote (Ok tt);
      Committed (Ok true); Got (Ok (Some (score 120))) ].
Proof.
  split; [|split]; by_evaluation.
Qed.


(** ** Further properties of the stores *)

Module OccMore.
Import Occ OccInv.

Lemma occ_inv_init : inv init.
Proof. intros tid t. unfold init. simpl. by rewrite lookup_empty. Qed.

Lemma occ_inv_step o s : inv s → inv (step o s).
Proof.
  intros Hinv. unfold step, perform, inv.
  destruct o as [|tid key|tid key v|tid]; simpl.
  - intros tid' t' [[<- <-]|[_ E]]%lookup_insert_Some; simpl; [lia|].
    destruct (Hinv _ _ E). lia.
  - unfold read. destruct (records s !! key); [|done].
    destruct (transactions s !! tid) as [t|] eqn:E; [|done]. simpl.
    intros tid' t' [[<- <-]|[_ E']]%lookup_insert_Some; simpl; eauto.
  - unfold write. destruct (transactions s !! tid) as [t|] eqn:E; [|done]. simpl.
    intros tid' t' [[<- <-]|[_ E']]%lookup_insert_Some; simpl; eauto.
  - unfold commit. destruct (validate tid s) as [[]|]; try done.
    destruct (transactions s !! tid) as [t|] eqn:E; [|done]. simpl.
    intros tid' t' E'. destruct (Hinv _ _ E'). rewrite length_app. simpl. lia.
Qed.

Lemma occ_inv_run ops s : inv s → inv (run ops s).
Proof.
  revert s. induction ops as [|o ops IH]; intros s Hs; [done|].
  simpl. by apply IH, occ_inv_step.
Qed.

Lemma occ_reachable_inv s : reachable s → inv s.
Proof. intros [ops ->]. apply occ_inv_run, occ_inv_init. Qed.

Lemma occ_log_step o s : commit_log s `prefix_of` commit_log (step o s).
Proof.
  unfold step, perform. destruct o as [|tid key|tid key v|tid]; simpl; try done.
  - unfold read. destruct (records s !! key); [|done].
    by destruct (transactions s !! tid).
  - unfold write. by destruct (transactions s !! tid).
  - unfold commit. destruct (validate tid s) as [[]|]; try done.
    destruct (transactions s !! tid); [|done]. simpl. by apply prefix_app_r.
Qed.

Lemma occ_log_run ops s : commit_log s `prefix_of` commit_log (run ops s).
Proof.
  revert s. induction ops as [|o ops IH]; intros s; [done|].
  simpl. etrans; [apply (occ_log_step o)|apply IH].
Qed.

Lemma occ_begin_step o s tid t :
  inv s → transactions s !! tid = Some t →
  ∃ t', transactions (step o s) !! tid = Some t' ∧ begin_ts t' = begin_ts t.
Proof.
  intros Hinv E. unfold step, perform.
  destruct o as [|tid' key|tid' key v|tid']; simpl.
  - rewrite lookup_insert_ne; [by eauto|]. destruct (Hinv _ _ E). lia.
  - unfold read. destruct (records s !! key); [|by eauto].
    destruct (transactions s !! tid') as [t'|] eqn:E'; [|by eauto]. simpl.
    destruct (decide (tid' = tid)) as [->|].
    + rewrite lookup_insert_eq. eexists. split; [done|]. simpl. congruence.
    + rewrite lookup_insert_ne; eauto.
  - unfold write. destruct (transactions s !! tid') as [t'|] eqn:E'; [|by eauto].
    simpl. destruct (decide (tid' = tid)) as [->|].
    + rewrite lookup_insert_eq. eexists. split; [done|]. simpl. congruence.
    + rewrite lookup_insert_ne; eauto.
  - unfold commit. destruct (validate tid' s) as [[]|]; eauto.
    destruct (transactions s !! tid'); eauto.
Qed.

Lemma occ_begin_run ops s tid t :
  inv s → transactions s !! tid = Some t →
  ∃ t', transactions (run ops s) !! tid = Some t' ∧ begin_ts t' = begin_ts t.
Proof.
  revert s t. induction ops as [|o ops IH]; intros s t Hinv E; [by eauto|].
  simpl. destruct (occ_begin_step o s tid t Hinv E) as (t1 & E1 & <-).
  by apply IH; [apply occ_inv_step|].
Qed.

End OccMore.

Module MvMore.
Import Mv MvInv MvFacts MvHistory.

(** *** Provenance and contiguity through the write loop *)

Lemma owned_apply_write tid log recs hp kv :
  owned (log ++ [tid]) hp →
  owned (log ++ [tid]) (apply_write tid (length log) (recs, hp) kv).2.
Proof.
  intros Ho l v' [[_ ->]|(v & Hv & Hb & _ & Ht)]%apply_write_fields; simpl.
  - rewrite lookup_app_r by done. by rewrite Nat.sub_diag.
  - rewrite Hb, Ht. exact (Ho l v Hv).
Qed.

Lemma contiguous_apply_write tid ts recs hp kv :
  store_inv recs hp (S ts) → contiguous recs hp →
  contiguous (apply_write tid ts (recs, hp) kv).1
             (apply_write tid ts (recs, hp) kv).2.
Proof.
  intros Hs Hc k i l l' v v'. rewrite apply_write_chain.
  intros Hi Hi' Hv Hv'.
  destruct (decide (kv.1 = k)) as [<-|Hk].
  - apply snoc_lookup_inv in Hi as [(Hlt & Hi & Hin)|[-> ->]].
    2: { apply lookup_lt_Some in Hi'. rewrite length_app in Hi'.
         simpl in Hi'. lia. }
    apply apply_write_heap in Hv as [[-> _]|(w & Hw & ->)].
    { apply (inv_bound _ _ _ Hs) in Hin. lia. }
    apply snoc_lookup_inv in Hi' as [(Hlt' & Hi' & Hin')|[Heq ->]].
    + apply apply_write_fields in Hv' as [[-> _]|(w' & Hw' & Hb' & _)].
      { apply (inv_bound _ _ _ Hs) in Hin'. lia. }
      rewrite decide_False.
      * rewrite Hb'. by eapply (Hc kv.1 i l l').
      * rewrite last_lookup. intros Hlast.
        destruct (inv_distinct _ _ _ Hs _ _ _ _ _ Hlast Hi) as [_ Heq]. lia.
    + rewrite apply_write_new in Hv'. injection Hv' as <-.
      rewrite decide_True; [done|].
      rewrite last_lookup, <- Heq. done.
  - pose proof (list_elem_of_lookup_2 _ _ _ Hi) as Hin.
    pose proof (list_elem_of_lookup_2 _ _ _ Hi') as Hin'.
    assert (∀ j x, chain_of recs k !! j = Some x →
                   last (chain_of recs kv.1) ≠ Some x) as Hother.
    { intros j x Hj. rewrite last_lookup. intros Hlast.
      by destruct (inv_distinct _ _ _ Hs _ _ _ _ _ Hlast Hj). }
    apply apply_write_heap in Hv as [[-> _]|(w & Hw & ->)].
    { apply (inv_bound _ _ _ Hs) in Hin. lia. }
    apply apply_write_heap in Hv' as [[-> _]|(w' & Hw' & ->)].
    { apply (inv_bound _ _ _ Hs) in Hin'. lia. }
    rewrite !decide_False by eauto. by eapply (Hc k i l l').
Qed.

Lemma history_apply_writes tid log ws recs hp :
  store_inv recs hp (S (length log)) →
  owned (log ++ [tid]) hp → contiguous recs hp →
  owned (log ++ [tid]) (apply_writes tid (length log) ws (recs, hp)).2 ∧
  contiguous (apply_writes tid (length log) ws (recs, hp)).1
             (apply_writes tid (length log) ws (recs, hp)).2.
Proof.
  revert recs hp. induction ws as [|kv ws IH]; intros recs hp Hs Ho Hc; [done|].
  rewrite apply_writes_cons.
  pose proof (store_inv_apply_write tid (length log) recs hp kv Hs) as Hs1.
  pose proof (owned_apply_write tid log recs hp kv Ho) as Ho1.
  pose proof (contiguous_apply_write tid (length log) recs hp kv Hs Hc) as Hc1.
  destruct (apply_write tid (length log) (recs, hp) kv) as [recs1 hp1].
  by apply IH.
Qed.

Lemma contiguous_same_chains (recs recs' : chains) hp :
  (∀ k, chain_of recs' k = chain_of recs k) →
  contiguous recs hp → contiguous recs' hp.
Proof. intros Heq Hc k i l l' v v'. rewrite Heq. apply Hc. Qed.

Lemma history_init : MvHistory.inv init.
Proof.
  split; simpl.
  - by intros l v ?.
  - intros k i l l' v v'. unfold chain_of. by rewrite lookup_empty.
  - intros tid t. by rewrite lookup_empty.
Qed.

Lemma history_step record conflict o s :
  MvInv.inv s → MvHistory.inv s →
  MvHistory.inv (step_with record conflict o s).
Proof.
  intros Hinv [Ho Hc Hb]. unfold step_with.
  destruct o as [|tid k|tid k v0|tid]; simpl.
  - split; simpl; [done..|].
    intros tid' t' [[_ <-]|[_ E]]%lookup_insert_Some; simpl; eauto.
  - assert (MvHistory.inv
              (State (touch k (records s)) (heap s) (transactions s)
                     (next_tid s) (commit_log s))) as Htouch.
    { split; simpl; [done| |done].
      eapply contiguous_same_chains; [|done]. intros ?. apply chain_of_touch. }
    unfold read_with. destruct (chain_of (records s) k); [done|].
    destruct (transactions s !! tid) as [t|] eqn:E; [|done].
    destruct (scan _ _ _) as [[l1 v1]|]; [|done].
    split; simpl; [done| |].
    + eapply contiguous_same_chains; [|done]. intros ?. apply chain_of_touch.
    + intros tid' t' [[_ <-]|[_ E']]%lookup_insert_Some; simpl; eauto.
  - unfold write. destruct (transactions s !! tid) as [t|] eqn:E; [|done].
    split; simpl; [done..|].
    intros tid' t' [[_ <-]|[_ E']]%lookup_insert_Some; simpl; eauto.
  - unfold commit_with. destruct (transactions s !! tid) as [t|] eqn:E; [|done].
    pose proof (inv_check_frame (conflict s) s tid t Hinv E) as Hfr.
    destruct (check_with _ _ _) as [[] recs]; simpl in Hfr; subst recs; simpl.
    2: { by destruct s. }
    destruct (history_apply_writes tid (commit_log s) (write_set t)
                (records s) (heap s)) as [Ho' Hc'].
    + eapply store_inv_mono; [|apply Hinv]. lia.
    + intros l v Hv. apply lookup_app_l_Some. exact (Ho l v Hv).
    + done.
    + split; simpl; [done..|].
      intros tid' t' E'. rewrite length_app. simpl.
      specialize (Hb _ _ E'). lia.
Qed.

Lemma history_run record conflict ops :
  records_entry record →
  MvHistory.inv (run_with record conflict ops init).
Proof.
  intros Hrec.
  assert (∀ s, MvInv.inv s → MvHistory.inv s →
               MvInv.inv (run_with record conflict ops s) ∧
               MvHistory.inv (run_with record conflict ops s)) as H.
  { induction ops as [|o ops IH]; intros s Hi Hh; [done|].
    simpl. apply IH; [by apply inv_step|by apply history_step]. }
  apply H; [apply inv_init|apply history_init].
Qed.

(** *** The commit log only grows *)

Lemma mv_log_step record conflict o s :
  commit_log s `prefix_of` commit_log (step_with record conflict o s).
Proof.
  unfold step_with. destruct o as [|tid k|tid k v0|tid]; simpl; [done|..].
  - unfold read_with. destruct (chain_of _ _); [done|].
    destruct (transactions s !! tid); [|done]. by destruct (scan _ _ _) as [[]|].
  - unfold write. by destruct (transactions s !! tid).
  - unfold commit_with. destruct (transactions s !! tid); [|done].
    destruct (check_with _ _ _) as [[] recs]; simpl; [|done].
    by apply prefix_app_r.
Qed.

Lemma mv_log_run record conflict ops s :
  commit_log s `prefix_of` commit_log (run_with record conflict ops s).
Proof.
  revert s. induction ops as [|o ops IH]; intros s; [done|].
  simpl. etrans; [apply (mv_log_step record conflict o)|apply IH].
Qed.

Lemma mv_begin_run record conflict ops s tid t :
  records_entry record →
  MvInv.inv s → transactions s !! tid = Some t →
  ∃ t', transactions (run_with record conflict ops s) !! tid = Some t' ∧
        begin_ts t' = begin_ts t.
Proof.
  intros Hrec. revert s t.
  induction ops as [|o ops IH]; intros s t Hinv E; [by eauto|].
  simpl. destruct (begin_step record conflict o s tid t Hinv E) as (t1 & E1 & <-).
  by apply IH; [apply inv_step|].
Qed.

(** *** A commit leaves the chains of the other keys alone *)

Lemma apply_write_frame tid ts recs hp kv k l :
  store_inv recs hp (S ts) → kv.1 ≠ k → l ∈ chain_of recs k →
  (apply_write tid ts (recs, hp) kv).2 !! l = hp !! l.
Proof.
  intros Hs Hk Hl.
  destruct (lookup_lt_is_Some_2 hp l) as [v Hv];
    [by apply (inv_bound _ _ _ Hs k)|].
  rewrite (apply_write_old _ _ _ _ _ _ _ Hv), Hv. rewrite decide_False; [done|].
  rewrite last_lookup. intros Hlast.
  apply list_elem_of_lookup in Hl as [i Hi].
  by destruct (inv_distinct _ _ _ Hs _ _ _ _ _ Hlast Hi).
Qed.

Lemma apply_writes_frame tid ts ws recs hp k :
  store_inv recs hp (S ts) → (∀ kv, kv ∈ ws → kv.1 ≠ k) →
  chain_of (apply_writes tid ts ws (recs, hp)).1 k = chain_of recs k ∧
  ∀ l, l ∈ chain_of recs k → (apply_writes tid ts ws (recs, hp)).2 !! l = hp !! l.
Proof.
  revert recs hp. induction ws as [|kv ws IH]; intros recs hp Hs Hws; [done|].
  rewrite apply_writes_cons.
  pose proof (store_inv_apply_write tid ts recs hp kv Hs) as Hs1.
  assert (kv.1 ≠ k) as Hk by (apply Hws; left).
  pose proof (apply_write_chain tid ts recs hp kv k) as Hc.
  rewrite decide_False in Hc by done.
  pose proof (λ l, apply_write_frame tid ts recs hp kv k l Hs Hk) as Hf.
  destruct (apply_write tid ts (recs, hp) kv) as [recs1 hp1]. simpl in *.
  destruct (IH recs1 hp1 Hs1) as [IH1 IH2].
  { intros ??. apply Hws. by right. }
  rewrite IH1, Hc. split; [done|]. intros l Hl.
  rewrite IH2 by by rewrite Hc. by apply Hf.
Qed.

Lemma omap_lookup_ext (hp hp' : list version) (c : list nat) :
  (∀ l, l ∈ c → hp' !! l = hp !! l) →
  omap (λ l, hp' !! l) c = omap (λ l, hp !! l) c.
Proof.
  induction c as [|l c IH]; intros H; simpl; [done|].
  assert (omap (λ l, hp' !! l) c = omap (λ l, hp !! l) c) as IH'.
  { apply IH. intros ??. apply H. by right. }
  rewrite (H l) by left. destruct (hp !! l); [f_equal|]; exact IH'.
Qed.

Lemma commit_with_frame conflict tid s s' t key :
  MvInv.inv s → transactions s !! tid = Some t →
  commit_with conflict tid s = (Ok true, s') →
  (∀ kv, kv ∈ write_set t → kv.1 ≠ key) →
  chain_of (records s') key = chain_of (records s) key ∧
  versions_of s' key = versions_of s key.
Proof.
  intros Hinv E Hc Hws. unfold commit_with in Hc. rewrite E in Hc.
  pose proof (inv_check_frame (conflict s) s tid t Hinv E) as Hfr.
  destruct (check_with _ _ _) as [[] recs]; [|done]. simpl in Hfr. subst recs.
  injection Hc as <-. unfold versions_of. simpl.
  destruct (apply_writes_frame tid (length (commit_log s)) (write_set t)
              (records s) (heap s) key) as [H1 H2]; [|done|].
  { eapply store_inv_mono; [|apply Hinv]. lia. }
  rewrite H1. split; [done|]. by apply omap_lookup_ext.
Qed.

(** *** A commit that writes a key makes its earlier readers stale *)

Lemma commit_with_stale conflict tid s s' t key v l :
  MvInv.inv s → transactions s !! tid = Some t →
  commit_with conflict tid s = (Ok true, s') →
  (key, v) ∈ write_set t → l ∈ chain_of (records s) key →
  Props.stale s' key l.
Proof.
  intros Hinv E Hc Hw Hl.
  assert (MvInv.inv s') as Hinv'.
  { replace s' with (commit_with conflict tid s).2 by by rewrite Hc.
    by apply inv_commit_with. }
  destruct (commit_with_applied conflict tid s s' t key E Hc)
    as [(new & Hnew & Hlen) _].
  assert (0 < length new) as Hpos.
  { rewrite Hlen.
    assert ((key, v) ∈ filter (λ kv : string * row, kv.1 = key) (write_set t))
      as Hin by by apply list_elem_of_filter.
    destruct (filter _ _); [by apply elem_of_nil in Hin|simpl; lia]. }
  left. intros Hlast. rewrite last_lookup in Hlast.
  apply list_elem_of_lookup in Hl as [i Hi].
  pose proof (lookup_lt_Some _ _ _ Hi) as Hlt.
  assert (chain_of (records s') key !! i = Some l) as Hi'.
  { rewrite Hnew. by apply lookup_app_l_Some. }
  destruct (inv_distinct _ _ _ (inv_store _ Hinv') _ _ _ _ _ Hlast Hi')
    as [_ Heq].
  rewrite Hnew, length_app in Heq. lia.
Qed.

(** *** Reading the latest version *)

Lemma seen_latest s b key :
  MvInv.inv s → length (commit_log s) ≤ S b →
  seen s b key = committed key s.
Proof.
  intros [Hs _ _] Hlen. unfold seen, committed.
  destruct (last (chain_of (records s) key)) as [lh|] eqn:Hlast; simpl.
  2: { apply last_None in Hlast. by rewrite Hlast. }
  pose proof Hlast as Hsnoc. apply last_Some in Hsnoc as [c Hc].
  rewrite Hc, reverse_snoc. simpl.
  destruct (lookup_lt_is_Some_2 (heap s) lh) as [v Hv].
  { apply (inv_bound _ _ _ Hs key). by apply last_Some_elem_of. }
  rewrite Hv. simpl.
  pose proof (inv_begin _ _ _ Hs _ _ Hv) as Hb.
  pose proof (inv_open _ _ _ Hs _ _ _ Hlast Hv) as Ho.
  unfold visible. rewrite Ho, bool_decide_eq_true_2 by lia. done.
Qed.

Lemma read_with_latest record tid key s t :
  MvInv.inv s → transactions s !! tid = Some t →
  length (commit_log s) ≤ S (begin_ts t) →
  (read_with record tid key s).1 = Ok (committed key s).
Proof.
  intros Hinv E Hlen. rewrite (read_with_result _ _ _ _ _ E).
  f_equal. by apply seen_latest.
Qed.

End MvMore.

(** ** The callers *)

Module BoardFacts.

(** What the callers need of a store: how a round [new_transaction; write;
    commit] and a round [new_transaction; read; write; commit] go when
    nothing else runs, in terms of the committed values, the commit log and
    the next transaction id. *)
Section Rounds.
Context {St : Type}.
Variable new_transaction : St → nat * St.
Variable read : nat → string → St → result (option row) * St.
Variable write : nat → string → row → St → result unit * St.
Variable commit : nat → St → result bool * St.
Variable good : St → Prop.
Variable committed : string → St → option row.
Variable log : St → list nat.
Variable next : St → nat.

Definition blind_round_ok : Prop :=
  ∀ s key data,
    good s →
    (write (new_transaction s).1 key data (new_transaction s).2).1 = Ok tt ∧
    ∃ s',
      commit (new_transaction s).1
             (write (new_transaction s).1 key data (new_transaction s).2).2
        = (Ok true, s') ∧
      good s' ∧ committed key s' = Some data ∧
      (∀ k, k ≠ key → committed k s' = committed k s) ∧
      log s' = log s ++ [next s] ∧ next s' = next s + 1.

Definition read_round_ok : Prop :=
  ∀ s key,
    good s →
    ∃ s1,
      read (new_transaction s).1 key (new_transaction s).2
        = (Ok (committed key s), s1) ∧
      match committed key s with
      | None =>
          good s1 ∧ (∀ k, committed k s1 = committed k s) ∧ log s1 = log s
      | Some _ =>
          ∀ data,
            (write (new_transaction s).1 key data s1).1 = Ok tt ∧
            ∃ s',
              commit (new_transaction s).1
                     (write (new_transaction s).1 key data s1).2
                = (Ok true, s') ∧
              good s' ∧ committed key s' = Some data ∧
              (∀ k, k ≠ key → committed k s' = committed k s) ∧
              log s' = log s ++ [next s] ∧ next s' = next s + 1
      end.

Hypothesis blind : blind_round_ok.
Hypothesis round : read_round_ok.

Lemma load_row_ok data user_id s :
  good s → data !! "UserID"%string = Some user_id →
  ∃ s',
    load_row new_transaction write commit data s = (Returned (Some user_id), s') ∧
    good s' ∧
    committed ("user_" +:+ field_str user_id) s' = Some data ∧
    (∀ k, k ≠ "user_" +:+ field_str user_id → committed k s' = committed k s) ∧
    log s' = log s ++ [next s] ∧ next s' = next s + 1.
Proof.
  intros Hg Hu. unfold load_row. rewrite Hu.
  destruct (blind s ("user_" +:+ field_str user_id) data Hg)
    as (Hw & s' & Hc & Hrest).
  cbn zeta. rewrite Hw, Hc. simpl. by exists s'.
Qed.

Lemma loaded_value_cons data df key :
  loaded_value (data :: df) key =
  match loaded_value df key with
  | Some d => Some d
  | None => if decide (row_key data = Some key) then Some data else None
  end.
Proof.
  unfold loaded_value. rewrite filter_cons. case_decide.
  - apply last_cons.
  - by destruct (last _).
Qed.

Lemma load_initial_data_ok df s :
  good s →
  Forall (λ data, is_Some (data !! "UserID"%string)) df →
  ∃ s',
    load_initial_data new_transaction write commit df s
      = (Returned (omap (λ data, data !! "UserID"%string) df), s') ∧
    good s' ∧
    (∀ key, committed key s' =
            match loaded_value df key with
            | Some data => Some data
            | None => committed key s
            end) ∧
    log s' = log s ++ seq (next s) (length df) ∧
    next s' = next s + length df.
Proof.
  revert s. induction df as [|data df IH]; intros s Hg Hdf.
  { exists s. simpl. rewrite app_nil_r, Nat.add_0_r. done. }
  apply Forall_cons in Hdf as [[user_id Hu] Hdf].
  destruct (load_row_ok data user_id s Hg Hu)
    as (s1 & Hr & Hg1 & Hk & Hother & Hlog & Hnext).
  destruct (IH s1 Hg1 Hdf) as (s' & Hl & Hg' & Hc & Hlog' & Hnext').
  exists s'. simpl. rewrite Hr. simpl. rewrite Hl, Hu. simpl.
  split; [done|]. split; [done|]. split; [|split].
  - intros key. rewrite Hc, loaded_value_cons.
    destruct (loaded_value df key); [done|].
    unfold row_key. rewrite Hu. simpl. case_decide as Hkey.
    + injection Hkey as <-. done.
    + apply Hother. congruence.
  - rewrite Hlog', Hlog, Hnext, <- app_assoc. simpl.
    by rewrite Nat.add_1_r.
  - rewrite Hnext', Hnext. lia.
Qed.

(** A submission with nothing else running. *)
Lemma submit_alone_ok (now : nat → string) user_id score_increase s :
  good s →
  ∃ s',
    submit_problem_transaction_with new_transaction read write commit
      (λ _ s, s) (λ _ s, s) now user_id score_increase s
    = (match committed (user_key user_id) s with
       | None => Returned None
       | Some data =>
           match data !! "Score"%string with
           | None => Failed PyKeyError
           | Some (FStr _) => Failed PyTypeError
           | Some (FInt _) => Returned (Some true)
           end
       end, s') ∧
    match committed (user_key user_id) s with
    | None => good s' ∧ (∀ k, committed k s' = committed k s) ∧ log s' = log s
    | Some data =>
        match data !! "Score"%string with
        | Some (FInt z) =>
            good s' ∧
            committed (user_key user_id) s'
              = Some (submitted (now 0) score_increase z data) ∧
            (∀ k, k ≠ user_key user_id → committed k s' = committed k s) ∧
            log s' = log s ++ [next s] ∧ next s' = next s + 1
        | _ => True
        end
    end.
Proof.
  intros Hg. unfold submit_problem_transaction_with. simpl.
  destruct (round s (user_key user_id) Hg) as (s1 & Hr & Hrest).
  rewrite Hr. simpl.
  destruct (committed (user_key user_id) s) as [data|]; [|by exists s1].
  destruct (data !! "Score"%string) as [[z|str]|]; [|by eexists..].
  destruct (Hrest (submitted (now 0) score_increase z data))
    as (Hw & s' & Hc & Hfacts).
  unfold submitted in *. rewrite Hw, Hc. simpl. by exists s'.
Qed.

Lemma submitted_score stamp score_increase z data :
  submitted stamp score_increase z data !! "Score"%string
  = Some (FInt (z + score_increase)).
Proof.
  unfold submitted. rewrite lookup_insert_ne by done. apply lookup_insert_eq.
Qed.

Lemma submit_all_ok (now : nat → string) user_id increases s data z :
  good s →
  committed (user_key user_id) s = Some data →
  data !! "Score"%string = Some (FInt z) →
  ∃ data',
    committed (user_key user_id)
      (foldl (λ st inc,
                (submit_problem_transaction_with new_transaction read write commit
                   (λ _ s, s) (λ _ s, s) now user_id inc st).2) s increases)
      = Some data' ∧
    data' !! "Score"%string = Some (FInt (z + foldr Z.add 0%Z increases)).
Proof.
  revert s data z. induction increases as [|inc increases IH];
    intros s data z Hg Hc Hz; simpl.
  { exists data. by rewrite Z.add_0_r. }
  destruct (submit_alone_ok now user_id inc s Hg) as (s' & Heq & Hfacts).
  rewrite Hc, Hz in Hfacts. destruct Hfacts as (Hg' & Hc' & _).
  rewrite Heq. simpl.
  destruct (IH s' _ (z + inc)%Z Hg' Hc' (submitted_score _ _ _ _))
    as (data' & Hd & Hs).
  exists data'. split; [done|]. rewrite Hs. do 2 f_equal. lia.
Qed.

End Rounds.

End BoardFacts.

Module OccRounds.
Import Occ.

Lemma occ_commit_valid tid s t :
  transactions s !! tid = Some t → validate tid s = Ok true →
  commit tid s =
  (Ok true,
   State (write_set t ∪ records s) (transactions s) (next_tid s)
         (commit_log s ++ [tid])).
Proof.
  intros E V. unfold commit. rewrite V, E.
  by rewrite OccFacts.apply_writes_union.
Qed.

Lemma occ_blind_round :
  BoardFacts.blind_round_ok new_transaction write commit (λ _, True)
                            committed commit_log next_tid.
Proof.
  intros s key data _. unfold new_transaction, write. simpl.
  rewrite lookup_insert_eq. simpl. split; [done|].
  eexists. split.
  - apply occ_commit_valid; [by simpl; rewrite lookup_insert_eq|].
    eapply OccFacts.validate_true; [by simpl; rewrite lookup_insert_eq|].
    simpl. intros k v. by rewrite lookup_empty.
  - unfold committed. simpl. split; [done|]. split; [|split; [|done]].
    + apply lookup_union_Some_l, lookup_insert_eq.
    + intros k Hk. rewrite lookup_union_r; [done|].
      by rewrite lookup_insert_ne, lookup_empty.
Qed.

Lemma occ_read_round :
  BoardFacts.read_round_ok new_transaction read write commit (λ _, True)
                           committed commit_log next_tid.
Proof.
  intros s key _. unfold committed, new_transaction, read. simpl.
  destruct (records s !! key) as [data|] eqn:Ek.
  2: { eexists. split; [done|]. simpl. done. }
  rewrite lookup_insert_eq. eexists. split; [done|]. simpl.
  intros data'. unfold write. simpl. rewrite lookup_insert_eq. simpl.
  split; [done|]. eexists. split.
  - apply occ_commit_valid; [by simpl; rewrite lookup_insert_eq|].
    eapply OccFacts.validate_true; [by simpl; rewrite lookup_insert_eq|].
    simpl. intros k v [[<- <-]|[_ H]]%lookup_insert_Some; [done|].
    by rewrite lookup_empty in H.
  - simpl. split; [done|]. split; [|split; [|done]].
    + apply lookup_union_Some_l, lookup_insert_eq.
    + intros k Hk. rewrite lookup_union_r; [done|].
      by rewrite lookup_insert_ne, lookup_empty.
Qed.

End OccRounds.

Module MvRounds.
Import Mv MvInv MvFacts MvMore.

Lemma scan_latest s b key lh v :
  MvInv.inv s → length (commit_log s) ≤ S b →
  last (chain_of (records s) key) = Some lh → heap s !! lh = Some v →
  scan (heap s) b (reverse (chain_of (records s) key)) = Some (lh, v).
Proof.
  intros [Hs _ _] Hlen Hlast Hv.
  pose proof Hlast as Hsnoc. apply last_Some in Hsnoc as [c Hc].
  rewrite Hc, reverse_snoc. simpl. rewrite Hv.
  pose proof (inv_begin _ _ _ Hs _ _ Hv) as Hb.
  pose proof (inv_open _ _ _ Hs _ _ _ Hlast Hv) as Ho.
  unfold visible. rewrite Ho, bool_decide_eq_true_2 by lia. done.
Qed.

Lemma committed_cases s key :
  MvInv.inv s →
  match committed key s with
  | Some data =>
      ∃ lh v, last (chain_of (records s) key) = Some lh ∧
              heap s !! lh = Some v ∧ ver_value v = data
  | None => chain_of (records s) key = []
  end.
Proof.
  intros [Hs _ _]. unfold committed.
  destruct (last (chain_of (records s) key)) as [lh|] eqn:Hlast; simpl.
  2: { by apply last_None. }
  destruct (lookup_lt_is_Some_2 (heap s) lh) as [v Hv].
  { apply (inv_bound _ _ _ Hs key). by apply last_Some_elem_of. }
  rewrite Hv. simpl. by exists lh, v.
Qed.

Lemma commit_with_frame_committed conflict tid s s' t key :
  MvInv.inv s → transactions s !! tid = Some t →
  commit_with conflict tid s = (Ok true, s') →
  (∀ kv, kv ∈ write_set t → kv.1 ≠ key) →
  committed key s' = committed key s.
Proof.
  intros Hinv E Hc Hws. unfold commit_with in Hc. rewrite E in Hc.
  pose proof (inv_check_frame (conflict s) s tid t Hinv E) as Hfr.
  destruct (check_with _ _ _) as [[] recs]; [|done]. simpl in Hfr. subst recs.
  injection Hc as <-. unfold committed. simpl.
  destruct (apply_writes_frame tid (length (commit_log s)) (write_set t)
              (records s) (heap s) key) as [H1 H2]; [|done|].
  { eapply store_inv_mono; [|apply Hinv]. lia. }
  rewrite H1.
  destruct (last (chain_of (records s) key)) as [lh|] eqn:Hlast; [|done].
  simpl. rewrite H2; [done|]. by apply last_Some_elem_of.
Qed.

Lemma commit_with_next conflict tid s :
  next_tid (commit_with conflict tid s).2 = next_tid s.
Proof.
  unfold commit_with. destruct (transactions s !! tid); [|done].
  by destruct (check_with _ _ _) as [[] recs].
Qed.

Section Rounds.
Variable record : string → nat → list (string * nat) → list (string * nat).
Variable conflict : state → nat → nat → bool.
Hypothesis record_ok : records_entry record.
Hypothesis rule :
  ∀ s tid t,
    MvInv.inv s → transactions s !! tid = Some t →
    ∃ b, (commit_with conflict tid s).1 = Ok b ∧
         (b = false ↔ ∃ key l, (key, l) ∈ read_set t ∧ Props.stale s key l).

(** The commit of a transaction whose read set holds nothing stale. *)
Lemma commit_with_fresh tid s t key data ws :
  MvInv.inv s → transactions s !! tid = Some t →
  write_set t = ws ++ [(key, data)] →
  (∀ kv, kv ∈ ws → kv.1 = key) →
  (∀ k l, (k, l) ∈ read_set t → ¬ Props.stale s k l) →
  ∃ s',
    commit_with conflict tid s = (Ok true, s') ∧
    MvInv.inv s' ∧ committed key s' = Some data ∧
    (∀ k, k ≠ key → committed k s' = committed k s) ∧
    commit_log s' = commit_log s ++ [tid] ∧ next_tid s' = next_tid s.
Proof.
  intros Hinv E Hws Hkeys Hfresh.
  destruct (rule s tid t Hinv E) as (b & Hb & Hiff).
  assert (b = true) as ->.
  { destruct b; [done|]. destruct (proj1 Hiff eq_refl) as (k & l & Hin & Hst).
    by destruct (Hfresh k l Hin). }
  exists (commit_with conflict tid s).2.
  assert (commit_with conflict tid s = (Ok true, (commit_with conflict tid s).2))
    as Hc by (rewrite <- Hb; apply surjective_pairing).
  split; [done|]. split; [by apply inv_commit_with|]. split; [|split; [|split]].
  - by apply (proj2 (commit_with_applied conflict tid s _ t key E Hc) ws).
  - intros k Hk. apply (commit_with_frame_committed conflict tid s _ t k Hinv E Hc).
    intros kv. rewrite Hws. intros [Hin|Hin%list_elem_of_singleton]%elem_of_app.
    + rewrite (Hkeys kv Hin). done.
    + subst kv. done.
  - by apply (commit_with_true conflict tid s).
  - apply commit_with_next.
Qed.

Lemma mv_blind_round :
  BoardFacts.blind_round_ok new_transaction write (commit_with conflict)
                            MvInv.inv committed commit_log next_tid.
Proof.
  intros s key data Hinv.
  pose proof (inv_write (next_tid s) key data _ (inv_new_transaction s Hinv))
    as Hinv2.
  revert Hinv2. unfold new_transaction, write. simpl.
  rewrite lookup_insert_eq. simpl. intros Hinv2. split; [done|].
  destruct (commit_with_fresh (next_tid s) _
              (Txn [] [(key, data)] (length (commit_log s)) ∅)
              key data [] Hinv2)
    as (s' & Hc & Hi' & Hk & Ho & Hl & Hn).
  - simpl. by rewrite lookup_insert_eq.
  - done.
  - by intros kv ?%elem_of_nil.
  - simpl. by intros k l ?%elem_of_nil.
  - exists s'. simpl in *. by rewrite Hn.
Qed.

Lemma mv_read_round :
  BoardFacts.read_round_ok new_transaction (read_with record) write
                           (commit_with conflict)
                           MvInv.inv committed commit_log next_tid.
Proof.
  intros s key Hinv.
  pose proof (inv_new_transaction s Hinv) as Hinv1.
  pose proof (inv_read_with record (next_tid s) key _ record_ok Hinv1) as Hinv2.
  pose proof (committed_cases s key Hinv) as Hcases.
  revert Hinv1 Hinv2. unfold new_transaction. simpl. intros Hinv1 Hinv2.
  assert (transactions
            (State (records s) (heap s)
                   (<[next_tid s := Txn [] [] (length (commit_log s)) ∅]>
                      (transactions s))
                   (next_tid s + 1) (commit_log s)) !! next_tid s
          = Some (Txn [] [] (length (commit_log s)) ∅)) as E1
    by (simpl; apply lookup_insert_eq).
  rewrite (read_with_known _ _ _ _ _ E1) in Hinv2 |- *.
  simpl in *.
  destruct (committed key s) as [data|] eqn:Hcom.
  - destruct Hcases as (lh & v & Hlast & Hv & <-).
    rewrite (scan_latest s _ key lh v Hinv (le_S _ _ (le_n _)) Hlast Hv) in Hinv2 |- *.
    assert (touch key (records s) = records s) as Ht.
    { apply (touch_present _ _ lh). by apply last_Some_elem_of. }
    rewrite Ht in Hinv2 |- *. eexists. split; [done|].
    intros data'.
    pose proof (inv_write (next_tid s) key data' _ Hinv2) as Hinv3.
    revert Hinv3. unfold write. simpl. rewrite lookup_insert_eq. simpl.
    intros Hinv3. split; [done|].
    destruct (commit_with_fresh (next_tid s) _
                (Txn (record key lh []) [(key, data')] (length (commit_log s))
                     (<[key := lh]> ∅))
                key data' [] Hinv3)
      as (s' & Hc & Hi' & Hk & Ho & Hl & Hn).
    + simpl. by rewrite lookup_insert_eq.
    + done.
    + by intros kv ?%elem_of_nil.
    + simpl. intros k l [[]%elem_of_nil|[= -> ->]]%record_ok.
      intros [Hne|(v' & e & Hv' & He & _)]; simpl in *.
      * by apply Hne.
      * assert (v' = v) as -> by congruence.
        rewrite (inv_open _ _ _ (inv_store _ Hinv) _ _ _ Hlast Hv) in He. done.
    + exists s'. simpl in *. rewrite Hn. done.
  - rewrite Hcases in Hinv2 |- *. simpl in *. eexists. split; [done|].
    split; [done|]. split; [|done].
    intros k. unfold committed. simpl. by rewrite chain_of_touch.
Qed.

End Rounds.

End MvRounds.

Module CoreMore.
Import Mv MvInv MvFacts MvMore.

(** *** A write changes nothing that can be observed *)

Lemma occ_write_read tid key value tid' key' s :
  (Occ.read tid' key' (Occ.write tid key value s).2).1 = (Occ.read tid' key' s).1.
Proof.
  unfold Occ.write. destruct (Occ.transactions s !! tid) as [t|] eqn:E; [|done].
  unfold Occ.read. simpl. destruct (Occ.records s !! key'); [|done].
  destruct (decide (tid = tid')) as [<-|].
  - by rewrite lookup_insert_eq, E.
  - rewrite lookup_insert_ne by done. by destruct (Occ.transactions s !! tid').
Qed.

Lemma mv_write_read record tid key value tid' key' s :
  (read_with record tid' key' (write tid key value s).2).1
  = (read_with record tid' key' s).1.
Proof.
  unfold write. destruct (transactions s !! tid) as [t|] eqn:E; [|done].
  unfold read_with. simpl. destruct (chain_of (records s) key'); [done|].
  destruct (decide (tid = tid')) as [<-|].
  - rewrite lookup_insert_eq, E. simpl. by destruct (scan _ _ _) as [[]|].
  - rewrite lookup_insert_ne by done.
    destruct (transactions s !! tid'); [|done]. by destruct (scan _ _ _) as [[]|].
Qed.

Lemma mv_write_store tid key value s :
  records (write tid key value s).2 = records s ∧
  heap (write tid key value s).2 = heap s ∧
  commit_log (write tid key value s).2 = commit_log s.
Proof. unfold write. by destruct (transactions s !! tid). Qed.

(** *** [validate] changes nothing in a well-formed state *)

Lemma mvocc_validate_pure tid s : MvInv.inv s → (Mvocc.validate tid s).2 = s.
Proof.
  intros Hinv. unfold Mvocc.validate.
  destruct (transactions s !! tid) as [t|] eqn:E; [|done].
  pose proof (inv_check_frame (Mvocc.conflict s) s tid t Hinv E) as Hfr.
  destruct (check_with _ _ _) as [ok recs]. simpl in *. subst. by destruct s.
Qed.

(** *** Contiguity in terms of the versions of a chain *)

Lemma versions_contiguous s key i v v' :
  MvInv.inv s → MvHistory.inv s →
  versions_of s key !! i = Some v → versions_of s key !! S i = Some v' →
  ver_end_ts v = Some (ver_begin_ts v').
Proof.
  intros Hinv Hh Hi Hi'.
  pose proof (versions_of_chain s key Hinv) as F.
  destruct (Forall2_lookup_r _ _ _ _ _ F Hi) as (l & Hl & Hv).
  destruct (Forall2_lookup_r _ _ _ _ _ F Hi') as (l' & Hl' & Hv').
  exact (MvHistory.inv_contiguous _ Hh key i l l' v v' Hl Hl' Hv Hv').
Qed.

End CoreMore.

(** ** Further properties: the stores *)

(** X1 (fresh transaction ids).  In every reachable state of each class,
    [new_transaction] returns an id that no transaction has yet, registers
    it, and keeps every known transaction known. *)
Theorem transaction_ids_are_fresh :
  Story.fresh_ids occ_store ∧
  Story.fresh_ids mvocc_store ∧
  Story.fresh_ids mvcc_store.
Proof.
  assert (∀ s, MvInv.inv s →
            ¬ is_Some (Mv.transactions s !! Mv.next_tid s) ∧
            is_Some (Mv.transactions (Mv.new_transaction s).2 !! Mv.next_tid s) ∧
            ∀ tid, is_Some (Mv.transactions s !! tid) →
                   is_Some (Mv.transactions (Mv.new_transaction s).2 !! tid))
    as Hmv.
  { intros s Hinv. split; [|split].
    - intros [t E]. pose proof (MvInv.inv_tids _ Hinv _ _ E). lia.
    - simpl. rewrite lookup_insert_eq. eauto.
    - intros tid Hk. simpl. rewrite lookup_insert. case_decide; eauto. }
  split; [|split].
  - intros s Hr%OccMore.occ_reachable_inv. simpl. split; [|split].
    + intros [t E]. destruct (Hr _ _ E). lia.
    + rewrite lookup_insert_eq. eauto.
    + intros tid Hk. rewrite lookup_insert. case_decide; eauto.
  - intros s Hr%MvoccFacts.mvocc_reachable_inv. by apply Hmv.
  - intros s Hr%MvccFacts.mvcc_reachable_inv. by apply Hmv.
Qed.

Lemma transaction_ids_are_fresh_witness :
  ¬ is_Some (Occ.transactions (Occ.run contended Occ.init) !! 4) ∧
  ¬ is_Some (Mv.transactions (Mvocc.run contended Mv.init) !! 4) ∧
  ¬ is_Some (Mv.transactions (Mvcc.run contended Mv.init) !! 4).
Proof.
  destruct transaction_ids_are_fresh as (H1 & H2 & H3).
  split; [|split].
  - exact (proj1 (H1 (Occ.run contended Occ.init) (ex_intro _ contended eq_refl))).
  - exact (proj1 (H2 (Mvocc.run contended Mv.init) (ex_intro _ contended eq_refl))).
  - exact (proj1 (H3 (Mvcc.run contended Mv.init) (ex_intro _ contended eq_refl))).
Defined.

(** X2 (buffered writes are invisible).  In each class [write] changes
    neither a committed value nor the commit log, and after it every read,
    by any transaction and of any key, returns what it returned before: a
    transaction does not even read its own buffered writes. *)
Theorem buffered_writes_are_invisible :
  Story.write_invisible occ_store ∧
  Story.write_invisible mvocc_store ∧
  Story.write_invisible mvcc_store.
Proof.
  assert (∀ tid key value s k,
            Mv.committed k (Mv.write tid key value s).2 = Mv.committed k s)
    as Hcom.
  { intros tid key value s k. unfold Mv.committed.
    destruct (CoreMore.mv_write_store tid key value s) as (-> & -> & _). done. }
  split; [|split]; intros s tid key value; simpl.
  - split; [|split].
    + intros k. unfold Occ.committed, Occ.write.
      by destruct (Occ.transactions s !! tid).
    + unfold Occ.write. by destruct (Occ.transactions s !! tid).
    + intros tid' key'. apply CoreMore.occ_write_read.
  - split; [apply Hcom|]. split; [apply CoreMore.mv_write_store|].
    intros tid' key'. apply CoreMore.mv_write_read.
  - split; [apply Hcom|]. split; [apply CoreMore.mv_write_store|].
    intros tid' key'. apply CoreMore.mv_write_read.
Qed.

(** X3 (the commit log is append-only).  Whatever operations run from
    whatever state of each class, the commit log they leave extends the one
    they found. *)
Theorem commit_log_is_append_only :
  Story.log_append_only occ_store ∧
  Story.log_append_only mvocc_store ∧
  Story.log_append_only mvcc_store.
Proof.
  split; [|split]; intros s ops; simpl.
  - apply OccMore.occ_log_run.
  - rewrite MvoccFacts.mvocc_run_eq. apply MvMore.mv_log_run.
  - rewrite MvccFacts.mvcc_run_eq. apply MvMore.mv_log_run.
Qed.

(** X4 (begin timestamps).  In a reachable state of each class the begin
    timestamp of a transaction is at most the length of the commit log, and
    it stays what it is through every further operation. *)
Theorem begin_ts_never_changes :
  Story.begin_ts_fixed occ_store ∧
  Story.begin_ts_fixed mvocc_store ∧
  Story.begin_ts_fixed mvcc_store.
Proof.
  split; [|split]; intros s tid b; simpl.
  - intros Hr%OccMore.occ_reachable_inv (t & E & ->)%fmap_Some. split.
    + by destruct (Hr _ _ E).
    + intros ops. destruct (OccMore.occ_begin_run ops s tid t Hr E)
        as (t' & -> & <-). done.
  - intros [ops0 ->] (t & E & ->)%fmap_Some.
    change (st_init mvocc_store) with Mv.init in *.
    change (st_run mvocc_store) with Mvocc.run in *.
    rewrite MvoccFacts.mvocc_run_eq in E |- *. split.
    + eapply MvHistory.inv_begun; [|done].
      apply MvMore.history_run, MvoccFacts.mvocc_record_ok.
    + intros ops. rewrite MvoccFacts.mvocc_run_eq.
      destruct (MvMore.mv_begin_run Mvocc.record Mvocc.conflict ops _ tid t
                  MvoccFacts.mvocc_record_ok
                  (MvFacts.inv_run _ _ MvoccFacts.mvocc_record_ok ops0) E)
        as (t' & -> & <-). done.
  - intros [ops0 ->] (t & E & ->)%fmap_Some.
    change (st_init mvcc_store) with Mv.init in *.
    change (st_run mvcc_store) with Mvcc.run in *.
    rewrite MvccFacts.mvcc_run_eq in E |- *. split.
    + eapply MvHistory.inv_begun; [|done].
      apply MvMore.history_run, MvccFacts.mvcc_record_ok.
    + intros ops. rewrite MvccFacts.mvcc_run_eq.
      destruct (MvMore.mv_begin_run Mvcc.record Mvcc.conflict ops _ tid t
                  MvccFacts.mvcc_record_ok
                  (MvFacts.inv_run _ _ MvccFacts.mvcc_record_ok ops0) E)
        as (t' & -> & <-). done.
Qed.

Lemma begin_ts_never_changes_witness :
  st_begin_ts occ_store 2 (st_run occ_store [Commit 3] (Occ.run contended Occ.init))
    = Some 1 ∧
  st_begin_ts mvocc_store 2 (st_run mvocc_store [Commit 3] (Mvocc.run contended Mv.init))
    = Some 1 ∧
  st_begin_ts mvcc_store 2 (st_run mvcc_store [Commit 3] (Mvcc.run contended Mv.init))
    = Some 1.
Proof.
  destruct begin_ts_never_changes as (H1 & H2 & H3).
  split; [|split].
  - refine (proj2 (H1 (Occ.run contended Occ.init) 2 1
                      (ex_intro _ contended eq_refl) _) [Commit 3]).
    by_evaluation.
  - refine (proj2 (H2 (Mvocc.run contended Mv.init) 2 1
                      (ex_intro _ contended eq_refl) _) [Commit 3]).
    by_evaluation.
  - refine (proj2 (H3 (Mvcc.run contended Mv.init) 2 1
                      (ex_intro _ contended eq_refl) _) [Commit 3]).
    by_evaluation.
Defined.

(** X5 (a commit leaves the other keys alone).  A successful commit changes
    nothing under a key that is not in its write set: in the flat store the
    committed value stays; in the multi-version stores the chain, its
    version objects with their [end_ts], and the committed value stay. *)
Theorem commit_leaves_other_keys :
  (∀ s s' tid t key,
      Occ.transactions s !! tid = Some t →
      Occ.commit tid s = (Ok true, s') →
      Occ.write_set t !! key = None →
      Occ.committed key s' = Occ.committed key s) ∧
  MvStory.commit_frame Mvocc.reachable Mvocc.commit ∧
  MvStory.commit_frame Mvcc.reachable Mvcc.commit.
Proof.
  assert (∀ conflict s s' tid t key,
            MvInv.inv s → Mv.transactions s !! tid = Some t →
            Mv.commit_with conflict tid s = (Ok true, s') →
            (∀ kv, kv ∈ Mv.write_set t → kv.1 ≠ key) →
            Mv.chain_of (Mv.records s') key = Mv.chain_of (Mv.records s) key ∧
            Mv.versions_of s' key = Mv.versions_of s key ∧
            Mv.committed key s' = Mv.committed key s) as Hmv.
  { intros conflict s s' tid t key Hinv E Hc Hws.
    destruct (MvMore.commit_with_frame conflict tid s s' t key Hinv E Hc Hws).
    repeat split; try done.
    by apply (MvRounds.commit_with_frame_committed conflict tid s s' t). }
  split; [|split].
  - intros s s' tid t key E (t' & E' & _ & ->)%OccFacts.commit_true Hk.
    assert (t' = t) as -> by congruence.
    unfold Occ.committed. simpl. by apply lookup_union_r.
  - intros s s' tid t key Hr%MvoccFacts.mvocc_reachable_inv E.
    rewrite MvoccFacts.mvocc_commit_eq. by apply Hmv.
  - intros s s' tid t key Hr%MvccFacts.mvcc_reachable_inv E.
    rewrite MvccFacts.mvcc_commit_eq. by apply Hmv.
Qed.

Lemma commit_leaves_other_keys_witness :
  Occ.committed "user_2" (Occ.commit 3 (Occ.run contended Occ.init)).2
    = Occ.committed "user_2" (Occ.run contended Occ.init) ∧
  Mv.versions_of (Mvocc.commit 3 (Mvocc.run contended Mv.init)).2 "user_2"
    = Mv.versions_of (Mvocc.run contended Mv.init) "user_2" ∧
  Mv.versions_of (Mvcc.commit 3 (Mvcc.run contended Mv.init)).2 "user_2"
    = Mv.versions_of (Mvcc.run contended Mv.init) "user_2".
Proof.
  assert (∀ (kv : string * row),
            kv ∈ [(user_1, score 120)] → kv.1 ≠ "user_2"%string) as Hws.
  { intros kv ->%list_elem_of_singleton. discriminate. }
  destruct commit_leaves_other_keys as (H1 & H2 & H3).
  split; [|split].
  - apply (H1 (Occ.run contended Occ.init) _ 3
              (Occ.Txn {[ user_1 := score 100 ]} {[ user_1 := score 120 ]} 1)).
    + by_evaluation.
    + by_evaluation.
    + by_evaluation.
  - refine (proj1 (proj2 (H2 (Mvocc.run contended Mv.init) _ 3
              (Mv.Txn [(user_1, 0)] [(user_1, score 120)] 1 {[ user_1 := 0 ]})
              "user_2"%string (ex_intro _ contended eq_refl) _ _ Hws))).
    + by_evaluation.
    + by_evaluation.
  - refine (proj1 (proj2 (H3 (Mvcc.run contended Mv.init) _ 3
              (Mv.Txn [(user_1, 0)] [(user_1, score 120)] 1 {[ user_1 := 0 ]})
              "user_2"%string (ex_intro _ contended eq_refl) _ _ Hws))).
    + by_evaluation.
    + by_evaluation.
Defined.

(** X6 (first committer wins).  In the multi-version stores, after a
    successful commit that writes a key, every transaction that had read
    that key fails validation, whatever it wants to write; this includes
    the committing transaction itself, should it try to commit again. *)
Theorem first_committer_wins :
  MvStory.first_committer_wins Mvocc.reachable Mvocc.commit
                               (λ tid s, (Mvocc.validate tid s).1) ∧
  MvStory.first_committer_wins Mvocc.reachable Mvocc.commit
                               (λ tid s, (Mvocc.commit tid s).1) ∧
  MvStory.first_committer_wins Mvcc.reachable Mvcc.commit
                               (λ tid s, (Mvcc.commit tid s).1).
Proof.
  assert (∀ conflict (validation : nat → Mv.state → result bool),
            (∀ s tid t, MvInv.inv s → Mv.transactions s !! tid = Some t →
               ∃ b, validation tid s = Ok b ∧
                    (b = false ↔
                     ∃ key l, (key, l) ∈ Mv.read_set t ∧ Props.stale s key l)) →
            ∀ s s' tid t key value tid2 t2 l,
              MvInv.inv s → Mv.transactions s !! tid = Some t →
              Mv.commit_with conflict tid s = (Ok true, s') →
              (key, value) ∈ Mv.write_set t →
              Mv.transactions s !! tid2 = Some t2 → (key, l) ∈ Mv.read_set t2 →
              validation tid2 s' = Ok false) as Hmv.
  { intros conflict validation Hrule s s' tid t key value tid2 t2 l
           Hinv E Hc Hw E2 Hl.
    assert (MvInv.inv s' ∧ Mv.transactions s' = Mv.transactions s) as [Hinv' Ht].
    { replace s' with (Mv.commit_with conflict tid s).2 by by rewrite Hc.
      split; [by apply MvFacts.inv_commit_with|].
      by destruct (MvFacts.commit_with_known conflict tid s t E) as (? & _ & ?). }
    rewrite <- Ht in E2.
    destruct (Hrule s' tid2 t2 Hinv' E2) as (b & -> & Hiff).
    f_equal. apply Hiff. exists key, l. split; [done|].
    apply (MvMore.commit_with_stale conflict tid s s' t key value l);
      try done.
    rewrite Ht in E2. by eapply (MvInv.inv_refs _ Hinv). }
  split; [|split].
  - intros s s' tid t key value tid2 t2 l Hr%MvoccFacts.mvocc_reachable_inv E.
    rewrite MvoccFacts.mvocc_commit_eq.
    by apply (Hmv Mvocc.conflict _ MvoccFacts.mvocc_validate_rule).
  - intros s s' tid t key value tid2 t2 l Hr%MvoccFacts.mvocc_reachable_inv E.
    rewrite MvoccFacts.mvocc_commit_eq.
    by apply (Hmv Mvocc.conflict _ MvoccFacts.mvocc_commit_rule).
  - intros s s' tid t key value tid2 t2 l Hr%MvccFacts.mvcc_reachable_inv E.
    rewrite MvccFacts.mvcc_commit_eq.
    by apply (Hmv Mvcc.conflict _ MvccFacts.mvcc_commit_rule).
Qed.

Lemma first_committer_wins_witness :
  (Mvocc.validate 2 (Mvocc.commit 3 (Mvocc.run contended Mv.init)).2).1 = Ok false ∧
  (Mvocc.commit 2 (Mvocc.commit 3 (Mvocc.run contended Mv.init)).2).1 = Ok false ∧
  (Mvcc.commit 3 (Mvcc.commit 3 (Mvcc.run contended Mv.init)).2).1 = Ok false.
Proof.
  destruct first_committer_wins as (H1 & H2 & H3).
  split; [|split].
  - apply (H1 (Mvocc.run contended Mv.init) _ 3
              (Mv.Txn [(user_1, 0)] [(user_1, score 120)] 1 {[ user_1 := 0 ]})
              user_1 (score 120) 2
              (Mv.Txn [(user_1, 0)] [] 1 {[ user_1 := 0 ]}) 0).
    + by exists contended.
    + by_evaluation.
    + by_evaluation.
    + left.
    + by_evaluation.
    + left.
  - apply (H2 (Mvocc.run contended Mv.init) _ 3
              (Mv.Txn [(user_1, 0)] [(user_1, score 120)] 1 {[ user_1 := 0 ]})
              user_1 (score 120) 2
              (Mv.Txn [(user_1, 0)] [] 1 {[ user_1 := 0 ]}) 0).
    + by exists contended.
    + by_evaluation.
    + by_evaluation.
    + left.
    + by_evaluation.
    + left.
  - apply (H3 (Mvcc.run contended Mv.init) _ 3
              (Mv.Txn [(user_1, 0)] [(user_1, score 120)] 1 {[ user_1 := 0 ]})
              user_1 (score 120) 3
              (Mv.Txn [(user_1, 0)] [(user_1, score 120)] 1 {[ user_1 := 0 ]}) 0).
    + by exists contended.
    + by_evaluation.
    + by_evaluation.
    + left.
    + by_evaluation.
    + left.
Defined.

(** X7 (reading the last committed value).  In the multi-version stores a
    transaction reads the last committed value of any key as long as the
    commit log has at most one entry more than when the transaction began:
    that is so for a transaction just begun, and it is still so after the
    first commit that follows its begin, whose writes it therefore sees. *)
Theorem transaction_reads_latest :
  MvStory.reads_latest Mvocc.reachable Mvocc.read ∧
  MvStory.reads_latest Mvcc.reachable Mvcc.read.
Proof.
  split.
  - intros s tid t key Hr%MvoccFacts.mvocc_reachable_inv E Hlen.
    by apply (MvMore.read_with_latest _ _ _ _ t).
  - intros s tid t key Hr%MvccFacts.mvcc_reachable_inv E Hlen.
    by apply (MvMore.read_with_latest _ _ _ _ t).
Qed.

Lemma transaction_reads_latest_witness :
  (Mvocc.read 2 user_1 (Mvocc.run overtaken Mv.init)).1
    = Ok (Mv.committed user_1 (Mvocc.run overtaken Mv.init)) ∧
  (Mvcc.read 2 user_1 (Mvcc.run overtaken Mv.init)).1
    = Ok (Mv.committed user_1 (Mvcc.run overtaken Mv.init)).
Proof.
  destruct transaction_reads_latest as (H1 & H2). split.
  - apply (H1 (Mvocc.run overtaken Mv.init) 2
              (Mv.Txn [(user_1, 0)] [] 1 {[ user_1 := 0 ]})).
    + by exists overtaken.
    + by_evaluation.
    + apply le_n.
  - apply (H2 (Mvcc.run overtaken Mv.init) 2
              (Mv.Txn [(user_1, 0)] [] 1 {[ user_1 := 0 ]})).
    + by exists overtaken.
    + by_evaluation.
    + apply le_n.
Defined.

(** X8 (where a version comes from).  In every reachable state of the
    multi-version stores the [begin_ts] of a version is an index of the
    commit log and the entry at that index is the [tid] of the version: a
    version is stamped with the position its commit takes in the log. *)
Theorem versions_record_their_commit :
  MvStory.provenance Mvocc.reachable ∧ MvStory.provenance Mvcc.reachable.
Proof.
  split; intros s l v [ops ->] Hv.
  - rewrite MvoccFacts.mvocc_run_eq in Hv |- *.
    eapply MvHistory.inv_owned; [|done].
    apply MvMore.history_run, MvoccFacts.mvocc_record_ok.
  - rewrite MvccFacts.mvcc_run_eq in Hv |- *.
    eapply MvHistory.inv_owned; [|done].
    apply MvMore.history_run, MvccFacts.mvcc_record_ok.
Qed.

Lemma versions_record_their_commit_witness :
  Mv.commit_log (Mvocc.run overtaken Mv.init) !! 1 = Some 3 ∧
  Mv.commit_log (Mvcc.run overtaken Mv.init) !! 1 = Some 3.
Proof.
  destruct versions_record_their_commit as (H1 & H2). split.
  - apply (H1 (Mvocc.run overtaken Mv.init) 1 (Mv.Version (score 120) 1 None 3)).
    + by exists overtaken.
    + by_evaluation.
  - apply (H2 (Mvcc.run overtaken Mv.init) 1 (Mv.Version (score 120) 1 None 3)).
    + by exists overtaken.
    + by_evaluation.
Defined.

(** X9 (contiguous validity intervals).  In every reachable state of the
    multi-version stores, the [end_ts] of a version of a chain is the
    [begin_ts] of the version that follows it. *)
Theorem version_intervals_are_contiguous :
  MvStory.contiguous_intervals Mvocc.reachable ∧
  MvStory.contiguous_intervals Mvcc.reachable.
Proof.
  split; intros s key i v v' [ops ->].
  - rewrite MvoccFacts.mvocc_run_eq.
    apply CoreMore.versions_contiguous.
    + apply MvFacts.inv_run, MvoccFacts.mvocc_record_ok.
    + apply MvMore.history_run, MvoccFacts.mvocc_record_ok.
  - rewrite MvccFacts.mvcc_run_eq.
    apply CoreMore.versions_contiguous.
    + apply MvFacts.inv_run, MvccFacts.mvcc_record_ok.
    + apply MvMore.history_run, MvccFacts.mvcc_record_ok.
Qed.

Lemma version_intervals_are_contiguous_witness :
  Mv.ver_end_ts (Mv.Version (score 100) 0 (Some 1) 1) = Some 1 ∧
  Mv.ver_end_ts (Mv.Version (score 100) 0 (Some 1) 1) = Some 1.
Proof.
  destruct version_intervals_are_contiguous as (H1 & H2). split.
  - apply (H1 (Mvocc.run overtaken Mv.init) user_1 0
              (Mv.Version (score 100) 0 (Some 1) 1)
              (Mv.Version (score 120) 1 None 3)).
    + by exists overtaken.
    + by_evaluation.
    + by_evaluation.
  - apply (H2 (Mvcc.run overtaken Mv.init) user_1 0
              (Mv.Version (score 100) 0 (Some 1) 1)
              (Mv.Version (score 120) 1 None 3)).
    + by exists overtaken.
    + by_evaluation.
    + by_evaluation.
Defined.

(** X10 ([validate] is an observer).  In every reachable state of
    [mvocc_problem.py], calling [validate] leaves the state as it is: the
    subscripts of the [defaultdict] create nothing. *)
Theorem validate_changes_nothing :
  ∀ s tid, Mvocc.reachable s → (Mvocc.validate tid s).2 = s.
Proof.
  intros s tid Hr%MvoccFacts.mvocc_reachable_inv.
  by apply CoreMore.mvocc_validate_pure.
Qed.

Lemma validate_changes_nothing_witness :
  (Mvocc.validate 2 (Mvocc.run overtaken Mv.init)).2 = Mvocc.run overtaken Mv.init.
Proof.
  apply validate_changes_nothing. by exists overtaken.
Defined.

(** ** Further properties: the callers *)

Module BoardStores.
Import Mv MvInv MvFacts.

Lemma mvocc_rule s tid t :
  MvInv.inv s → transactions s !! tid = Some t →
  ∃ b, (commit_with Mvocc.conflict tid s).1 = Ok b ∧
       (b = false ↔ ∃ key l, (key, l) ∈ read_set t ∧ Props.stale s key l).
Proof.
  intros Hinv E. rewrite <- MvoccFacts.mvocc_commit_eq.
  by apply MvoccFacts.mvocc_commit_rule.
Qed.

Lemma mvocc_blind_round :
  BoardFacts.blind_round_ok new_transaction write Mvocc.commit
                            MvInv.inv committed commit_log next_tid.
Proof.
  intros s key data Hg. rewrite MvoccFacts.mvocc_commit_eq.
  by apply (MvRounds.mv_blind_round Mvocc.conflict mvocc_rule).
Qed.

Lemma mvocc_read_round :
  BoardFacts.read_round_ok new_transaction Mvocc.read write Mvocc.commit
                           MvInv.inv committed commit_log next_tid.
Proof.
  intros s key Hg.
  destruct (MvRounds.mv_read_round Mvocc.record Mvocc.conflict
              MvoccFacts.mvocc_record_ok mvocc_rule s key Hg) as (s1 & Hr & H).
  exists s1. split; [done|].
  destruct (committed key s); [|done].
  intros data. rewrite MvoccFacts.mvocc_commit_eq. apply H.
Qed.

Lemma mvcc_blind_round :
  BoardFacts.blind_round_ok new_transaction write Mvcc.commit
                            MvInv.inv committed commit_log next_tid.
Proof.
  apply (MvRounds.mv_blind_round Mvcc.conflict MvccFacts.mvcc_commit_rule).
Qed.

Lemma mvcc_read_round :
  BoardFacts.read_round_ok new_transaction Mvcc.read write Mvcc.commit
                           MvInv.inv committed commit_log next_tid.
Proof.
  apply (MvRounds.mv_read_round Mvcc.record Mvcc.conflict
           MvccFacts.mvcc_record_ok MvccFacts.mvcc_commit_rule).
Qed.

End BoardStores.

Module StoryFacts.

Lemma stories {St : Type} (M : store St) (good : St → Prop) :
  (∀ s, Story.reachable M s → good s) →
  BoardFacts.blind_round_ok (st_new_transaction M) (st_write M) (st_commit M)
    good (st_committed M) (st_commit_log M) (st_next_tid M) →
  BoardFacts.read_round_ok (st_new_transaction M) (st_read M) (st_write M)
    (st_commit M) good (st_committed M) (st_commit_log M) (st_next_tid M) →
  Story.loading M ∧ Story.submission_not_found M ∧ Story.submission_alone M ∧
  Story.submission_bad_score M ∧ Story.submissions_add_up M.
Proof.
  intros Hgood Hblind Hround.
  split; [|split; [|split; [|split]]].
  - intros s df Hr%Hgood Hdf.
    destruct (BoardFacts.load_initial_data_ok _ _ _ _ _ _ _ Hblind df s Hr Hdf)
      as (s' & Hl & _ & Hc & Hlog & _).
    by exists s'.
  - intros s now user_id inc Hr%Hgood Hc.
    destruct (BoardFacts.submit_alone_ok _ _ _ _ _ _ _ _ Hround now user_id inc s Hr)
      as (s' & Heq & Hfacts).
    rewrite Hc in Heq, Hfacts. unfold Story.submit. rewrite Heq. simpl.
    by destruct Hfacts as (_ & ? & ?).
  - intros s now user_id inc data z Hr%Hgood Hc Hz.
    destruct (BoardFacts.submit_alone_ok _ _ _ _ _ _ _ _ Hround now user_id inc s Hr)
      as (s' & Heq & Hfacts).
    rewrite Hc, Hz in Heq, Hfacts. unfold Story.submit. rewrite Heq. simpl.
    by destruct Hfacts as (_ & ? & ? & ? & _).
  - intros s now user_id inc data Hr%Hgood Hc.
    destruct (BoardFacts.submit_alone_ok _ _ _ _ _ _ _ _ Hround now user_id inc s Hr)
      as (s' & Heq & _).
    rewrite Hc in Heq. unfold Story.submit. rewrite Heq. simpl.
    split; [by intros ->|]. by intros str ->.
  - intros s now user_id incs data z Hr%Hgood Hc Hz.
    apply (BoardFacts.submit_all_ok _ _ _ _ _ _ _ _ Hround now user_id incs s data z
             Hr Hc Hz).
Qed.

Lemma occ_stories :
  Story.loading occ_store ∧ Story.submission_not_found occ_store ∧
  Story.submission_alone occ_store ∧ Story.submission_bad_score occ_store ∧
  Story.submissions_add_up occ_store.
Proof.
  apply (stories occ_store (λ _, True)); [done|..].
  - apply OccRounds.occ_blind_round.
  - apply OccRounds.occ_read_round.
Qed.

Lemma mvocc_stories :
  Story.loading mvocc_store ∧ Story.submission_not_found mvocc_store ∧
  Story.submission_alone mvocc_store ∧ Story.submission_bad_score mvocc_store ∧
  Story.submissions_add_up mvocc_store.
Proof.
  apply (stories mvocc_store MvInv.inv).
  - apply MvoccFacts.mvocc_reachable_inv.
  - apply BoardStores.mvocc_blind_round.
  - apply BoardStores.mvocc_read_round.
Qed.

Lemma mvcc_stories :
  Story.loading mvcc_store ∧ Story.submission_not_found mvcc_store ∧
  Story.submission_alone mvcc_store ∧ Story.submission_bad_score mvcc_store ∧
  Story.submissions_add_up mvcc_store.
Proof.
  apply (stories mvcc_store MvInv.inv).
  - apply MvccFacts.mvcc_reachable_inv.
  - apply BoardStores.mvcc_blind_round.
  - apply BoardStores.mvcc_read_round.
Qed.

End StoryFacts.

Module LeaderboardFacts.
Import Mv MvInv MvFacts.

Lemma latest_value_failed s c e :
  latest_value s c = Failed e → e = PyIndexError.
Proof.
  unfold latest_value. destruct (last c); [|by intros [= <-]].
  destruct (heap s !! _); [done|by intros [= <-]].
Qed.

Lemma collect_failed s cs e :
  collect s cs = Failed e →
  e = PyIndexError ∧ ∃ c, c ∈ cs ∧ latest_value s c = Failed PyIndexError.
Proof.
  induction cs as [|c cs IH]; simpl; [done|].
  destruct (latest_value s c) as [value|e'] eqn:Hc.
  - destruct (collect s cs) as [l|e'']; [done|]. intros [= <-].
    destruct (IH eq_refl) as (-> & c' & Hin & Hf).
    split; [done|]. exists c'. split; [by right|done].
  - intros [= <-]. pose proof (latest_value_failed _ _ _ Hc) as ->.
    split; [done|]. exists c. split; [left|done].
Qed.

Lemma collect_fails s cs c :
  c ∈ cs → latest_value s c = Failed PyIndexError →
  collect s cs = Failed PyIndexError.
Proof.
  induction cs as [|c' cs IH]; intros Hin Hf; [by apply elem_of_nil in Hin|].
  simpl. apply elem_of_cons in Hin as [<-|Hin]; [by rewrite Hf|].
  destruct (latest_value s c') as [value|e] eqn:Hc.
  - by rewrite (IH Hin Hf).
  - by rewrite (latest_value_failed _ _ _ Hc).
Qed.

Lemma user_chain_listed s key c :
  String.prefix "user_" key = true → records s !! key = Some c →
  c ∈ (filter (λ kc : string * list nat, String.prefix "user_" kc.1 = true)
              (map_to_list (records s))).*2.
Proof.
  intros Hp Hk. apply list_elem_of_fmap. exists (key, c). split; [done|].
  apply list_elem_of_filter. split; [done|]. by apply elem_of_map_to_list.
Qed.

Lemma leaderboard_values_fail s :
  MvInv.inv s →
  (leaderboard_values s = Failed PyIndexError ↔
   ∃ key, String.prefix "user_" key = true ∧ records s !! key = Some []) ∧
  (∀ e, leaderboard_values s = Failed e → e = PyIndexError).
Proof.
  intros [Hs _ _]. unfold leaderboard_values. split; [split|].
  - intros (_ & c & Hin & Hf)%collect_failed.
    apply list_elem_of_fmap in Hin as ([key c'] & -> & Hin).
    apply list_elem_of_filter in Hin as [Hp Hin%elem_of_map_to_list].
    simpl in *. exists key. split; [done|].
    destruct c' as [|l0 c'] using rev_ind; [done|]. exfalso.
    unfold latest_value in Hf. rewrite last_snoc in Hf.
    destruct (lookup_lt_is_Some_2 (heap s) l0) as [v Hv].
    { apply (inv_bound _ _ _ Hs key). unfold chain_of. rewrite Hin. simpl.
      apply elem_of_app. right. left. }
    by rewrite Hv in Hf.
  - intros (key & Hp & Hk).
    by apply (collect_fails _ _ []); [apply (user_chain_listed s key)|].
  - by intros e (-> & _)%collect_failed.
Qed.

Lemma user_key_prefix user_id : String.prefix "user_" (user_key user_id) = true.
Proof. unfold user_key. simpl. by destruct (pretty user_id). Qed.

Lemma touch_empty (recs : chains) key :
  chain_of recs key = [] → touch key recs !! key = Some [].
Proof.
  unfold chain_of, touch. destruct (recs !! key) as [c|] eqn:E; simpl.
  - by intros ->.
  - intros _. apply lookup_insert_eq.
Qed.

Lemma submit_loop_none {St : Type} (new_transaction : St → nat * St)
    (read : nat → string → St → result (option row) * St)
    (write : nat → string → row → St → result unit * St)
    (commit : nat → St → result bool * St) (during between : nat → St → St)
    (now : nat → string) (n retry_count : nat) (user_id score_increase : Z)
    (s s' : St) :
  read (new_transaction s).1 (user_key user_id) (new_transaction s).2
    = (Ok None, s') →
  submit_loop new_transaction read write commit during between now
              (S n) retry_count user_id score_increase s
  = (Returned None, s').
Proof. intros Hr. cbn [submit_loop]. by rewrite Hr. Qed.

Lemma submit_unknown record commit now user_id score_increase s :
  chain_of (records s) (user_key user_id) = [] →
  submit_problem_transaction_with new_transaction (read_with record) write commit
    (λ _ s, s) (λ _ s, s) now user_id score_increase s
  = (Returned None,
     State (touch (user_key user_id) (records s)) (heap s)
           (<[next_tid s := Txn [] [] (length (commit_log s)) ∅]> (transactions s))
           (next_tid s + 1) (commit_log s)).
Proof.
  intros Hc. unfold submit_problem_transaction_with.
  apply submit_loop_none. unfold read_with, new_transaction.
  cbn [fst snd records]. by rewrite Hc.
Qed.

Lemma unknown_user_then_leaderboard record commit now user_id score_increase s :
  MvInv.inv s → committed (user_key user_id) s = None →
  (submit_problem_transaction_with new_transaction (read_with record) write commit
     (λ _ s, s) (λ _ s, s) now user_id score_increase s).1 = Returned None ∧
  records (submit_problem_transaction_with new_transaction (read_with record)
             write commit (λ _ s, s) (λ _ s, s) now user_id score_increase s).2
    !! user_key user_id = Some [] ∧
  leaderboard_values
    (submit_problem_transaction_with new_transaction (read_with record) write
       commit (λ _ s, s) (λ _ s, s) now user_id score_increase s).2
    = Failed PyIndexError.
Proof.
  intros Hinv Hc.
  pose proof (MvRounds.committed_cases s (user_key user_id) Hinv) as Hchain.
  rewrite Hc in Hchain. rewrite (submit_unknown _ _ _ _ _ _ Hchain).
  pose proof (touch_empty _ _ Hchain) as Ht.
  split; [done|]. split; [done|].
  unfold leaderboard_values.
  apply (collect_fails _ _ []); [|done].
  apply (user_chain_listed _ (user_key user_id)); [apply user_key_prefix|done].
Qed.

End LeaderboardFacts.

Module ContendedFacts.

(** The retry loop, other threads running during its sleeps: what a
    successful attempt establishes, [won], is established by a submission
    that returns [True]. *)
Section Loop.
Context {St : Type}.
Variable new_transaction : St → nat * St.
Variable read : nat → string → St → result (option row) * St.
Variable write : nat → string → row → St → result unit * St.
Variable commit : nat → St → result bool * St.
Variable during between : nat → St → St.
Variable now : nat → string.
Variable good : St → Prop.
Variable user_id score_increase : Z.
Variable won : nat → St → St → Prop.

Definition attempt_ok : Prop :=
  ∀ i s data z ok s',
    good s →
    (read (new_transaction s).1 (user_key user_id) (new_transaction s).2).1
      = Ok (Some data) →
    data !! "Score"%string = Some (FInt z) →
    commit (new_transaction s).1
      (write (new_transaction s).1 (user_key user_id)
             (submitted (now i) score_increase z data)
             (during i (read (new_transaction s).1 (user_key user_id)
                             (new_transaction s).2).2)).2
      = (Ok ok, s') →
    if ok
    then won i (read (new_transaction s).1 (user_key user_id)
                     (new_transaction s).2).2 s'
    else good (between i s').

Lemma submit_loop_won n rc s s' :
  attempt_ok → good s →
  submit_loop new_transaction read write commit during between now
              n rc user_id score_increase s = (Returned (Some true), s') →
  ∃ i s1, rc ≤ i < rc + n ∧ won i s1 s'.
Proof.
  intros Hatt. revert rc s. induction n as [|n IH]; intros rc s Hg.
  { simpl. intros [=]. }
  cbn [submit_loop].
  destruct (read (new_transaction s).1 (user_key user_id) (new_transaction s).2)
    as [[[data|]|e] s1] eqn:Hr; cbn [fst snd]; [|intros [=]..].
  destruct (data !! "Score"%string) as [[z|str]|] eqn:Hz; [|intros [=]..].
  fold (submitted (now rc) score_increase z data).
  pose proof (Hatt rc s data z) as Hs. rewrite Hr in Hs. cbn [fst snd] in Hs.
  destruct (write (new_transaction s).1 (user_key user_id)
                  (submitted (now rc) score_increase z data) (during rc s1))
    as [[[]|e] s4] eqn:Hw; cbn [fst snd] in *; [|intros [=]].
  destruct (commit (new_transaction s).1 s4) as [[[|]|e] s5] eqn:Hc;
    cbn [fst snd]; [| |intros [=]].
  - intros [= <-]. exists rc, s1. split; [lia|].
    by apply (Hs true s5).
  - intros Hl. destruct (IH (rc + 1) (between rc s5)) as (i & s1' & Hi & Hwon).
    + by apply (Hs false s5).
    + done.
    + exists i, s1'. split; [lia|done].
Qed.

End Loop.

(** From one attempt to the submission, for a store whose [run] is made of
    its four methods. *)
Section Store.
Context {St : Type} (M : store St).
Hypothesis run_app :
  ∀ ops ops' s, st_run M (ops ++ ops') s = st_run M ops' (st_run M ops s).
Hypothesis run_new :
  ∀ s, (st_new_transaction M s).2 = st_run M [NewTransaction] s.
Hypothesis run_read :
  ∀ tid key s, (st_read M tid key s).2 = st_run M [Read tid key] s.
Hypothesis run_write :
  ∀ tid key value s, (st_write M tid key value s).2 = st_run M [Write tid key value] s.
Hypothesis run_commit :
  ∀ tid s, (st_commit M tid s).2 = st_run M [Commit tid] s.
Hypothesis attempt :
  ∀ s key data ops value ok s',
    Story.reachable M s →
    (st_read M (st_new_transaction M s).1 key (st_new_transaction M s).2).1
      = Ok (Some data) →
    (∀ tid o, st_next_tid M (st_read M (st_new_transaction M s).1 key
                                    (st_new_transaction M s).2).2 = S tid →
              o ∈ ops → ¬ uses tid o) →
    st_commit M (st_new_transaction M s).1
      (st_write M (st_new_transaction M s).1 key value
         (st_run M ops (st_read M (st_new_transaction M s).1 key
                                (st_new_transaction M s).2).2)).2
      = (Ok ok, s') →
    ∃ tid,
      st_next_tid M (st_read M (st_new_transaction M s).1 key
                            (st_new_transaction M s).2).2 = S tid ∧
      st_committed M key (st_read M (st_new_transaction M s).1 key
                                 (st_new_transaction M s).2).2 = Some data ∧
      (ok = true →
       st_committed M key
         (st_run M ops (st_read M (st_new_transaction M s).1 key
                                (st_new_transaction M s).2).2) = Some data ∧
       st_committed M key s' = Some value ∧
       (∀ k, k ≠ key →
             st_committed M k s' =
             st_committed M k
               (st_run M ops (st_read M (st_new_transaction M s).1 key
                                      (st_new_transaction M s).2).2)) ∧
       st_commit_log M s' =
       st_commit_log M
         (st_run M ops (st_read M (st_new_transaction M s).1 key
                                (st_new_transaction M s).2).2) ++ [tid]).

Lemma reachable_run ops s :
  Story.reachable M s → Story.reachable M (st_run M ops s).
Proof. intros [ops0 ->]. exists (ops0 ++ ops). by rewrite run_app. Qed.

Lemma no_lost_update_of_attempt : Story.no_lost_update M.
Proof.
  intros s s' sleeping waiting now user_id score_increase Hr Hf Hsub.
  destruct (submit_loop_won (st_new_transaction M) (st_read M) (st_write M)
              (st_commit M) (λ i s, st_run M (sleeping i s) s)
              (λ i s, st_run M (waiting i s) s) now (Story.reachable M)
              user_id score_increase
              (Story.attempt_won M sleeping now user_id score_increase)
              3 0 s s') as (i & s1 & Hi & Hwon); [|done|done|].
  2: { exists i, s1. split; [lia|done]. }
  clear s s' Hr Hsub. intros i s data z ok s' Hr Hread Hz Hc.
  assert (Story.reachable M
            (st_read M (st_new_transaction M s).1 (user_key user_id)
                     (st_new_transaction M s).2).2) as Hr1.
  { rewrite run_read, run_new. by do 2 apply reachable_run. }
  destruct (attempt s (user_key user_id) data _ _ ok s' Hr Hread
              (λ tid o Hn, Hf i _ tid o Hn) Hc)
    as (tid & Hn & Hcom & Hok).
  destruct ok.
  - exists tid, data, z. destruct (Hok eq_refl) as (H1 & H2 & H3 & H4). done.
  - assert (s' = (st_commit M (st_new_transaction M s).1
                    (st_write M (st_new_transaction M s).1 (user_key user_id)
                       (submitted (now i) score_increase z data)
                       (st_run M (sleeping i
                          (st_read M (st_new_transaction M s).1 (user_key user_id)
                             (st_new_transaction M s).2).2)
                          (st_read M (st_new_transaction M s).1 (user_key user_id)
                             (st_new_transaction M s).2).2)).2).2) as ->
      by (by rewrite Hc).
    rewrite run_commit, run_write. by do 4 apply reachable_run.
Qed.

End Store.

Lemma submit_loop_first {St : Type} (new_transaction : St → nat * St)
    (read : nat → string → St → result (option row) * St)
    (write : nat → string → row → St → result unit * St)
    (commit : nat → St → result bool * St) (during between : nat → St → St)
    (now : nat → string) (n rc : nat) (user_id score_increase : Z)
    (s s' : St) (data : row) (z : Z) :
  (read (new_transaction s).1 (user_key user_id) (new_transaction s).2).1
    = Ok (Some data) →
  data !! "Score"%string = Some (FInt z) →
  (write (new_transaction s).1 (user_key user_id)
         (submitted (now rc) score_increase z data)
         (during rc (read (new_transaction s).1 (user_key user_id)
                          (new_transaction s).2).2)).1 = Ok tt →
  commit (new_transaction s).1
    (write (new_transaction s).1 (user_key user_id)
           (submitted (now rc) score_increase z data)
           (during rc (read (new_transaction s).1 (user_key user_id)
                            (new_transaction s).2).2)).2 = (Ok true, s') →
  submit_loop new_transaction read write commit during between now
              (S n) rc user_id score_increase s = (Returned (Some true), s').
Proof.
  intros Hr Hz Hw Hc. cbn [submit_loop]. rewrite Hr, Hz.
  fold (submitted (now rc) score_increase z data). by rewrite Hw, Hc.
Qed.

Section Quiet.
Context {St : Type} (M : store St).
Hypothesis quiet_attempt :
  ∀ s key data ops value,
    Story.reachable M s → st_committed M key s = Some data →
    (∀ tid o, st_next_tid M (st_read M (st_new_transaction M s).1 key
                                    (st_new_transaction M s).2).2 = S tid →
              o ∈ ops → ¬ uses tid o) →
    (∀ o, o ∈ ops → ¬ commits o) →
    (st_read M (st_new_transaction M s).1 key (st_new_transaction M s).2).1
      = Ok (Some data) ∧
    (st_write M (st_new_transaction M s).1 key value
       (st_run M ops (st_read M (st_new_transaction M s).1 key
                              (st_new_transaction M s).2).2)).1 = Ok tt ∧
    ∃ s',
      st_commit M (st_new_transaction M s).1
        (st_write M (st_new_transaction M s).1 key value
           (st_run M ops (st_read M (st_new_transaction M s).1 key
                                  (st_new_transaction M s).2).2)).2
        = (Ok true, s') ∧
      st_committed M key s' = Some value ∧
      (∀ k, k ≠ key → st_committed M k s' = st_committed M k s) ∧
      st_commit_log M s' = st_commit_log M s ++ [st_next_tid M s].

Lemma undisturbed_of_attempt : Story.undisturbed M.
Proof.
  intros s sleeping waiting now user_id score_increase data z Hr Hf Hq Hcom Hz.
  destruct (quiet_attempt s (user_key user_id) data
              (sleeping 0 (st_read M (st_new_transaction M s).1 (user_key user_id)
                                   (st_new_transaction M s).2).2)
              (submitted (now 0) score_increase z data) Hr Hcom
              (λ tid o Hn, Hf 0 _ tid o Hn) (Hq _))
    as (Hread & Hw & s' & Hc & Hk & Ho & Hl).
  unfold Story.submit_among, submit_problem_transaction_with.
  by rewrite (submit_loop_first _ _ _ _ _ _ _ 2 0 _ _ s s' data z Hread Hz Hw Hc).
Qed.

End Quiet.

End ContendedFacts.

Module OccContended.
Import Occ.

Lemma occ_foreign_step o s tid t :
  OccInv.inv s → transactions s !! tid = Some t → ¬ uses tid o →
  transactions (step o s) !! tid = Some t.
Proof.
  intros Hinv E Hu. destruct (Hinv _ _ E) as [Hlt _].
  destruct o as [|tid' key|tid' key value|tid']; unfold step, perform; simpl in *.
  - rewrite lookup_insert_ne; [done|lia].
  - unfold read. destruct (records s !! key); [|done].
    destruct (transactions s !! tid'); [|done]. simpl.
    by rewrite lookup_insert_ne.
  - unfold write. destruct (transactions s !! tid'); [|done]. simpl.
    by rewrite lookup_insert_ne.
  - unfold commit. destruct (validate tid' s) as [[|]|]; [|done..].
    by destruct (transactions s !! tid').
Qed.

Lemma occ_foreign_run ops s tid t :
  OccInv.inv s → transactions s !! tid = Some t →
  (∀ o, o ∈ ops → ¬ uses tid o) →
  transactions (run ops s) !! tid = Some t.
Proof.
  revert s. induction ops as [|o ops IH]; intros s Hinv E Hu; [done|].
  simpl. apply IH.
  - by apply OccMore.occ_inv_step.
  - apply occ_foreign_step; [done..|]. apply Hu. left.
  - intros o' Ho'. apply Hu. by right.
Qed.

Lemma occ_attempt s key data ops value ok s' :
  reachable s →
  (read (new_transaction s).1 key (new_transaction s).2).1 = Ok (Some data) →
  (∀ tid o, next_tid (read (new_transaction s).1 key (new_transaction s).2).2
            = S tid → o ∈ ops → ¬ uses tid o) →
  commit (new_transaction s).1
    (write (new_transaction s).1 key value
       (run ops (read (new_transaction s).1 key (new_transaction s).2).2)).2
    = (Ok ok, s') →
  ∃ tid,
    next_tid (read (new_transaction s).1 key (new_transaction s).2).2 = S tid ∧
    committed key (read (new_transaction s).1 key (new_transaction s).2).2
      = Some data ∧
    (ok = true →
     committed key
       (run ops (read (new_transaction s).1 key (new_transaction s).2).2)
       = Some data ∧
     committed key s' = Some value ∧
     (∀ k, k ≠ key →
           committed k s' =
           committed k
             (run ops (read (new_transaction s).1 key (new_transaction s).2).2)) ∧
     commit_log s' =
     commit_log
       (run ops (read (new_transaction s).1 key (new_transaction s).2).2)
       ++ [tid]).
Proof.
  intros Hr.
  assert (OccInv.inv (read (new_transaction s).1 key (new_transaction s).2).2)
    as Hinv1.
  { apply OccMore.occ_reachable_inv in Hr.
    apply (OccMore.occ_inv_run [NewTransaction; Read (next_tid s) key] s Hr). }
  revert Hinv1. unfold new_transaction, read. cbn [fst snd records transactions].
  destruct (records s !! key) as [v|] eqn:Ek; [|done].
  rewrite lookup_insert_eq. cbn [fst snd]. intros Hinv1 [= ->] Hf Hc.
  exists (next_tid s). split; [simpl; lia|]. split; [done|].
  intros ->.
  set (s1 := State _ _ _ _) in *.
  assert (transactions (run ops s1) !! next_tid s
          = Some (Txn (<[key := data]> ∅) ∅ (length (commit_log s)))) as E3.
  { apply occ_foreign_run; [done|by simpl; rewrite lookup_insert_eq|].
    intros o Ho. apply (Hf (next_tid s)); [simpl; lia|done]. }
  revert Hc. unfold write. rewrite E3. cbn [fst snd].
  intros (t & E & V & ->)%OccFacts.commit_true.
  simpl in E. rewrite lookup_insert_eq in E. injection E as <-.
  rewrite (OccFacts.validate_true _ _ _ (lookup_insert_eq _ _ _)) in V.
  simpl in V. unfold committed. simpl.
  split; [apply V, lookup_insert_eq|]. split; [|split; [|done]].
  - apply lookup_union_Some_l, lookup_insert_eq.
  - intros k Hk. rewrite lookup_union_r; [done|].
    by rewrite lookup_insert_ne, lookup_empty.
Qed.

Lemma occ_quiet_step o s :
  ¬ commits o →
  records (step o s) = records s ∧ commit_log (step o s) = commit_log s.
Proof.
  intros Hq. destruct o as [|tid key|tid key value|tid]; unfold step, perform;
    simpl in *; [done| | |tauto].
  - unfold read. destruct (records s !! key); [|done].
    by destruct (transactions s !! tid).
  - unfold write. by destruct (transactions s !! tid).
Qed.

Lemma occ_quiet_run ops s :
  (∀ o, o ∈ ops → ¬ commits o) →
  records (run ops s) = records s ∧ commit_log (run ops s) = commit_log s.
Proof.
  revert s. induction ops as [|o ops IH]; intros s Hq; [done|].
  simpl. destruct (IH (step o s)) as [-> ->]; [intros o' Ho'; apply Hq; by right|].
  apply occ_quiet_step, Hq. left.
Qed.

Lemma occ_quiet_attempt s key data ops value :
  reachable s → committed key s = Some data →
  (∀ tid o, next_tid (read (new_transaction s).1 key (new_transaction s).2).2
            = S tid → o ∈ ops → ¬ uses tid o) →
  (∀ o, o ∈ ops → ¬ commits o) →
  (read (new_transaction s).1 key (new_transaction s).2).1 = Ok (Some data) ∧
  (write (new_transaction s).1 key value
     (run ops (read (new_transaction s).1 key (new_transaction s).2).2)).1
    = Ok tt ∧
  ∃ s',
    commit (new_transaction s).1
      (write (new_transaction s).1 key value
         (run ops (read (new_transaction s).1 key (new_transaction s).2).2)).2
      = (Ok true, s') ∧
    committed key s' = Some value ∧
    (∀ k, k ≠ key → committed k s' = committed k s) ∧
    commit_log s' = commit_log s ++ [next_tid s].
Proof.
  intros Hr Hcom.
  assert (OccInv.inv (read (new_transaction s).1 key (new_transaction s).2).2)
    as Hinv1.
  { apply OccMore.occ_reachable_inv in Hr.
    apply (OccMore.occ_inv_run [NewTransaction; Read (next_tid s) key] s Hr). }
  revert Hinv1. unfold committed in Hcom.
  unfold new_transaction, read. cbn [fst snd records transactions].
  rewrite Hcom, lookup_insert_eq. cbn [fst snd]. intros Hinv1 Hf Hq.
  split; [done|].
  set (s1 := State _ _ _ _) in *.
  assert (transactions (run ops s1) !! next_tid s
          = Some (Txn (<[key := data]> ∅) ∅ (length (commit_log s)))) as E3.
  { apply occ_foreign_run; [done|by simpl; rewrite lookup_insert_eq|].
    intros o Ho. apply (Hf (next_tid s)); [simpl; lia|done]. }
  destruct (occ_quiet_run ops s1 Hq) as [Hrec Hlog]. simpl in Hrec, Hlog.
  unfold write. rewrite E3. cbn [fst snd]. split; [done|].
  eexists. split.
  - apply OccRounds.occ_commit_valid; [by simpl; rewrite lookup_insert_eq|].
    eapply OccFacts.validate_true; [by simpl; rewrite lookup_insert_eq|].
    simpl. rewrite Hrec.
    intros k v [[<- <-]|[_ H]]%lookup_insert_Some; [done|].
    by rewrite lookup_empty in H.
  - unfold committed. simpl. rewrite Hrec, Hlog.
    split; [|split; [|done]].
    + apply lookup_union_Some_l, lookup_insert_eq.
    + intros k Hk. rewrite lookup_union_r; [done|].
      by rewrite lookup_insert_ne, lookup_empty.
Qed.

Lemma occ_undisturbed : Story.undisturbed occ_store.
Proof.
  apply ContendedFacts.undisturbed_of_attempt.
  intros s key data ops value. apply occ_quiet_attempt.
Qed.

Lemma occ_no_lost_update : Story.no_lost_update occ_store.
Proof.
  apply ContendedFacts.no_lost_update_of_attempt.
  - intros ops ops' s. apply foldl_app.
  - done.
  - done.
  - done.
  - done.
  - intros s key data ops value ok s'. apply occ_attempt.
Qed.

End OccContended.

Module MvContended.
Import Mv MvInv MvFacts.

Lemma mv_foreign_step record conflict o s tid t :
  inv s → transactions s !! tid = Some t → ¬ uses tid o →
  transactions (step_with record conflict o s) !! tid = Some t.
Proof.
  intros Hinv E Hu. pose proof (inv_tids _ Hinv _ _ E) as Hlt.
  destruct o as [|tid' key|tid' key value|tid']; unfold step_with; simpl in *.
  - rewrite lookup_insert_ne; [done|lia].
  - unfold read_with. destruct (chain_of (records s) key); [done|].
    destruct (transactions s !! tid'); [|done].
    destruct (scan _ _ _) as [[l0 v0]|]; [|done]. simpl.
    by rewrite lookup_insert_ne.
  - unfold write. destruct (transactions s !! tid'); [|done]. simpl.
    by rewrite lookup_insert_ne.
  - destruct (transactions s !! tid') as [t'|] eqn:E'.
    + by destruct (commit_with_known conflict tid' s t' E') as (b & _ & ->).
    + unfold commit_with. by rewrite E'.
Qed.

Lemma mv_foreign_run record conflict ops s tid t :
  records_entry record →
  inv s → transactions s !! tid = Some t →
  (∀ o, o ∈ ops → ¬ uses tid o) →
  transactions (run_with record conflict ops s) !! tid = Some t.
Proof.
  intros Hrec. revert s. induction ops as [|o ops IH]; intros s Hinv E Hu; [done|].
  simpl. apply IH.
  - by apply inv_step.
  - apply mv_foreign_step; [done..|]. apply Hu. left.
  - intros o' Ho'. apply Hu. by right.
Qed.

Lemma mv_value_run record conflict ops s l v :
  heap s !! l = Some v →
  ∃ v', heap (run_with record conflict ops s) !! l = Some v' ∧
        ver_value v' = ver_value v.
Proof.
  revert s v. induction ops as [|o ops IH]; intros s v Hv; [by exists v|].
  destruct (proj2 (step_appends record conflict o s "") l v Hv)
    as (v1 & Hv1 & Hval & _).
  destruct (IH _ _ Hv1) as (v' & Hv' & Hval').
  exists v'. split; [done|]. by rewrite Hval'.
Qed.

Lemma mv_quiet_step record conflict o s :
  ¬ commits o →
  heap (step_with record conflict o s) = heap s ∧
  commit_log (step_with record conflict o s) = commit_log s ∧
  ∀ k, chain_of (records (step_with record conflict o s)) k
       = chain_of (records s) k.
Proof.
  intros Hq. destruct o as [|tid key|tid key value|tid]; unfold step_with;
    simpl in *; [done| | |tauto].
  - unfold read_with. destruct (chain_of (records s) key).
    { simpl. split; [done|]. split; [done|]. intros k. apply chain_of_touch. }
    destruct (transactions s !! tid).
    2: { simpl. split; [done|]. split; [done|]. intros k. apply chain_of_touch. }
    destruct (scan _ _ _) as [[l0 v0]|]; simpl;
      (split; [done|]; split; [done|]; intros k; apply chain_of_touch).
  - unfold write. by destruct (transactions s !! tid).
Qed.

Lemma mv_quiet_run record conflict ops s :
  (∀ o, o ∈ ops → ¬ commits o) →
  heap (run_with record conflict ops s) = heap s ∧
  commit_log (run_with record conflict ops s) = commit_log s ∧
  ∀ k, chain_of (records (run_with record conflict ops s)) k
       = chain_of (records s) k.
Proof.
  revert s. induction ops as [|o ops IH]; intros s Hq; [done|].
  simpl.
  destruct (IH (step_with record conflict o s)) as (-> & -> & Hc);
    [intros o' Ho'; apply Hq; by right|].
  destruct (mv_quiet_step record conflict o s) as (-> & -> & Hc');
    [apply Hq; left|].
  split; [done|]. split; [done|]. intros k. by rewrite Hc, Hc'.
Qed.

Section Attempt.
Variable record : string → nat → list (string * nat) → list (string * nat).
Variable conflict : state → nat → nat → bool.
Hypothesis record_ok : records_entry record.
Hypothesis rule :
  ∀ s tid t,
    MvInv.inv s → transactions s !! tid = Some t →
    ∃ b, (commit_with conflict tid s).1 = Ok b ∧
         (b = false ↔ ∃ key l, (key, l) ∈ read_set t ∧ Props.stale s key l).

Lemma mv_attempt s key data ops value ok s' :
  inv s →
  (read_with record (new_transaction s).1 key (new_transaction s).2).1
    = Ok (Some data) →
  (∀ tid o, next_tid (read_with record (new_transaction s).1 key
                                (new_transaction s).2).2 = S tid →
            o ∈ ops → ¬ uses tid o) →
  commit_with conflict (new_transaction s).1
    (write (new_transaction s).1 key value
       (run_with record conflict ops
          (read_with record (new_transaction s).1 key (new_transaction s).2).2)).2
    = (Ok ok, s') →
  ∃ tid,
    next_tid (read_with record (new_transaction s).1 key (new_transaction s).2).2
      = S tid ∧
    committed key (read_with record (new_transaction s).1 key
                             (new_transaction s).2).2 = Some data ∧
    (ok = true →
     committed key
       (run_with record conflict ops
          (read_with record (new_transaction s).1 key (new_transaction s).2).2)
       = Some data ∧
     committed key s' = Some value ∧
     (∀ k, k ≠ key →
           committed k s' =
           committed k
             (run_with record conflict ops
                (read_with record (new_transaction s).1 key
                           (new_transaction s).2).2)) ∧
     commit_log s' =
     commit_log
       (run_with record conflict ops
          (read_with record (new_transaction s).1 key (new_transaction s).2).2)
       ++ [tid]).
Proof.
  intros Hinv.
  pose proof (inv_new_transaction s Hinv) as Hinv1.
  pose proof (inv_read_with record (next_tid s) key _ record_ok Hinv1) as Hinv2.
  pose proof (MvRounds.committed_cases s key Hinv) as Hcases.
  revert Hinv1 Hinv2. unfold new_transaction. cbn [fst snd]. intros Hinv1 Hinv2.
  assert (transactions
            (State (records s) (heap s)
                   (<[next_tid s := Txn [] [] (length (commit_log s)) ∅]>
                      (transactions s))
                   (next_tid s + 1) (commit_log s)) !! next_tid s
          = Some (Txn [] [] (length (commit_log s)) ∅)) as E1
    by (simpl; apply lookup_insert_eq).
  rewrite (read_with_known _ _ _ _ _ E1) in Hinv2 |- *.
  cbn [records heap begin_ts read_set write_set snapshot transactions
       next_tid commit_log] in *.
  destruct (committed key s) as [data0|] eqn:Hcom.
  2: { rewrite Hcases. simpl. done. }
  destruct Hcases as (lh & v & Hlast & Hv & <-).
  rewrite (MvRounds.scan_latest s _ key lh v Hinv (le_S _ _ (le_n _)) Hlast Hv)
    in Hinv2 |- *.
  assert (touch key (records s) = records s) as Ht.
  { apply (touch_present _ _ lh). by apply last_Some_elem_of. }
  rewrite Ht in Hinv2 |- *. cbn [fst snd] in *. clear E1 Hinv1.
  set (t1 := Txn (record key lh []) [] (length (commit_log s)) (<[key := lh]> ∅))
    in *.
  set (s1 := State (records s) (heap s) (<[next_tid s := t1]> _)
                   (next_tid s + 1) (commit_log s)) in *.
  intros [= <-] Hf Hc.
  exists (next_tid s). split; [simpl; lia|].
  split. { unfold committed. simpl. rewrite Hlast. simpl. by rewrite Hv. }
  intros ->.
  set (s3 := run_with record conflict ops s1) in *.
  assert (inv s3) as Hinv3 by (by apply inv_run_from).
  assert (transactions s3 !! next_tid s = Some t1) as E3.
  { apply mv_foreign_run; [done..|by simpl; rewrite lookup_insert_eq|].
    intros o Ho. apply (Hf (next_tid s)); [simpl; lia|done]. }
  destruct (mv_value_run record conflict ops s1 lh v Hv) as (v3 & Hv3 & Hval3).
  fold s3 in Hv3.
  pose proof (inv_write (next_tid s) key value _ Hinv3) as Hinv4.
  revert Hinv4 Hc. unfold write. rewrite E3. cbn [fst snd].
  set (t4 := Txn _ _ _ _). set (s4 := State _ _ _ _ _). intros Hinv4 Hc.
  assert (transactions s4 !! next_tid s = Some t4) as E4
    by (simpl; apply lookup_insert_eq).
  destruct (rule s4 (next_tid s) t4 Hinv4 E4) as (b & Hb & Hiff).
  rewrite Hc in Hb. injection Hb as <-.
  assert (∀ k l, (k, l) ∈ read_set t4 → ¬ Props.stale s4 k l) as Hfresh.
  { intros k l Hin Hst.
    discriminate (proj2 Hiff (ex_intro _ k (ex_intro _ l (conj Hin Hst)))). }
  assert (last (chain_of (records s3) key) = Some lh) as Hlast3.
  { destruct (decide (last (chain_of (records s3) key) = Some lh)) as [|Hne];
      [done|].
    destruct (Hfresh key lh); [|by left].
    apply (proj1 (record_ok key lh [])). }
  destruct (MvRounds.commit_with_fresh conflict rule
              (next_tid s) s4 t4 key value [] Hinv4 E4)
    as (s'' & Hc' & _ & Hk & Ho & Hl & _).
  - done.
  - by intros kv ?%elem_of_nil.
  - done.
  - rewrite Hc in Hc'. injection Hc' as <-.
    split; [|done].
    unfold committed. rewrite Hlast3. simpl. rewrite Hv3. simpl. by rewrite Hval3.
Qed.

Lemma mv_quiet_attempt s key data ops value :
  inv s → committed key s = Some data →
  (∀ tid o, next_tid (read_with record (new_transaction s).1 key
                                (new_transaction s).2).2 = S tid →
            o ∈ ops → ¬ uses tid o) →
  (∀ o, o ∈ ops → ¬ commits o) →
  (read_with record (new_transaction s).1 key (new_transaction s).2).1
    = Ok (Some data) ∧
  (write (new_transaction s).1 key value
     (run_with record conflict ops
        (read_with record (new_transaction s).1 key (new_transaction s).2).2)).1
    = Ok tt ∧
  ∃ s',
    commit_with conflict (new_transaction s).1
      (write (new_transaction s).1 key value
         (run_with record conflict ops
            (read_with record (new_transaction s).1 key
                       (new_transaction s).2).2)).2
      = (Ok true, s') ∧
    committed key s' = Some value ∧
    (∀ k, k ≠ key → committed k s' = committed k s) ∧
    commit_log s' = commit_log s ++ [next_tid s].
Proof.
  intros Hinv Hcom.
  pose proof (inv_new_transaction s Hinv) as Hinv1.
  pose proof (inv_read_with record (next_tid s) key _ record_ok Hinv1) as Hinv2.
  pose proof (MvRounds.committed_cases s key Hinv) as Hcases.
  rewrite Hcom in Hcases. destruct Hcases as (lh & v & Hlast & Hv & <-).
  revert Hinv1 Hinv2. unfold new_transaction. cbn [fst snd]. intros Hinv1 Hinv2.
  assert (transactions
            (State (records s) (heap s)
                   (<[next_tid s := Txn [] [] (length (commit_log s)) ∅]>
                      (transactions s))
                   (next_tid s + 1) (commit_log s)) !! next_tid s
          = Some (Txn [] [] (length (commit_log s)) ∅)) as E1
    by (simpl; apply lookup_insert_eq).
  rewrite (read_with_known _ _ _ _ _ E1) in Hinv2 |- *.
  cbn [records heap begin_ts read_set write_set snapshot transactions
       next_tid commit_log] in *.
  rewrite (MvRounds.scan_latest s _ key lh v Hinv (le_S _ _ (le_n _)) Hlast Hv)
    in Hinv2 |- *.
  assert (touch key (records s) = records s) as Ht.
  { apply (touch_present _ _ lh). by apply last_Some_elem_of. }
  rewrite Ht in Hinv2 |- *. cbn [fst snd] in *. clear E1 Hinv1.
  set (t1 := Txn (record key lh []) [] (length (commit_log s)) (<[key := lh]> ∅))
    in *.
  set (s1 := State (records s) (heap s) (<[next_tid s := t1]> _)
                   (next_tid s + 1) (commit_log s)) in *.
  intros Hf Hq. split; [done|].
  set (s3 := run_with record conflict ops s1) in *.
  assert (inv s3) as Hinv3 by (by apply inv_run_from).
  assert (transactions s3 !! next_tid s = Some t1) as E3.
  { apply mv_foreign_run; [done..|by simpl; rewrite lookup_insert_eq|].
    intros o Ho. apply (Hf (next_tid s)); [simpl; lia|done]. }
  destruct (mv_quiet_run record conflict ops s1 Hq) as (Hheap & Hlog & Hchain).
  fold s3 in Hheap, Hlog, Hchain. simpl in Hheap, Hlog, Hchain.
  pose proof (inv_write (next_tid s) key value _ Hinv3) as Hinv4.
  revert Hinv4. unfold write. rewrite E3. cbn [fst snd].
  set (t4 := Txn _ _ _ _). set (s4 := State _ _ _ _ _). intros Hinv4.
  split; [done|].
  assert (transactions s4 !! next_tid s = Some t4) as E4
    by (simpl; apply lookup_insert_eq).
  assert (∀ k, committed k s4 = committed k s) as Hsame.
  { intros k. unfold committed. simpl. by rewrite Hchain, Hheap. }
  destruct (MvRounds.commit_with_fresh conflict rule
              (next_tid s) s4 t4 key value [] Hinv4 E4)
    as (s' & Hc & _ & Hk & Ho & Hl & _).
  - done.
  - by intros kv ?%elem_of_nil.
  - simpl. intros k l [[]%elem_of_nil|[= -> ->]]%record_ok.
    intros [Hne|(v' & e & Hv' & He & _)]; simpl in *.
    + apply Hne. by rewrite Hchain.
    + rewrite Hheap in Hv'. assert (v' = v) as -> by congruence.
      rewrite (inv_open _ _ _ (inv_store _ Hinv) _ _ _ Hlast Hv) in He. done.
  - exists s'. split; [done|]. split; [done|]. split.
    + intros k Hne. by rewrite (Ho k Hne).
    + rewrite Hl. simpl. by rewrite Hlog.
Qed.

End Attempt.

Lemma mvocc_undisturbed : Story.undisturbed mvocc_store.
Proof.
  apply ContendedFacts.undisturbed_of_attempt.
  intros s key data ops value Hr%MvoccFacts.mvocc_reachable_inv.
  change (st_run mvocc_store) with Mvocc.run.
  change (st_commit mvocc_store) with Mvocc.commit.
  rewrite MvoccFacts.mvocc_run_eq.
  setoid_rewrite MvoccFacts.mvocc_commit_eq.
  apply (mv_quiet_attempt Mvocc.record Mvocc.conflict MvoccFacts.mvocc_record_ok
                          BoardStores.mvocc_rule); done.
Qed.

Lemma mvcc_undisturbed : Story.undisturbed mvcc_store.
Proof.
  apply ContendedFacts.undisturbed_of_attempt.
  intros s key data ops value Hr%MvccFacts.mvcc_reachable_inv.
  change (st_run mvcc_store) with Mvcc.run.
  change (st_commit mvcc_store) with Mvcc.commit.
  rewrite MvccFacts.mvcc_run_eq.
  setoid_rewrite MvccFacts.mvcc_commit_eq.
  apply (mv_quiet_attempt Mvcc.record Mvcc.conflict MvccFacts.mvcc_record_ok);
    [|done].
  intros s0 tid t Hinv E. rewrite <- MvccFacts.mvcc_commit_eq.
  by apply MvccFacts.mvcc_commit_rule.
Qed.

Lemma mvocc_no_lost_update : Story.no_lost_update mvocc_store.
Proof.
  apply ContendedFacts.no_lost_update_of_attempt.
  - intros ops ops' s. apply foldl_app.
  - done.
  - done.
  - done.
  - done.
  - intros s key data ops value ok s' Hr%MvoccFacts.mvocc_reachable_inv.
    change (st_run mvocc_store) with Mvocc.run.
    change (st_commit mvocc_store) with Mvocc.commit.
    rewrite MvoccFacts.mvocc_run_eq, MvoccFacts.mvocc_commit_eq.
    apply (mv_attempt Mvocc.record Mvocc.conflict MvoccFacts.mvocc_record_ok
                      BoardStores.mvocc_rule); done.
Qed.

Lemma mvcc_no_lost_update : Story.no_lost_update mvcc_store.
Proof.
  apply ContendedFacts.no_lost_update_of_attempt.
  - intros ops ops' s. apply foldl_app.
  - done.
  - done.
  - done.
  - done.
  - intros s key data ops value ok s' Hr%MvccFacts.mvcc_reachable_inv.
    change (st_run mvcc_store) with Mvcc.run.
    change (st_commit mvcc_store) with Mvcc.commit.
    rewrite MvccFacts.mvcc_run_eq, MvccFacts.mvcc_commit_eq.
    apply (mv_attempt Mvcc.record Mvcc.conflict MvccFacts.mvcc_record_ok);
      [|done].
    intros s0 tid t Hinv E. rewrite <- MvccFacts.mvcc_commit_eq.
    by apply MvccFacts.mvcc_commit_rule.
Qed.

End MvContended.

(** X11 (loading).  In a reachable state of each class, [load_initial_data]
    on rows that all carry a user id commits every row with a transaction
    of its own: all user ids are printed as loaded, the ids of the new
    transactions are appended to the commit log in order, each key ends up
    with the last row loaded under it, and every other key keeps its
    committed value. *)
Theorem load_initial_data_commits_every_row :
  Story.loading occ_store ∧ Story.loading mvocc_store ∧ Story.loading mvcc_store.
Proof.
  split; [|split].
  - apply StoryFacts.occ_stories.
  - apply StoryFacts.mvocc_stories.
  - apply StoryFacts.mvcc_stories.
Qed.

Lemma sample_rows_have_ids :
  Forall (λ data : row, is_Some (data !! "UserID"%string)) load_sample_data.
Proof.
  repeat (constructor; [eexists; vm_compute; reflexivity|]). constructor.
Qed.

Lemma load_initial_data_commits_every_row_witness :
  (∃ s',
      load_initial_data (st_new_transaction occ_store) (st_write occ_store)
                        (st_commit occ_store) load_sample_data Occ.init
      = (Returned (omap (λ data, data !! "UserID"%string) load_sample_data), s')) ∧
  (∃ s',
      load_initial_data (st_new_transaction mvocc_store) (st_write mvocc_store)
                        (st_commit mvocc_store) load_sample_data Mv.init
      = (Returned (omap (λ data, data !! "UserID"%string) load_sample_data), s')) ∧
  (∃ s',
      load_initial_data (st_new_transaction mvcc_store) (st_write mvcc_store)
                        (st_commit mvcc_store) load_sample_data Mv.init
      = (Returned (omap (λ data, data !! "UserID"%string) load_sample_data), s')).
Proof.
  destruct load_initial_data_commits_every_row as (H1 & H2 & H3).
  split; [|split].
  - destruct (H1 Occ.init load_sample_data (ex_intro _ [] eq_refl)
                 sample_rows_have_ids) as (s' & Heq & _).
    exists s'. exact Heq.
  - destruct (H2 Mv.init load_sample_data (ex_intro _ [] eq_refl)
                 sample_rows_have_ids) as (s' & Heq & _).
    exists s'. exact Heq.
  - destruct (H3 Mv.init load_sample_data (ex_intro _ [] eq_refl)
                 sample_rows_have_ids) as (s' & Heq & _).
    exists s'. exact Heq.
Defined.

Import BoardScenario.

(** X12 (submission, user not found).  In a reachable state of each class,
    [submit_problem_transaction] for a user that has no committed record
    takes the bare [return] in its first attempt: no committed value
    changes and the commit log stays as it was. *)
Theorem submission_for_unknown_user :
  Story.submission_not_found occ_store ∧ Story.submission_not_found mvocc_store ∧
  Story.submission_not_found mvcc_store.
Proof.
  split; [|split].
  - apply StoryFacts.occ_stories.
  - apply StoryFacts.mvocc_stories.
  - apply StoryFacts.mvcc_stories.
Qed.

Lemma submission_for_unknown_user_witness :
  (Story.submit occ_store stamp 2 50
     (st_run occ_store load (st_init occ_store))).1 = Returned None ∧
  (Story.submit mvocc_store stamp 2 50
     (st_run mvocc_store load (st_init mvocc_store))).1 = Returned None ∧
  (Story.submit mvcc_store stamp 2 50
     (st_run mvcc_store load (st_init mvcc_store))).1 = Returned None.
Proof.
  destruct submission_for_unknown_user as (H1 & H2 & H3).
  split; [|split].
  - refine (proj1 (H1 _ stamp 2%Z 50%Z (ex_intro _ load eq_refl) _)).
    by_evaluation.
  - refine (proj1 (H2 _ stamp 2%Z 50%Z (ex_intro _ load eq_refl) _)).
    by_evaluation.
  - refine (proj1 (H3 _ stamp 2%Z 50%Z (ex_intro _ load eq_refl) _)).
    by_evaluation.
Defined.

(** X13 (submission, nothing else running).  In a reachable state of each
    class, [submit_problem_transaction] for a user whose committed record
    has an integer score returns [True] after one attempt: the record gets
    the increased score and the date of that attempt, every other key
    keeps its committed value, and the commit log gets exactly one entry,
    the id of the transaction of that attempt. *)
Theorem submission_alone_commits :
  Story.submission_alone occ_store ∧ Story.submission_alone mvocc_store ∧
  Story.submission_alone mvcc_store.
Proof.
  split; [|split].
  - apply StoryFacts.occ_stories.
  - apply StoryFacts.mvocc_stories.
  - apply StoryFacts.mvcc_stories.
Qed.

Lemma submission_alone_commits_witness :
  (Story.submit occ_store stamp 1 50
     (st_run occ_store load (st_init occ_store))).1 = Returned (Some true) ∧
  (Story.submit mvocc_store stamp 1 50
     (st_run mvocc_store load (st_init mvocc_store))).1 = Returned (Some true) ∧
  (Story.submit mvcc_store stamp 1 50
     (st_run mvcc_store load (st_init mvcc_store))).1 = Returned (Some true).
Proof.
  destruct submission_alone_commits as (H1 & H2 & H3).
  split; [|split].
  - refine (proj1 (H1 _ stamp 1%Z 50%Z (score 100) 100%Z
                      (ex_intro _ load eq_refl) _ _)); by_evaluation.
  - refine (proj1 (H2 _ stamp 1%Z 50%Z (score 100) 100%Z
                      (ex_intro _ load eq_refl) _ _)); by_evaluation.
  - refine (proj1 (H3 _ stamp 1%Z 50%Z (score 100) 100%Z
                      (ex_intro _ load eq_refl) _ _)); by_evaluation.
Defined.

(** X14 (submission, bad score).  In a reachable state of each class,
    [submit_problem_transaction] for a user whose committed record has no
    [Score] raises [KeyError], and for one whose [Score] is a string it
    raises [TypeError]: neither is caught by the retry loop. *)
Theorem submission_with_bad_score_raises :
  Story.submission_bad_score occ_store ∧ Story.submission_bad_score mvocc_store ∧
  Story.submission_bad_score mvcc_store.
Proof.
  split; [|split].
  - apply StoryFacts.occ_stories.
  - apply StoryFacts.mvocc_stories.
  - apply StoryFacts.mvcc_stories.
Qed.

Lemma submission_with_bad_score_raises_witness :
  (Story.submit occ_store stamp 1 50
     (st_run occ_store load_no_score (st_init occ_store))).1
    = Failed PyKeyError ∧
  (Story.submit mvocc_store stamp 1 50
     (st_run mvocc_store load_text_score (st_init mvocc_store))).1
    = Failed PyTypeError ∧
  (Story.submit mvcc_store stamp 1 50
     (st_run mvcc_store load_text_score (st_init mvcc_store))).1
    = Failed PyTypeError.
Proof.
  destruct submission_with_bad_score_raises as (H1 & H2 & H3).
  split; [|split].
  - refine (proj1 (H1 _ stamp 1%Z 50%Z (∅ : row)
                      (ex_intro _ load_no_score eq_refl) _) _); by_evaluation.
  - refine (proj2 (H2 _ stamp 1%Z 50%Z {[ "Score"%string := FStr "high" ]}
                      (ex_intro _ load_text_score eq_refl) _) "high"%string _);
      by_evaluation.
  - refine (proj2 (H3 _ stamp 1%Z 50%Z {[ "Score"%string := FStr "high" ]}
                      (ex_intro _ load_text_score eq_refl) _) "high"%string _);
      by_evaluation.
Defined.

(** X15 (submissions add up).  In a reachable state of each class, any
    number of submissions for one user made one after the other, the user
    having a committed record with an integer score, leave a committed
    record whose score is the old score plus the sum of the increases. *)
Theorem sequential_submissions_add_up :
  Story.submissions_add_up occ_store ∧ Story.submissions_add_up mvocc_store ∧
  Story.submissions_add_up mvcc_store.
Proof.
  split; [|split].
  - apply StoryFacts.occ_stories.
  - apply StoryFacts.mvocc_stories.
  - apply StoryFacts.mvcc_stories.
Qed.

Lemma sequential_submissions_add_up_witness :
  (∃ data',
      st_committed occ_store (user_key 1)
        (foldl (λ st inc, (Story.submit occ_store stamp 1 inc st).2)
               (st_run occ_store load (st_init occ_store)) [10; 20; 30]%Z)
        = Some data' ∧
      data' !! "Score"%string
        = Some (FInt (100 + foldr Z.add 0%Z [10; 20; 30]%Z))) ∧
  (∃ data',
      st_committed mvocc_store (user_key 1)
        (foldl (λ st inc, (Story.submit mvocc_store stamp 1 inc st).2)
               (st_run mvocc_store load (st_init mvocc_store)) [10; 20; 30]%Z)
        = Some data' ∧
      data' !! "Score"%string
        = Some (FInt (100 + foldr Z.add 0%Z [10; 20; 30]%Z))) ∧
  (∃ data',
      st_committed mvcc_store (user_key 1)
        (foldl (λ st inc, (Story.submit mvcc_store stamp 1 inc st).2)
               (st_run mvcc_store load (st_init mvcc_store)) [10; 20; 30]%Z)
        = Some data' ∧
      data' !! "Score"%string
        = Some (FInt (100 + foldr Z.add 0%Z [10; 20; 30]%Z))).
Proof.
  destruct sequential_submissions_add_up as (H1 & H2 & H3).
  split; [|split].
  - refine (H1 _ stamp 1%Z [10; 20; 30]%Z (score 100) 100%Z
               (ex_intro _ load eq_refl) _ _); by_evaluation.
  - refine (H2 _ stamp 1%Z [10; 20; 30]%Z (score 100) 100%Z
               (ex_intro _ load eq_refl) _ _); by_evaluation.
  - refine (H3 _ stamp 1%Z [10; 20; 30]%Z (score 100) 100%Z
               (ex_intro _ load eq_refl) _ _); by_evaluation.
Defined.

(** X16 (leaderboard of the multi-version classes).  In a reachable state
    of [MVOCC] and of [MVCC], the loop of [print_leaderboard] that takes
    [records[user_key][-1]] raises exactly when some key that starts with
    [user_] has an empty chain, and what it raises is [IndexError]. *)
Theorem leaderboard_raises_on_empty_chain :
  MvStory.leaderboard_fails Mvocc.reachable ∧
  MvStory.leaderboard_fails Mvcc.reachable.
Proof.
  split.
  - intros s Hr%MvoccFacts.mvocc_reachable_inv.
    by apply LeaderboardFacts.leaderboard_values_fail.
  - intros s Hr%MvccFacts.mvcc_reachable_inv.
    by apply LeaderboardFacts.leaderboard_values_fail.
Qed.

Lemma leaderboard_raises_on_empty_chain_witness :
  leaderboard_values (Mvocc.run lookup_only Mv.init) = Failed PyIndexError ∧
  leaderboard_values (Mvcc.run lookup_only Mv.init) = Failed PyIndexError.
Proof.
  destruct leaderboard_raises_on_empty_chain as (H1 & H2).
  split.
  - apply (proj1 (H1 _ (ex_intro _ lookup_only eq_refl))).
    exists user_1. split; by_evaluation.
  - apply (proj1 (H2 _ (ex_intro _ lookup_only eq_refl))).
    exists user_1. split; by_evaluation.
Defined.

(** X17 (a submission for an unknown user breaks the leaderboard).  In a
    reachable state of [MVOCC] and of [MVCC], [submit_problem_transaction]
    for a user without a committed record returns by the bare [return],
    but its read has left an empty chain under the user's key, and
    [print_leaderboard] then raises [IndexError]. *)
Theorem unknown_user_breaks_the_leaderboard (now : nat → string) :
  MvStory.unknown_user_breaks_leaderboard
    Mvocc.reachable (MvoccBoard.submit_problem_transaction now) ∧
  MvStory.unknown_user_breaks_leaderboard
    Mvcc.reachable (MvccBoard.submit_problem_transaction now).
Proof.
  split.
  - intros s user_id score_increase Hr%MvoccFacts.mvocc_reachable_inv Hc.
    by apply (LeaderboardFacts.unknown_user_then_leaderboard
                Mvocc.record Mvocc.commit now).
  - intros s user_id score_increase Hr%MvccFacts.mvcc_reachable_inv Hc.
    by apply (LeaderboardFacts.unknown_user_then_leaderboard
                Mvcc.record Mvcc.commit now).
Qed.

Lemma unknown_user_breaks_the_leaderboard_witness :
  leaderboard_values
    (MvoccBoard.submit_problem_transaction stamp 2 50 (Mvocc.run load Mv.init)).2
    = Failed PyIndexError ∧
  leaderboard_values
    (MvccBoard.submit_problem_transaction stamp 2 50 (Mvcc.run load Mv.init)).2
    = Failed PyIndexError.
Proof.
  destruct (unknown_user_breaks_the_leaderboard stamp) as (H1 & H2).
  split.
  - refine (proj2 (proj2 (H1 _ 2%Z 50%Z (ex_intro _ load eq_refl) _))).
    by_evaluation.
  - refine (proj2 (proj2 (H2 _ 2%Z 50%Z (ex_intro _ load eq_refl) _))).
    by_evaluation.
Defined.

(** X18 (no lost update).  Other threads run while a submission sleeps,
    with transactions of their own.  In each class, from a reachable state,
    a submission that returns [True] has added its increase to the record
    that was committed when its own commit ran: one of its three attempts
    read a record, found it still committed after its sleep, and replaced
    it by the record with the increased score; the commit touched no other
    key and added the id of the attempt's transaction to the log. *)
Theorem submission_loses_no_update :
  Story.no_lost_update occ_store ∧ Story.no_lost_update mvocc_store ∧
  Story.no_lost_update mvcc_store.
Proof.
  split; [|split].
  - apply OccContended.occ_no_lost_update.
  - apply MvContended.mvocc_no_lost_update.
  - apply MvContended.mvcc_no_lost_update.
Qed.

Lemma rival_foreign {St : Type} (M : store St) : Story.foreign M (rival M).
Proof.
  intros [|i] s tid o Hn Ho; simpl in Ho; [|by apply elem_of_nil in Ho].
  repeat (apply elem_of_cons in Ho as [->|Ho]); simpl; [tauto|lia|lia|].
  by apply elem_of_nil in Ho.
Qed.

Lemma submission_loses_no_update_witness :
  (∃ i s1,
      i < 3 ∧
      Story.attempt_won occ_store (rival occ_store) stamp 1 50 i s1
        (Story.submit_among occ_store (rival occ_store) nobody stamp 1 50
           (st_run occ_store load (st_init occ_store))).2) ∧
  (∃ i s1,
      i < 3 ∧
      Story.attempt_won mvocc_store (rival mvocc_store) stamp 1 50 i s1
        (Story.submit_among mvocc_store (rival mvocc_store) nobody stamp 1 50
           (st_run mvocc_store load (st_init mvocc_store))).2) ∧
  (∃ i s1,
      i < 3 ∧
      Story.attempt_won mvcc_store (rival mvcc_store) stamp 1 50 i s1
        (Story.submit_among mvcc_store (rival mvcc_store) nobody stamp 1 50
           (st_run mvcc_store load (st_init mvcc_store))).2).
Proof.
  destruct submission_loses_no_update as (H1 & H2 & H3).
  split; [|split].
  - refine (H1 _ _ (rival occ_store) nobody stamp 1%Z 50%Z
               (ex_intro _ load eq_refl) (rival_foreign _) _).
    by_evaluation.
  - refine (H2 _ _ (rival mvocc_store) nobody stamp 1%Z 50%Z
               (ex_intro _ load eq_refl) (rival_foreign _) _).
    by_evaluation.
  - refine (H3 _ _ (rival mvcc_store) nobody stamp 1%Z 50%Z
               (ex_intro _ load eq_refl) (rival_foreign _) _).
    by_evaluation.
Defined.

(** X19 (uncommitted work does not disturb a submission).  Other threads
    run while a submission sleeps, with transactions of their own.  In
    each class, from a reachable state in which the user has a committed
    record with an integer score: when the others only begin transactions,
    read and write during the sleep of the first attempt, that attempt
    commits and the submission returns [True]; the record gets the
    increased score, every other key keeps its committed value, and the
    commit log gets one entry, the id of the submission's transaction. *)
Theorem uncommitted_work_is_harmless :
  Story.undisturbed occ_store ∧ Story.undisturbed mvocc_store ∧
  Story.undisturbed mvcc_store.
Proof.
  split; [|split].
  - apply OccContended.occ_undisturbed.
  - apply MvContended.mvocc_undisturbed.
  - apply MvContended.mvcc_undisturbed.
Qed.

Lemma onlooker_foreign {St : Type} (M : store St) : Story.foreign M (onlooker M).
Proof.
  intros i s tid o Hn Ho. unfold onlooker in Ho.
  repeat (apply elem_of_cons in Ho as [->|Ho]); simpl; [tauto|lia|lia|].
  by apply elem_of_nil in Ho.
Qed.

Lemma onlooker_commits_nothing {St : Type} (M : store St) (i : nat) (s : St) o :
  o ∈ onlooker M i s → ¬ commits o.
Proof.
  intros Ho. unfold onlooker in Ho.
  repeat (apply elem_of_cons in Ho as [->|Ho]); simpl; [tauto..|].
  by apply elem_of_nil in Ho.
Qed.

Lemma uncommitted_work_is_harmless_witness :
  (Story.submit_among occ_store (onlooker occ_store) nobody stamp 1 50
     (st_run occ_store load (st_init occ_store))).1 = Returned (Some true) ∧
  (Story.submit_among mvocc_store (onlooker mvocc_store) nobody stamp 1 50
     (st_run mvocc_store load (st_init mvocc_store))).1 = Returned (Some true) ∧
  (Story.submit_among mvcc_store (onlooker mvcc_store) nobody stamp 1 50
     (st_run mvcc_store load (st_init mvcc_store))).1 = Returned (Some true).
Proof.
  destruct uncommitted_work_is_harmless as (H1 & H2 & H3).
  split; [|split].
  - refine (proj1 (H1 _ (onlooker occ_store) nobody stamp 1%Z 50%Z (score 100)
                      100%Z (ex_intro _ load eq_refl) (onlooker_foreign _)
                      (onlooker_commits_nothing _ 0) _ _)); by_evaluation.
  - refine (proj1 (H2 _ (onlooker mvocc_store) nobody stamp 1%Z 50%Z (score 100)
                      100%Z (ex_intro _ load eq_refl) (onlooker_foreign _)
                      (onlooker_commits_nothing _ 0) _ _)); by_evaluation.
  - refine (proj1 (H3 _ (onlooker mvcc_store) nobody stamp 1%Z 50%Z (score 100)
                      100%Z (ex_intro _ load eq_refl) (onlooker_foreign _)
                      (onlooker_commits_nothing _ 0) _ _)); by_evaluation.
Defined.
